(** * miniplex: the entity store (src/ecs.ts) and the predicate combinators
      (packages/miniplex-core/src/predicates.ts)

    A shallow embedding of the two TypeScript modules.  JavaScript objects
    that are compared by reference (entities, archetype arrays, predicate
    functions) carry an explicit identity; the mutable state the closures of
    [createWorld] share is threaded through a state-and-exception monad. *)

From Stdlib Require Import ZArith Ascii String.
From stdpp Require Import base decidable option list sorting gmap strings.

Local Open Scope Z_scope.

(** ** The JavaScript built-ins the two modules call *)

Module JS.

(** [Array.prototype.sort()] without a comparator orders strings by their
    code units; it is a stable merge sort. *)
Definition sort (components : list string) : list string :=
  merge_sort String.le components.

(** [Array.prototype.includes]. *)
Definition includes `{EqDecision A} (l : list A) (x : A) : bool :=
  bool_decide (x ∈ l).

(** [Array.prototype.indexOf(x, 0)]: the first position of [x], or [-1]. *)
Fixpoint indexOf_from `{EqDecision A} (l : list A) (x : A) (i : Z) : Z :=
  match l with
  | [] => -1
  | y :: l' => if decide (y = x) then i else indexOf_from l' x (i + 1)
  end.

Definition indexOf `{EqDecision A} (l : list A) (x : A) : Z :=
  indexOf_from l x 0.

(** [Array.prototype.splice(start, deleteCount)] with no inserted items.  A
    negative [start] counts from the end of the array (clamped at 0), a
    [start] past the end is clamped to the length. *)
Definition splice {A} (l : list A) (start : Z) (deleteCount : nat) : list A :=
  let len := Z.of_nat (length l) in
  let actualStart :=
    Z.to_nat (if start <? 0 then Z.max (len + start) 0 else Z.min start len) in
  take actualStart l ++ drop (actualStart + deleteCount) l.

(** [[...new Set(l)]]: the distinct elements, each at its first position. *)
Fixpoint Set_values_from (seen l : list string) : list string :=
  match l with
  | [] => []
  | x :: l' =>
      if bool_decide (x ∈ seen) then Set_values_from seen l'
      else x :: Set_values_from (x :: seen) l'
  end.

Definition Set_values (l : list string) : list string := Set_values_from [] l.

(** *** [JSON.stringify] on an array of strings *)

Definition dquote : ascii := "034"%char.
Definition backslash : ascii := "092"%char.

Definition hex_digit (n : N) : ascii :=
  match n with
  | 0%N => "0" | 1%N => "1" | 2%N => "2" | 3%N => "3" | 4%N => "4"
  | 5%N => "5" | 6%N => "6" | 7%N => "7" | 8%N => "8" | 9%N => "9"
  | 10%N => "a" | 11%N => "b" | 12%N => "c" | 13%N => "d" | 14%N => "e"
  | _ => "f"
  end%char.

(** QuoteJSONString, one code unit at a time. *)
Definition quote_char (c : ascii) : string :=
  if Ascii.eqb c dquote then String backslash (String dquote "")
  else if Ascii.eqb c backslash then String backslash (String backslash "")
  else if Ascii.eqb c "008" then String backslash "b"
  else if Ascii.eqb c "009" then String backslash "t"
  else if Ascii.eqb c "010" then String backslash "n"
  else if Ascii.eqb c "012" then String backslash "f"
  else if Ascii.eqb c "013" then String backslash "r"
  else if (N_of_ascii c <? 32)%N then
    String backslash
      (String "u" (String "0" (String "0"
        (String (hex_digit (N_of_ascii c / 16))
          (String (hex_digit (N_of_ascii c mod 16)) "")))))
  else String c "".

Fixpoint quote_chars (s : string) : string :=
  match s with
  | EmptyString => ""
  | String c s' => quote_char c +:+ quote_chars s'
  end.

Definition QuoteJSONString (s : string) : string :=
  String dquote (quote_chars s +:+ String dquote "").

Fixpoint stringify_items (l : list string) : string :=
  match l with
  | [] => ""
  | [x] => QuoteJSONString x
  | x :: l' => QuoteJSONString x +:+ "," +:+ stringify_items l'
  end.

Definition JSON_stringify (l : list string) : string :=
  "[" +:+ stringify_items l +:+ "]".

(** What follows the first item of a serialised array. *)
Definition items_tail (l : list string) : string :=
  match l with
  | [] => "]"
  | _ :: _ => "," +:+ stringify_items l +:+ "]"
  end.

(** The inverse of [quote_chars], up to the closing quote: used only to
    show that [JSON_stringify] separates distinct arrays. *)
Definition hex_value (c : ascii) : option N :=
  let n := N_of_ascii c in
  if ((48 <=? n) && (n <=? 57))%N then Some (n - 48)%N
  else if ((97 <=? n) && (n <=? 102))%N then Some (n - 87)%N
  else None.

Definition unescape (e : ascii) : option ascii :=
  if Ascii.eqb e dquote then Some dquote
  else if Ascii.eqb e backslash then Some backslash
  else if Ascii.eqb e "b" then Some "008"%char
  else if Ascii.eqb e "t" then Some "009"%char
  else if Ascii.eqb e "n" then Some "010"%char
  else if Ascii.eqb e "f" then Some "012"%char
  else if Ascii.eqb e "r" then Some "013"%char
  else None.

Definition push_front (c : ascii) (r : option (string * string))
  : option (string * string) :=
  match r with
  | Some (s, rest) => Some (String c s, rest)
  | None => None
  end.

Fixpoint read_quoted (s : string) : option (string * string) :=
  match s with
  | EmptyString => None
  | String c rest =>
      if Ascii.eqb c dquote then Some ("", rest)
      else if Ascii.eqb c backslash then
        match rest with
        | EmptyString => None
        | String e rest1 =>
            if Ascii.eqb e "u" then
              match rest1 with
              | String _ (String _ (String h (String l rest2))) =>
                  match hex_value h, hex_value l with
                  | Some hv, Some lv =>
                      push_front (ascii_of_N (16 * hv + lv)) (read_quoted rest2)
                  | _, _ => None
                  end
              | _ => None
              end
            else
              match unescape e with
              | Some ch => push_front ch (read_quoted rest1)
              | None => None
              end
        end
      else push_front c (read_quoted rest)
  end.

End JS.

(** ** The entity store: src/ecs.ts *)

Module Ecs.

Abbreviation ComponentName := string.

(** The data of a component "can be literally anything"; the store only ever
    asks whether a value is [undefined]. *)
Inductive ComponentData :=
| Undefined
| Data (d : Z).

(** An entity is a plain object; [Entity] holds its own properties.  The
    objects live outside the world (callers create them and keep references),
    so operations name them by reference and the world state carries the heap
    in which they live. *)
Abbreviation Entity := (gmap string ComponentData).
Abbreviation EntityRef := nat.

(** An archetype is an array of component names.  The maps of the world are
    keyed by the array object, not by its contents, so the array carries its
    identity.  Nothing in ecs.ts writes to an archetype array once
    [createArchetype] has sorted it. *)
Record Archetype := {
  identity : nat;
  components : list ComponentName
}.

(** A JavaScript [Map] keyed by archetype objects: entries in insertion
    order, keys compared by reference. *)
Abbreviation Map V := (list (Archetype * V)).

Definition same (a b : Archetype) : bool := Nat.eqb (identity a) (identity b).

Fixpoint Map_get {V} (m : Map V) (k : Archetype) : option V :=
  match m with
  | [] => None
  | (k', v) :: m' => if same k' k then Some v else Map_get m' k
  end.

Definition Map_has {V} (m : Map V) (k : Archetype) : bool :=
  match Map_get m k with Some _ => true | None => false end.

Fixpoint Map_set {V} (m : Map V) (k : Archetype) (v : V) : Map V :=
  match m with
  | [] => [(k, v)]
  | (k', v') :: m' =>
      if same k' k then (k', v) :: m' else (k', v') :: Map_set m' k v
  end.

(** Modelled from the spec: util/ListenerRegistry is not among the sources.
    A registry is an ordered set of zero-argument callbacks; [invoke()] calls
    each registered callback once, in registration order.  The callbacks are
    opaque to the store, so a registry records who is subscribed and how many
    [invoke()] passes it has made. *)
Record ListenerRegistry := {
  callbacks : list nat;
  invocations : nat
}.

(** Modelled from the spec: [new ListenerRegistry()] has no callbacks and
    has not been invoked. *)
Definition new_ListenerRegistry : ListenerRegistry :=
  {| callbacks := []; invocations := 0 |}.

(** Modelled from the spec: one [invoke()] pass calls every registered
    callback once and changes nothing else in the registry. *)
Definition ListenerRegistry_invoke (r : ListenerRegistry) : ListenerRegistry :=
  {| callbacks := callbacks r; invocations := S (invocations r) |}.

(** The thunks held by the command queue: each closure of the deferred API
    captures its operands and calls the operation of the same name in
    [immediately]. *)
Inductive Command :=
| AddEntity (entity : EntityRef)
| RemoveEntity (entity : EntityRef)
| AddComponent (entity : EntityRef) (name : ComponentName) (data : ComponentData)
| RemoveComponent (entity : EntityRef) (names : list ComponentName).

(** The variables [createWorld] closes over, with the heap of entity objects
    and the number of archetype arrays allocated so far (the identity of the
    next one). *)
Record World := {
  heap : gmap EntityRef Entity;
  allocated : nat;
  entities : list EntityRef;
  nextId : Z;
  archetypes : Map (list EntityRef);
  archetypeChanged : Map ListenerRegistry;
  queue : list Command;
  memoizedArchetypes : gmap string Archetype
}.

Definition with_heap (h : gmap EntityRef Entity) (w : World) : World :=
  {| heap := h; allocated := allocated w; entities := entities w;
     nextId := nextId w; archetypes := archetypes w;
     archetypeChanged := archetypeChanged w; queue := queue w;
     memoizedArchetypes := memoizedArchetypes w |}.

Definition with_allocated (n : nat) (w : World) : World :=
  {| heap := heap w; allocated := n; entities := entities w;
     nextId := nextId w; archetypes := archetypes w;
     archetypeChanged := archetypeChanged w; queue := queue w;
     memoizedArchetypes := memoizedArchetypes w |}.

Definition with_entities (l : list EntityRef) (w : World) : World :=
  {| heap := heap w; allocated := allocated w; entities := l;
     nextId := nextId w; archetypes := archetypes w;
     archetypeChanged := archetypeChanged w; queue := queue w;
     memoizedArchetypes := memoizedArchetypes w |}.

Definition with_nextId (n : Z) (w : World) : World :=
  {| heap := heap w; allocated := allocated w; entities := entities w;
     nextId := n; archetypes := archetypes w;
     archetypeChanged := archetypeChanged w; queue := queue w;
     memoizedArchetypes := memoizedArchetypes w |}.

Definition with_archetypes (m : Map (list EntityRef)) (w : World) : World :=
  {| heap := heap w; allocated := allocated w; entities := entities w;
     nextId := nextId w; archetypes := m;
     archetypeChanged := archetypeChanged w; queue := queue w;
     memoizedArchetypes := memoizedArchetypes w |}.

Definition with_archetypeChanged (m : Map ListenerRegistry) (w : World) : World :=
  {| heap := heap w; allocated := allocated w; entities := entities w;
     nextId := nextId w; archetypes := archetypes w;
     archetypeChanged := m; queue := queue w;
     memoizedArchetypes := memoizedArchetypes w |}.

Definition with_queue (q : list Command) (w : World) : World :=
  {| heap := heap w; allocated := allocated w; entities := entities w;
     nextId := nextId w; archetypes := archetypes w;
     archetypeChanged := archetypeChanged w; queue := q;
     memoizedArchetypes := memoizedArchetypes w |}.

Definition with_memoizedArchetypes (m : gmap string Archetype) (w : World) : World :=
  {| heap := heap w; allocated := allocated w; entities := entities w;
     nextId := nextId w; archetypes := archetypes w;
     archetypeChanged := archetypeChanged w; queue := queue w;
     memoizedArchetypes := m |}.

(** *** Calls that may throw *)

Inductive Error :=
| DuplicateIdentifier
| TypeError.

(** A call either returns a value or throws; either way the mutations made
    up to that point stay. *)
Inductive Outcome (A : Type) :=
| Return (a : A) (w : World)
| Throw (e : Error) (w : World).
Arguments Return {A} a w.
Arguments Throw {A} e w.

Definition M (A : Type) := World → Outcome A.

Definition ret {A} (a : A) : M A := fun w => Return a w.

Definition bind {A B} (m : M A) (k : A → M B) : M B :=
  fun w =>
    match m w with
    | Return a w' => k a w'
    | Throw e w' => Throw e w'
    end.

Definition throw {A} (e : Error) : M A := fun w => Throw e w.
Definition gets {A} (f : World → A) : M A := fun w => Return (f w) w.
Definition modify (f : World → World) : M unit := fun w => Return tt (f w).

#[export] Instance M_ret : MRet M := @ret.
#[export] Instance M_bind : MBind M := fun A B k m => bind m k.

Definition world_of {A} (o : Outcome A) : World :=
  match o with
  | Return _ w => w
  | Throw _ w => w
  end.

(** *** Entity objects *)

(** The object behind a reference; a reference the heap does not list is an
    object nothing has been written to yet. *)
Definition object (w : World) (entity : EntityRef) : Entity :=
  default ∅ (heap w !! entity).

Definition set_object (entity : EntityRef) (o : Entity) (w : World) : World :=
  with_heap (<[entity := o]> (heap w)) w.

(** [name in entity] *)
Definition has_property (o : Entity) (name : ComponentName) : bool :=
  bool_decide (is_Some (o !! name)).

(** [Object.keys(entity)] *)
Definition Object_keys (o : Entity) : list ComponentName :=
  (map_to_list o).*1.

(** [entity[name] !== undefined]: a missing property reads as [undefined]. *)
Definition defined (o : Entity) (name : ComponentName) : bool :=
  match o !! name with
  | Some (Data _) => true
  | _ => false
  end.

(** Modelled from the spec: util/entityIsArchetype is not among the sources.
    "Entity E satisfies archetype A iff, for every component name in A, E
    holds a defined (non-absent) value for that name." *)
Definition entityIsArchetype (o : Entity) (archetype : Archetype) : bool :=
  forallb (defined o) (components archetype).

(** Modelled from the spec: util/idGenerator is not among the sources.  It
    "produces a monotonically increasing sequence of unique integers";
    [idGenerator(1)] starts the sequence at 1 and each call of the generator
    yields the next integer. *)
Definition idGenerator (start : Z) : Z := start.

(** Modelled from the spec: one call [nextId()] of the generator. *)
Definition nextId_call : M Z :=
  fun w => Return (nextId w) (with_nextId (nextId w + 1) w).

(** Modelled from the spec: util/memoizedMap is not among the sources.  The
    memoization utility is "a generic key→value cache (... string-keyed for
    canonicalized lists) guaranteeing the same logical key always yields the
    same cached value by reference", and "two archetypes with equal sets as
    canonicalized are represented by the identical object".  The logical key
    of a list of names is therefore the set of its names: the string a list
    is filed under is the serialisation of the list, which [createArchetype]
    has sorted, with its repeated names dropped. *)
Definition memoizedMap_key (key : list ComponentName) : string :=
  JS.JSON_stringify (JS.Set_values key).

(** Modelled from the spec: [fetch(key, factory)] of util/memoizedMap
    returns the value cached under the key when there is one, and otherwise
    caches and returns what the factory builds. *)
Definition memoizedArchetypes_fetch (key : list ComponentName)
    (factory : unit → Archetype) : M Archetype :=
  fun w =>
    let k := memoizedMap_key key in
    match memoizedArchetypes w !! k with
    | Some cached => Return cached w
    | None =>
        let made := factory tt in
        Return made (with_memoizedArchetypes (<[k := made]> (memoizedArchetypes w)) w)
    end.

(** Modelled from the spec: util/commandQueue is not among the sources.  The
    queue is a "FIFO buffer of deferred mutation thunks"; [add] appends,
    [flush()] "executes all queued thunks in enqueue order, then empties the
    queue", [clear()] "empties the queue without executing it". *)
Definition queue_add (c : Command) : M unit :=
  modify (fun w => with_queue (queue w ++ [c]) w).

(** Modelled from the spec: [queue.clear()] of util/commandQueue. *)
Definition queue_clear : M unit := modify (with_queue []).

(** *** createWorld *)

Definition createWorld : World :=
  {| heap := ∅; allocated := 0; entities := []; nextId := idGenerator 1;
     archetypes := []; archetypeChanged := []; queue := [];
     memoizedArchetypes := ∅ |}.

(** The rest parameter [...components] is a fresh array on every call. *)
Definition rest_array (l : list ComponentName) : M Archetype :=
  fun w =>
    Return {| identity := allocated w; components := l |}
           (with_allocated (S (allocated w)) w).

Definition createArchetype (components : list ComponentName) : M Archetype :=
  components ← rest_array components;
  (* components.sort() sorts the array in place and returns it *)
  let normalized :=
    {| identity := identity components;
       components := JS.sort (Ecs.components components) |} in
  archetype ← memoizedArchetypes_fetch (Ecs.components normalized) (fun _ => normalized);
  has ← gets (fun w => Map_has (archetypes w) archetype);
  if negb has then
    (* create an index, and index existing entities *)
    modify (fun w =>
      with_archetypes
        (Map_set (archetypes w) archetype
           (List.filter (fun entity => entityIsArchetype (object w entity) archetype)
                        (entities w))) w);;
    (* create listeners *)
    modify (fun w =>
      with_archetypeChanged
        (Map_set (archetypeChanged w) archetype new_ListenerRegistry) w);;
    ret archetype
  else ret archetype.

(** The archetype a call of [createArchetype] returns (it never throws). *)
Definition createArchetype_result (components : list ComponentName) (w : World)
    : Archetype :=
  let normalized := {| identity := allocated w; components := JS.sort components |} in
  default normalized
    (memoizedArchetypes w !! memoizedMap_key (Ecs.components normalized)).

(** [archetypes.get(archetype)!]: [None] is [undefined]. *)
Definition get (archetype : Archetype) : M (option (list EntityRef)) :=
  gets (fun w => Map_get (archetypes w) archetype).

(** [archetypes.get(archetype)![0]]: reading element 0 of [undefined] is a
    TypeError; element 0 of an empty array is [undefined]. *)
Definition getOne (archetype : Archetype) : M (option EntityRef) :=
  index ← gets (fun w => Map_get (archetypes w) archetype);
  match index with
  | None => throw TypeError
  | Some index => ret (head index)
  end.

Definition getWith (components : list ComponentName) : M (option (list EntityRef)) :=
  archetype ← createArchetype components;
  get archetype.

(** [listeners.archetypeChanged.get(archetype)!.invoke()]: calling a method
    of [undefined] is a TypeError. *)
Definition invoke_listeners (ls : Map ListenerRegistry) (archetype : Archetype)
    : option (Map ListenerRegistry) :=
  match Map_get ls archetype with
  | Some registry => Some (Map_set ls archetype (ListenerRegistry_invoke registry))
  | None => None
  end.

(** [for (const [archetype, index] of archetypes.entries()) { ... }] for the
    three loops of this module.  Each of them looks at one entry at a time
    and either leaves it alone or rewrites the index array in place and then
    invokes the listeners of that archetype: [body archetype index] is
    [Some index'] in the second case.  The entity objects are not written to
    while a loop runs.  The result is the entries and registries as the loop
    leaves them, and the error if an iteration threw. *)
Fixpoint for_entries (body : Archetype → list EntityRef → option (list EntityRef))
    (entries : Map (list EntityRef)) (ls : Map ListenerRegistry)
    : Map (list EntityRef) * Map ListenerRegistry * option Error :=
  match entries with
  | [] => ([], ls, None)
  | (archetype, index) :: rest =>
      match body archetype index with
      | None =>
          let '(rest', ls', err) := for_entries body rest ls in
          ((archetype, index) :: rest', ls', err)
      | Some index' =>
          match invoke_listeners ls archetype with
          | None => ((archetype, index') :: rest, ls, Some TypeError)
          | Some ls1 =>
              let '(rest', ls', err) := for_entries body rest ls1 in
              ((archetype, index') :: rest', ls', err)
          end
      end
  end.

Definition for_archetypes_entries
    (body : Archetype → list EntityRef → option (list EntityRef)) : M unit :=
  fun w =>
    let '(entries, ls, err) := for_entries body (archetypes w) (archetypeChanged w) in
    let w' := with_archetypeChanged ls (with_archetypes entries w) in
    match err with
    | None => Return tt w'
    | Some e => Throw e w'
    end.

Definition indexEntityWithNewComponents (entity : EntityRef)
    (addedComponents : list ComponentName) : M unit :=
  o ← gets (fun w => object w entity);
  for_archetypes_entries (fun archetype index =>
    if existsb (fun indexedComponent => JS.includes addedComponents indexedComponent)
               (components archetype)
    then
      if entityIsArchetype o archetype && negb (JS.includes index entity)
      then Some (index ++ [entity])
      else None
    else None).

Definition indexEntityWithRemovedComponents (entity : EntityRef)
    (removedComponents : list ComponentName) : M unit :=
  o ← gets (fun w => object w entity);
  for_archetypes_entries (fun archetype index =>
    if existsb (fun indexedComponent => JS.includes removedComponents indexedComponent)
               (components archetype)
    then
      if negb (entityIsArchetype o archetype)
      then Some (JS.splice index (JS.indexOf index entity) 1)
      else None
    else None).

Definition removeEntityFromAllIndices (entity : EntityRef) : M unit :=
  for_archetypes_entries (fun archetype index =>
    let pos := JS.indexOf index entity in
    if 0 <=? pos then Some (JS.splice index pos 1) else None).

(** *** The [immediately] namespace *)

Definition immediately_addEntity (entity : EntityRef) : M EntityRef :=
  o ← gets (fun w => object w entity);
  if has_property o "id" then throw DuplicateIdentifier
  else
    id ← nextId_call;
    modify (fun w => set_object entity (<["id" := Data id]> (object w entity)) w);;
    modify (fun w => with_entities (entities w ++ [entity]) w);;
    keys ← gets (fun w => Object_keys (object w entity));
    indexEntityWithNewComponents entity keys;;
    ret entity.

Definition immediately_removeEntity (entity : EntityRef) : M unit :=
  removeEntityFromAllIndices entity;;
  modify (fun w => set_object entity (delete "id" (object w entity)) w);;
  modify (fun w =>
    let pos := JS.indexOf (entities w) entity in
    with_entities (JS.splice (entities w) pos 1) w).

Definition immediately_addComponent (entity : EntityRef) (name : ComponentName)
    (data : ComponentData) : M unit :=
  modify (fun w => set_object entity (<[name := data]> (object w entity)) w);;
  indexEntityWithNewComponents entity [name].

Definition immediately_removeComponent (entity : EntityRef)
    (components : list ComponentName) : M unit :=
  modify (fun w =>
    set_object entity
      (foldl (fun o name => delete name o) (object w entity) components) w);;
  indexEntityWithRemovedComponents entity components.

(** *** The deferred API and the queue *)

Definition addEntity (entity : EntityRef) : M EntityRef :=
  queue_add (AddEntity entity);;
  ret entity.

Definition removeEntity (entity : EntityRef) : M unit :=
  queue_add (RemoveEntity entity).

Definition addComponent (entity : EntityRef) (name : ComponentName)
    (data : ComponentData) : M unit :=
  queue_add (AddComponent entity name data).

Definition removeComponent (entity : EntityRef) (names : list ComponentName) : M unit :=
  queue_add (RemoveComponent entity names).

(** Calling a queued thunk. *)
Definition call (c : Command) : M unit :=
  match c with
  | AddEntity entity => immediately_addEntity entity;; ret tt
  | RemoveEntity entity => immediately_removeEntity entity
  | AddComponent entity name data => immediately_addComponent entity name data
  | RemoveComponent entity names => immediately_removeComponent entity names
  end.

Fixpoint call_each (cs : list Command) : M unit :=
  match cs with
  | [] => ret tt
  | c :: cs' => call c;; call_each cs'
  end.

(** Modelled from the spec: [queue.flush()] of util/commandQueue calls the
    queued thunks in enqueue order and then empties the queue; a thunk that
    throws ends the flush there. *)
Definition queue_flush : M unit :=
  cs ← gets queue;
  call_each cs;;
  modify (with_queue []).

Definition flush : M unit := queue_flush.

Definition clear : M unit :=
  (* Remove all entities *)
  modify (with_entities []);;
  (* Remove all archetype indices *)
  modify (with_archetypes []);;
  (* Remove all listeners *)
  modify (with_archetypeChanged []);;
  (* Clear queue *)
  queue_clear.

(** *** Observations and programs *)

(** How often the listeners of an archetype have been notified. *)
Definition invocations_of (ls : Map ListenerRegistry) (archetype : Archetype) : nat :=
  match Map_get ls archetype with
  | Some registry => invocations registry
  | None => 0
  end.

Definition notifications (w : World) (archetype : Archetype) : nat :=
  invocations_of (archetypeChanged w) archetype.

(** The calls a program can make on a world. *)
Inductive Call :=
| call_createArchetype (components : list ComponentName)
| call_get (archetype : Archetype)
| call_getOne (archetype : Archetype)
| call_getWith (components : list ComponentName)
| call_immediately (c : Command)
| call_deferred (c : Command)
| call_flush
| call_clear.

Definition defer (c : Command) : M unit :=
  match c with
  | AddEntity entity => addEntity entity;; ret tt
  | RemoveEntity entity => removeEntity entity
  | AddComponent entity name data => addComponent entity name data
  | RemoveComponent entity names => removeComponent entity names
  end.

Definition perform (c : Call) : M unit :=
  match c with
  | call_createArchetype components => createArchetype components;; ret tt
  | call_get archetype => get archetype;; ret tt
  | call_getOne archetype => getOne archetype;; ret tt
  | call_getWith components => getWith components;; ret tt
  | call_immediately c => call c
  | call_deferred c => defer c
  | call_flush => flush
  | call_clear => clear
  end.

(** The world after a call, whether it returned or threw. *)
Definition after (c : Call) (w : World) : World := world_of (perform c w).

Definition after_all (cs : list Call) (w : World) : World :=
  foldl (fun w c => after c w) w cs.

(** The worlds a program can reach: it builds its entity objects, creates a
    world and makes calls on it. *)
Definition reachable (w : World) : Prop :=
  ∃ h cs, w = after_all cs (with_heap h createWorld).

(** Deferring a list of commands, one call after the other. *)
Definition defer_all (cs : list Command) (w : World) : World :=
  foldl (fun w c => world_of (defer c w)) w cs.

(** The call registers the archetype object [a]: it is a [createArchetype]
    or [getWith] that returns [a]. *)
Definition registers (c : Call) (w : World) (a : Archetype) : Prop :=
  match c with
  | call_createArchetype l | call_getWith l =>
      identity (createArchetype_result l w) = identity a
  | _ => False
  end.

(** The indices are exact: every index lists, once each, the entities of the
    master list that hold a defined value for every component name of its
    archetype. *)
Definition index_exact (w : World) : Prop :=
  ∀ archetype index, (archetype, index) ∈ archetypes w →
    NoDup index
    ∧ ∀ entity, entity ∈ index ↔
        entity ∈ entities w ∧ entityIsArchetype (object w entity) archetype = true.

(** The identities of the keys of a map. *)
Definition keys {V} (m : Map V) : list nat := (fun kv => identity kv.1) <$> m.

(** What [createWorld] and the calls above maintain: a [Map] has no key
    twice, and every archetype with an index has its listener registry. *)
Definition well_formed (w : World) : Prop :=
  NoDup (keys (archetypes w))
  ∧ ∀ k, k ∈ keys (archetypes w) → k ∈ keys (archetypeChanged w).

(** The store is in order: the indices are exact, the master list has no
    entity twice and only entities with an identifier, no registered or
    cached archetype is the empty one, and every index has its listeners. *)
Record tidy (w : World) : Prop := {
  tidy_exact : index_exact w;
  tidy_entities : NoDup (entities w);
  tidy_ids : ∀ entity, entity ∈ entities w →
    has_property (object w entity) "id" = true;
  tidy_nonempty : ∀ archetype index, (archetype, index) ∈ archetypes w →
    components archetype ≠ [];
  tidy_cache : ∀ key archetype, memoizedArchetypes w !! key = Some archetype →
    components archetype ≠ [];
  tidy_listeners : ∀ k, k ∈ keys (archetypes w) → k ∈ keys (archetypeChanged w)
}.

(** The calls that keep the store in order: archetypes are registered with
    at least one name; components are added, with a defined value, to
    entities of the store; entities of the store are removed; and components
    other than [id] are removed from an entity that is in every index whose
    archetype names one of them. *)
Definition proper (w : World) (c : Call) : Prop :=
  match c with
  | call_createArchetype l | call_getWith l => l ≠ []
  | call_get _ | call_getOne _ | call_clear | call_deferred _ => True
  | call_flush => queue w = []
  | call_immediately (AddEntity _) => True
  | call_immediately (AddComponent entity _ data) =>
      entity ∈ entities w ∧ data ≠ Undefined
  | call_immediately (RemoveEntity entity) => entity ∈ entities w
  | call_immediately (RemoveComponent entity names) =>
      ("id" ∉ names)
      ∧ ∀ archetype index, (archetype, index) ∈ archetypes w →
          (∃ c, c ∈ components archetype ∧ c ∈ names) → entity ∈ index
  end.

(** A program all of whose calls are proper when they are made. *)
Fixpoint proper_all (w : World) (cs : list Call) : Prop :=
  match cs with
  | [] => True
  | c :: cs' => proper w c ∧ proper_all (after c w) cs'
  end.

(** A command that leaves the [id] property of [entity] where it is: every
    command but a [removeEntity] of the entity and a [removeComponent] that
    names its [id]. *)
Definition keeps_id (entity : EntityRef) (c : Command) : Prop :=
  match c with
  | RemoveEntity e => e ≠ entity
  | RemoveComponent e names => e ≠ entity ∨ "id" ∉ names
  | AddEntity _ | AddComponent _ _ _ => True
  end.

(** A call that issues no such command, neither at once nor deferred. *)
Definition keeps_identifier (entity : EntityRef) (c : Call) : Prop :=
  match c with
  | call_immediately c | call_deferred c => keeps_id entity c
  | _ => True
  end.

(** The cache and the indices agree: an archetype is cached under the key
    of its own names, the cached archetypes are arrays
    allocated earlier, no two of them are the same array, and every
    archetype with an index is a cached one. *)
Record coherent (w : World) : Prop := {
  coherent_key : ∀ k a, memoizedArchetypes w !! k = Some a →
    k = memoizedMap_key (components a);
  coherent_allocated : ∀ k a, memoizedArchetypes w !! k = Some a →
    (identity a < allocated w)%nat;
  coherent_identity : ∀ k1 k2 a1 a2,
    memoizedArchetypes w !! k1 = Some a1 → memoizedArchetypes w !! k2 = Some a2 →
    identity a1 = identity a2 → a1 = a2;
  coherent_registered : ∀ a, a ∈ (archetypes w).*1 →
    ∃ k, memoizedArchetypes w !! k = Some a
}.

(** What a loop whose body is [body] makes of an entry. *)
Definition rewritten (body : Archetype → list EntityRef → option (list EntityRef))
    (entry : Archetype * list EntityRef) : Archetype * list EntityRef :=
  (entry.1, default entry.2 (body entry.1 entry.2)).

End Ecs.

(** ** The predicate combinators: packages/miniplex-core/src/predicates.ts *)

Module Predicates.

Abbreviation Entity := (gmap string Ecs.ComponentData).

(** A predicate is a function object; two predicates are the same function
    when they are the same reference.  What a function object computes is
    fixed when it is created. *)
Abbreviation Predicate := nat.

(** The function objects created so far and the four module-level stores. *)
Record Stores := {
  functions : list (Entity → bool);
  stores_not : gmap Predicate Predicate;
  stores_all : gmap string Predicate;
  stores_any : gmap string Predicate;
  stores_none : gmap string Predicate
}.

Definition initial : Stores :=
  {| functions := []; stores_not := ∅; stores_all := ∅;
     stores_any := ∅; stores_none := ∅ |}.

(** Evaluating a function expression creates a new function object. *)
Definition new_function (body : Entity → bool) (st : Stores) : Predicate * Stores :=
  (length (functions st),
   {| functions := functions st ++ [body]; stores_not := stores_not st;
      stores_all := stores_all st; stores_any := stores_any st;
      stores_none := stores_none st |}).

(** [predicate(entity)]; a reference that is not a function cannot be
    called. *)
Definition apply (st : Stores) (predicate : Predicate) (entity : Entity) : option bool :=
  (fun body => body entity) <$> functions st !! predicate.

Definition memoize `{Countable K} (store : gmap K Predicate) (from : K) (to : Predicate)
    : Predicate * gmap K Predicate :=
  match store !! from with
  | Some cached => (cached, store)
  | None => (to, <[from := to]> store)
  end.

(** [!!p && p !== ""] on a string. *)
Definition truthy (p : string) : bool := negb (String.eqb p "").

(** [[...new Set(components.sort().filter((p) => !!p && p !== ""))]] *)
Definition canonical (components : list string) : list string :=
  JS.Set_values
    (List.filter (fun p => truthy p && negb (String.eqb p "")) (JS.sort components)).

Definition key (components : list string) : string :=
  JS.JSON_stringify (canonical components).

(** [predicate] is a function the caller holds; the closure calls it. *)
Definition not (predicate : Predicate) (st : Stores) : Predicate * Stores :=
  let body := default (fun _ => false) (functions st !! predicate) in
  let '(to, st) := new_function (fun entity => negb (body entity)) st in
  let '(f, store) := memoize (stores_not st) predicate to in
  (f, {| functions := functions st; stores_not := store;
         stores_all := stores_all st; stores_any := stores_any st;
         stores_none := stores_none st |}).

(** In [all], [any] and [none] the key is computed first, and computing it
    sorts the [components] array in place: the closure sees the sorted
    array. *)
Definition all (components : list string) (st : Stores) : Predicate * Stores :=
  let k := key components in
  let components := JS.sort components in
  let '(to, st) :=
    new_function (fun entity => forallb (fun c => Ecs.defined entity c) components) st in
  let '(f, store) := memoize (stores_all st) k to in
  (f, {| functions := functions st; stores_not := stores_not st;
         stores_all := store; stores_any := stores_any st;
         stores_none := stores_none st |}).

Definition any (components : list string) (st : Stores) : Predicate * Stores :=
  let k := key components in
  let components := JS.sort components in
  let '(to, st) :=
    new_function (fun entity => existsb (fun c => Ecs.defined entity c) components) st in
  let '(f, store) := memoize (stores_any st) k to in
  (f, {| functions := functions st; stores_not := stores_not st;
         stores_all := stores_all st; stores_any := store;
         stores_none := stores_none st |}).

Definition none (components : list string) (st : Stores) : Predicate * Stores :=
  let k := key components in
  let components := JS.sort components in
  let '(to, st) :=
    new_function (fun entity => forallb (fun c => negb (Ecs.defined entity c)) components) st in
  let '(f, store) := memoize (stores_none st) k to in
  (f, {| functions := functions st; stores_not := stores_not st;
         stores_all := stores_all st; stores_any := stores_any st;
         stores_none := store |}).

(** What a program can do with the module: write a predicate of its own, or
    call one of the four constructors ([not] on a function it holds). *)
Inductive Call :=
| call_define (body : Entity → bool)
| call_not (predicate : Predicate)
| call_all (components : list string)
| call_any (components : list string)
| call_none (components : list string).

Definition perform (c : Call) (st : Stores) : Predicate * Stores :=
  match c with
  | call_define body => new_function body st
  | call_not predicate => not predicate st
  | call_all components => all components st
  | call_any components => any components st
  | call_none components => none components st
  end.

(** A call a program can make in [st], with name lists taken from [names]. *)
Definition possible (names : list string → Prop) (st : Stores) (c : Call) : Prop :=
  match c with
  | call_define _ => True
  | call_not predicate => (predicate < length (functions st))%nat
  | call_all components | call_any components | call_none components => names components
  end.

(** The states reached from the freshly loaded module. *)
Inductive reachable (names : list string → Prop) : Stores → Prop :=
| reachable_initial : reachable names initial
| reachable_call st c :
    reachable names st → possible names st c → reachable names (perform c st).2.

(** The module after a sequence of further calls. *)
Definition perform_all (cs : list Call) (st : Stores) : Stores :=
  foldl (fun st c => (perform c st).2) st cs.

(** The name lists with no empty name. *)
Definition no_empty_name (components : list string) : Prop := "" ∉ components.

(** What the stores hold, given that every name list passed so far satisfies
    [names]: a cached [not] negates the function it is filed under, and a
    cached [all], [any] or [none] tests the names of the call that created
    it, whose key it is filed under. *)
Record consistent (names : list string → Prop) (st : Stores) : Prop := {
  consistent_not : ∀ p q, stores_not st !! p = Some q →
    ∃ bp bq, functions st !! p = Some bp ∧ functions st !! q = Some bq
             ∧ ∀ e, bq e = negb (bp e);
  consistent_all : ∀ k f, stores_all st !! k = Some f →
    ∃ l bf, names l ∧ k = key l ∧ functions st !! f = Some bf
            ∧ ∀ e, bf e = forallb (Ecs.defined e) (JS.sort l);
  consistent_any : ∀ k f, stores_any st !! k = Some f →
    ∃ l bf, names l ∧ k = key l ∧ functions st !! f = Some bf
            ∧ ∀ e, bf e = existsb (Ecs.defined e) (JS.sort l);
  consistent_none : ∀ k f, stores_none st !! k = Some f →
    ∃ l bf, names l ∧ k = key l ∧ functions st !! f = Some bf
            ∧ ∀ e, bf e = forallb (fun c => negb (Ecs.defined e c)) (JS.sort l)
}.

(** Where a function can be filed: under a predicate in [stores.not], or
    under a key in one of the three other stores. *)
Inductive Slot :=
| slot_not (predicate : Predicate)
| slot_all (k : string)
| slot_any (k : string)
| slot_none (k : string).

Definition filed (st : Stores) (s : Slot) : option Predicate :=
  match s with
  | slot_not p => stores_not st !! p
  | slot_all k => stores_all st !! k
  | slot_any k => stores_any st !! k
  | slot_none k => stores_none st !! k
  end.

(** The slot under which a constructor call files the function it returns;
    a predicate the program writes itself is filed nowhere. *)
Definition slot_of (c : Call) : option Slot :=
  match c with
  | call_define _ => None
  | call_not p => Some (slot_not p)
  | call_all l => Some (slot_all (key l))
  | call_any l => Some (slot_any (key l))
  | call_none l => Some (slot_none (key l))
  end.

(** No function is filed twice, and what is filed is a function object. *)
Definition unshared (st : Stores) : Prop :=
  (∀ s f, filed st s = Some f → (f < length (functions st))%nat)
  ∧ (∀ s1 s2 f, filed st s1 = Some f → filed st s2 = Some f → s1 = s2).

End Predicates.

(** * Properties *)

(** ** JavaScript built-ins *)

Section JSFacts.

Example sort_code_units :
  JS.sort ["velocity"; "position"; "Zeta"; "position"]
  = ["Zeta"; "position"; "position"; "velocity"].
Proof. vm_compute. reflexivity. Qed.

Example splice_at_minus_one : JS.splice [1; 2; 3]%nat (-1) 1 = [1; 2]%nat.
Proof. reflexivity. Qed.

Example splice_at_minus_one_empty : JS.splice (@nil nat) (-1) 1 = [].
Proof. reflexivity. Qed.

Example splice_in_range : JS.splice [1; 2; 3]%nat 1 1 = [1; 3]%nat.
Proof. reflexivity. Qed.

Example indexOf_absent : JS.indexOf [1; 2; 3]%nat 7%nat = -1.
Proof. reflexivity. Qed.

Example indexOf_first : JS.indexOf [4; 5; 4]%nat 4%nat = 0.
Proof. reflexivity. Qed.

Example Set_values_first_occurrence :
  JS.Set_values ["b"; "a"; "b"; "c"; "a"] = ["b"; "a"; "c"].
Proof. vm_compute. reflexivity. Qed.

Example JSON_stringify_two :
  JS.JSON_stringify ["a"; "b"]
  = String "[" (String JS.dquote (String "a" (String JS.dquote (String ","
      (String JS.dquote (String "b" (String JS.dquote "]"))))))).
Proof. reflexivity. Qed.

Example JSON_stringify_escapes :
  JS.JSON_stringify [String JS.dquote (String "010" "")]
  = String "[" (String JS.dquote (String JS.backslash (String JS.dquote
      (String JS.backslash (String "n" (String JS.dquote "]")))))).
Proof. reflexivity. Qed.

Lemma append_assoc (a b c : string) : (a +:+ b) +:+ c = a +:+ (b +:+ c).
Proof.
  induction a as [|x a IH]; [reflexivity|].
  change (String x ((a +:+ b) +:+ c) = String x (a +:+ (b +:+ c))).
  by rewrite IH.
Qed.

Lemma read_quoted_quote_char (c : ascii) (t : string) :
  JS.read_quoted (JS.quote_char c +:+ t) = JS.push_front c (JS.read_quoted t).
Proof.
  destruct c as [[] [] [] [] [] [] [] []]; reflexivity.
Qed.

Lemma read_quoted_quote_chars (s rest : string) :
  JS.read_quoted (JS.quote_chars s +:+ String JS.dquote rest) = Some (s, rest).
Proof.
  induction s as [|c s IH]; [reflexivity|].
  change (JS.quote_chars (String c s)) with (JS.quote_char c +:+ JS.quote_chars s).
  rewrite append_assoc, read_quoted_quote_char, IH. reflexivity.
Qed.

Lemma read_QuoteJSONString (s rest : string) :
  ∃ t, JS.QuoteJSONString s +:+ rest = String JS.dquote t
       ∧ JS.read_quoted t = Some (s, rest).
Proof.
  exists (JS.quote_chars s +:+ String JS.dquote rest). split.
  - unfold JS.QuoteJSONString.
    change (String JS.dquote ((JS.quote_chars s +:+ String JS.dquote "") +:+ rest)
            = String JS.dquote (JS.quote_chars s +:+ String JS.dquote rest)).
    by rewrite append_assoc.
  - apply read_quoted_quote_chars.
Qed.

Lemma QuoteJSONString_inj (s1 s2 rest1 rest2 : string) :
  JS.QuoteJSONString s1 +:+ rest1 = JS.QuoteJSONString s2 +:+ rest2 →
  s1 = s2 ∧ rest1 = rest2.
Proof.
  intros Heq.
  destruct (read_QuoteJSONString s1 rest1) as (t1 & E1 & R1).
  destruct (read_QuoteJSONString s2 rest2) as (t2 & E2 & R2).
  rewrite E1, E2 in Heq. injection Heq as ->.
  rewrite R1 in R2. by injection R2.
Qed.

Lemma stringify_items_cons (x : string) (l : list string) :
  JS.stringify_items (x :: l) +:+ "]" = JS.QuoteJSONString x +:+ JS.items_tail l.
Proof.
  destruct l as [|y l]; [reflexivity|].
  change (JS.stringify_items (x :: y :: l))
    with (JS.QuoteJSONString x +:+ "," +:+ JS.stringify_items (y :: l)).
  by rewrite !append_assoc.
Qed.

Lemma stringify_items_inj (l1 l2 : list string) :
  JS.stringify_items l1 +:+ "]" = JS.stringify_items l2 +:+ "]" → l1 = l2.
Proof.
  revert l2. induction l1 as [|x l1 IH]; intros [|y l2] Heq; [done|..].
  - rewrite stringify_items_cons in Heq. discriminate Heq.
  - rewrite stringify_items_cons in Heq. discriminate Heq.
  - rewrite !stringify_items_cons in Heq.
    apply QuoteJSONString_inj in Heq as [-> Ht]. f_equal.
    destruct l1 as [|x1 l1], l2 as [|y1 l2]; [done|discriminate Ht..|].
    apply IH. unfold JS.items_tail in Ht.
    change ("," +:+ ?s) with (String "," s) in Ht. by injection Ht.
Qed.

(** [JSON.stringify] tells any two arrays of strings apart. *)
Lemma JSON_stringify_inj (l1 l2 : list string) :
  JS.JSON_stringify l1 = JS.JSON_stringify l2 → l1 = l2.
Proof.
  unfold JS.JSON_stringify. intros Heq. apply stringify_items_inj.
  change ("[" +:+ ?s) with (String "[" s) in Heq. by injection Heq.
Qed.

(** [indexOf] and [splice] *)

Lemma indexOf_from_absent `{EqDecision A} (l : list A) (x : A) (i : Z) :
  x ∉ l → JS.indexOf_from l x i = -1.
Proof.
  revert i. induction l as [|y l IH]; intros i Hx; simpl; [done|].
  apply not_elem_of_cons in Hx as [Hne Hx].
  destruct (decide (y = x)); [congruence|]. by apply IH.
Qed.

Lemma indexOf_absent_minus_one `{EqDecision A} (l : list A) (x : A) :
  x ∉ l → JS.indexOf l x = -1.
Proof. apply indexOf_from_absent. Qed.

Lemma indexOf_from_first `{EqDecision A} (l1 l2 : list A) (x : A) (i : Z) :
  x ∉ l1 → JS.indexOf_from (l1 ++ x :: l2) x i = i + Z.of_nat (length l1).
Proof.
  revert i. induction l1 as [|y l1 IH]; intros i Hx; simpl.
  - destruct (decide (x = x)); [lia|done].
  - apply not_elem_of_cons in Hx as [Hne Hx].
    destruct (decide (y = x)); [congruence|]. rewrite IH by done. lia.
Qed.

(** Splicing one element out at the position [indexOf] found removes that
    occurrence and nothing else. *)
Lemma splice_at_indexOf `{EqDecision A} (l1 l2 : list A) (x : A) :
  x ∉ l1 →
  JS.splice (l1 ++ x :: l2) (JS.indexOf (l1 ++ x :: l2) x) 1 = l1 ++ l2.
Proof.
  intros Hx. unfold JS.indexOf. rewrite indexOf_from_first by done.
  unfold JS.splice. rewrite length_app. simpl length.
  destruct (Z.ltb_spec (0 + Z.of_nat (length l1)) 0); [lia|].
  replace (Z.to_nat (Z.min (0 + Z.of_nat (length l1))
                       (Z.of_nat (length l1 + S (length l2)))))
    with (length l1) by lia.
  rewrite take_app_length. f_equal.
  replace (length l1 + 1)%nat with (length (l1 ++ [x])) by (rewrite length_app; simpl; lia).
  rewrite (cons_middle x l1 l2), app_assoc. apply drop_app_length.
Qed.

(** Splicing one element out at -1, which is what [indexOf] answers for an
    element that is not there, removes the last element. *)
Lemma splice_at_minus_one_last {A} (l : list A) (y : A) :
  JS.splice (l ++ [y]) (-1) 1 = l.
Proof.
  unfold JS.splice. rewrite length_app. simpl.
  replace (Z.to_nat (Z.max (Z.of_nat (length l + 1) + -1) 0)) with (length l) by lia.
  rewrite take_app_length.
  replace (length l + 1)%nat with (length (l ++ [y])) by (rewrite length_app; simpl; lia).
  rewrite drop_all. apply app_nil_r.
Qed.

Lemma splice_absent_drops_last `{EqDecision A} (l : list A) (x y : A) :
  x ∉ l ++ [y] → JS.splice (l ++ [y]) (JS.indexOf (l ++ [y]) x) 1 = l.
Proof.
  intros Hx. rewrite indexOf_absent_minus_one by done. apply splice_at_minus_one_last.
Qed.

Lemma sort_Permutation (l : list string) : JS.sort l ≡ₚ l.
Proof. apply merge_sort_Permutation. Qed.

Lemma sort_Sorted (l : list string) : Sorted String.le (JS.sort l).
Proof. apply (Sorted_merge_sort String.le). Qed.

(** Sorting forgets the order the names were given in. *)
Lemma sort_order_independent (l1 l2 : list string) :
  l1 ≡ₚ l2 → JS.sort l1 = JS.sort l2.
Proof.
  intros Hp. apply (Sorted_unique String.le); [apply sort_Sorted..|].
  by rewrite !sort_Permutation.
Qed.

Lemma elem_of_sort (l : list string) (c : string) : c ∈ JS.sort l ↔ c ∈ l.
Proof. by rewrite sort_Permutation. Qed.

Lemma elem_of_Set_values_from (seen l : list string) (c : string) :
  c ∈ JS.Set_values_from seen l ↔ c ∈ l ∧ c ∉ seen.
Proof.
  revert seen. induction l as [|x l IH]; intros seen; simpl.
  - split; [by intros ?%elem_of_nil | by intros [?%elem_of_nil _]].
  - case_bool_decide as Hx.
    + rewrite IH, elem_of_cons. split; [intros [? ?]; auto|].
      intros [[->|?] ?]; [done|auto].
    + rewrite elem_of_cons, IH, !elem_of_cons.
      destruct (decide (c = x)) as [->|Hne]; [tauto|].
      split; [intros [?|[? Hn]]; [done|] | intros [[?|?] ?]; [done|]].
      * split; [auto|]. intros ?. apply Hn. auto.
      * right. split; [done|]. intros [?|?]; done.
Qed.

Lemma elem_of_Set_values (l : list string) (c : string) :
  c ∈ JS.Set_values l ↔ c ∈ l.
Proof.
  unfold JS.Set_values. rewrite elem_of_Set_values_from.
  split; [by intros [? _]|]. intros ?. split; [done|]. apply not_elem_of_nil.
Qed.

(** Filtering does not care which of the filtered-out elements have been
    seen. *)
Lemma filter_Set_values_from (p : string → bool) (l seen seen' : list string) :
  (∀ y, p y = true → (y ∈ seen ↔ y ∈ seen')) →
  List.filter p (JS.Set_values_from seen l) = List.filter p (JS.Set_values_from seen' l).
Proof.
  revert seen seen'. induction l as [|x l IH]; intros seen seen' Hs; [done|].
  assert (∀ y, p y = true → (y ∈ x :: seen ↔ y ∈ x :: seen')) as Hs'.
  { intros y Hy. rewrite !elem_of_cons, (Hs y Hy). done. }
  simpl. destruct (p x) eqn:Hp.
  - case_bool_decide as H1; case_bool_decide as H2; simpl; rewrite ?Hp.
    + by apply IH.
    + apply (Hs x Hp) in H1. done.
    + apply (Hs x Hp) in H2. done.
    + f_equal. by apply IH.
  - assert (∀ y, p y = true → (y ∈ seen ↔ y ∈ x :: seen')) as Hl.
    { intros y Hy. rewrite elem_of_cons, (Hs y Hy). split; [auto|].
      intros [->|?]; [congruence|done]. }
    assert (∀ y, p y = true → (y ∈ x :: seen ↔ y ∈ seen')) as Hr.
    { intros y Hy. rewrite elem_of_cons, (Hs y Hy). split; [|auto].
      intros [->|?]; [congruence|done]. }
    case_bool_decide as H1; case_bool_decide as H2; simpl; rewrite ?Hp; by apply IH.
Qed.

(** Deduplicating and filtering can be done in either order. *)
Lemma Set_values_from_filter (p : string → bool) (l seen : list string) :
  JS.Set_values_from seen (List.filter p l) = List.filter p (JS.Set_values_from seen l).
Proof.
  revert seen. induction l as [|x l IH]; intros seen; [done|].
  simpl. destruct (p x) eqn:Hp; simpl.
  - case_bool_decide; simpl; rewrite ?Hp; by rewrite IH.
  - case_bool_decide; simpl; rewrite ?Hp; rewrite IH; [done|].
    apply filter_Set_values_from. intros y Hy. rewrite elem_of_cons.
    split; [auto|]. intros [->|?]; [congruence|done].
Qed.

Lemma StronglySorted_sublist {A} (R : relation A) (l1 l2 : list A) :
  l1 `sublist_of` l2 → StronglySorted R l2 → StronglySorted R l1.
Proof.
  induction 1 as [|x l1 l2 Hsub IH|x l1 l2 Hsub IH]; intros Hs; [done|..].
  - apply StronglySorted_inv in Hs as [Hs Hx]. constructor; [by apply IH|].
    rewrite List.Forall_forall in *. intros y Hy%list_elem_of_In. apply Hx.
    apply list_elem_of_In. by eapply elem_of_sublist.
  - apply StronglySorted_inv in Hs as [Hs _]. by apply IH.
Qed.

Lemma Set_values_from_sublist (seen l : list string) :
  JS.Set_values_from seen l `sublist_of` l.
Proof.
  revert seen. induction l as [|x l IH]; intros seen; simpl; [constructor|].
  case_bool_decide; [by apply sublist_cons | by apply sublist_skip].
Qed.

Lemma filter_sublist {A} (p : A → bool) (l : list A) : List.filter p l `sublist_of` l.
Proof.
  induction l as [|x l IH]; simpl; [constructor|].
  destruct (p x); [by apply sublist_skip | by apply sublist_cons].
Qed.

Lemma Set_values_from_NoDup (seen l : list string) :
  NoDup (JS.Set_values_from seen l).
Proof.
  revert seen. induction l as [|x l IH]; intros seen; simpl; [apply NoDup_nil_2|].
  case_bool_decide; [apply IH|]. apply NoDup_cons. split; [|apply IH].
  rewrite elem_of_Set_values_from, elem_of_cons. intros [_ Hx]. apply Hx. by left.
Qed.

(** Lists of the same names are the same list once sorted and rid of their
    repeated names. *)
Lemma Set_values_sort_same_names (l1 l2 : list string) :
  (∀ c, c ∈ l1 ↔ c ∈ l2) →
  JS.Set_values (JS.sort l1) = JS.Set_values (JS.sort l2).
Proof.
  intros Hsame.
  assert (∀ l, StronglySorted String.le (JS.Set_values (JS.sort l))) as Hs.
  { intros l. unfold JS.Set_values.
    eapply StronglySorted_sublist; [apply Set_values_from_sublist|].
    apply Sorted_StronglySorted; [apply _|]. apply sort_Sorted. }
  apply (StronglySorted_unique String.le); [apply Hs..|].
  apply NoDup_Permutation; [apply Set_values_from_NoDup..|].
  intros c. by rewrite !elem_of_Set_values, !elem_of_sort.
Qed.

End JSFacts.

(** ** Predicate combinators *)

Section PredicatesFacts.

Import Predicates.

Lemma memoize_hit `{Countable K} (store : gmap K Predicate) (from : K) (to f : Predicate) :
  store !! from = Some f → memoize store from to = (f, store).
Proof. unfold memoize. by intros ->. Qed.

Lemma memoize_lookup `{Countable K} (store : gmap K Predicate) (from : K) (to : Predicate) :
  (memoize store from to).2 !! from = Some (memoize store from to).1.
Proof.
  unfold memoize. destruct (store !! from) eqn:E; simpl; [done|].
  apply lookup_insert_eq.
Qed.

Lemma memoize_keeps `{Countable K} (store : gmap K Predicate) (from k : K)
    (to f : Predicate) :
  store !! k = Some f → (memoize store from to).2 !! k = Some f.
Proof.
  unfold memoize. intros Hk. destruct (store !! from) eqn:E; simpl; [done|].
  rewrite lookup_insert_ne; [done|]. intros ->. congruence.
Qed.

Lemma memoize_inv `{Countable K} (store : gmap K Predicate) (from k : K)
    (to f : Predicate) :
  (memoize store from to).2 !! k = Some f →
  store !! k = Some f ∨ (k = from ∧ f = to).
Proof.
  unfold memoize. destruct (store !! from) eqn:E; simpl; [by left|].
  destruct (decide (from = k)) as [->|Hne].
  - rewrite lookup_insert_eq. intros [= ->]. by right.
  - rewrite lookup_insert_ne by done. by left.
Qed.

(** Every call creates one function object and leaves the others alone. *)
Lemma perform_functions (c : Call) (st : Stores) :
  ∃ body, functions (perform c st).2 = functions st ++ [body].
Proof.
  destruct c; simpl; unfold not, all, any, none; simpl;
    try destruct (memoize _ _ _); simpl; eauto.
Qed.

Lemma perform_keeps_function (c : Call) (st : Stores) (f : Predicate) body :
  functions st !! f = Some body → functions (perform c st).2 !! f = Some body.
Proof.
  intros Hf. destruct (perform_functions c st) as [b ->].
  by apply lookup_app_l_Some.
Qed.

Lemma perform_keeps_all (c : Call) (st : Stores) k f :
  stores_all st !! k = Some f → stores_all (perform c st).2 !! k = Some f.
Proof.
  intros Hk. destruct c; simpl; unfold not, all, any, none; simpl; try done.
  - by destruct (memoize _ _ _).
  - pose proof (memoize_keeps (stores_all st) (key components) k
                  (length (functions st)) f Hk) as Hm.
    by destruct (memoize _ _ _).
  - by destruct (memoize _ _ _).
  - by destruct (memoize _ _ _).
Qed.

Lemma perform_keeps_any (c : Call) (st : Stores) k f :
  stores_any st !! k = Some f → stores_any (perform c st).2 !! k = Some f.
Proof.
  intros Hk. destruct c; simpl; unfold not, all, any, none; simpl; try done.
  - by destruct (memoize _ _ _).
  - by destruct (memoize _ _ _).
  - pose proof (memoize_keeps (stores_any st) (key components) k
                  (length (functions st)) f Hk) as Hm.
    by destruct (memoize _ _ _).
  - by destruct (memoize _ _ _).
Qed.

Lemma perform_keeps_none (c : Call) (st : Stores) k f :
  stores_none st !! k = Some f → stores_none (perform c st).2 !! k = Some f.
Proof.
  intros Hk. destruct c; simpl; unfold not, all, any, none; simpl; try done.
  - by destruct (memoize _ _ _).
  - by destruct (memoize _ _ _).
  - by destruct (memoize _ _ _).
  - pose proof (memoize_keeps (stores_none st) (key components) k
                  (length (functions st)) f Hk) as Hm.
    by destruct (memoize _ _ _).
Qed.

Lemma perform_keeps_not (c : Call) (st : Stores) p f :
  stores_not st !! p = Some f → stores_not (perform c st).2 !! p = Some f.
Proof.
  intros Hk. destruct c; simpl; unfold not, all, any, none; simpl; try done.
  - pose proof (memoize_keeps (stores_not st) predicate p
                  (length (functions st)) f Hk) as Hm.
    by destruct (memoize _ _ _).
  - by destruct (memoize _ _ _).
  - by destruct (memoize _ _ _).
  - by destruct (memoize _ _ _).
Qed.

Lemma perform_all_snoc (cs : list Call) (c : Call) (st : Stores) :
  perform_all (cs ++ [c]) st = (perform c (perform_all cs st)).2.
Proof. unfold perform_all. by rewrite foldl_app. Qed.

Lemma perform_all_keeps (cs : list Call) (st : Stores) :
  (∀ k f, stores_all st !! k = Some f → stores_all (perform_all cs st) !! k = Some f)
  ∧ (∀ k f, stores_any st !! k = Some f → stores_any (perform_all cs st) !! k = Some f)
  ∧ (∀ k f, stores_none st !! k = Some f → stores_none (perform_all cs st) !! k = Some f)
  ∧ (∀ p f, stores_not st !! p = Some f → stores_not (perform_all cs st) !! p = Some f).
Proof.
  induction cs as [|c cs IH] using rev_ind; [done|].
  rewrite perform_all_snoc. destruct IH as (Ha & Hy & Hn & Ht).
  repeat split; intros.
  - by apply perform_keeps_all, Ha.
  - by apply perform_keeps_any, Hy.
  - by apply perform_keeps_none, Hn.
  - by apply perform_keeps_not, Ht.
Qed.

Lemma all_cached (l : list string) (st : Stores) :
  stores_all (all l st).2 !! key l = Some (all l st).1.
Proof.
  unfold all; simpl.
  pose proof (memoize_lookup (stores_all st) (key l) (length (functions st))) as Hm.
  by destruct (memoize _ _ _).
Qed.

Lemma any_cached (l : list string) (st : Stores) :
  stores_any (any l st).2 !! key l = Some (any l st).1.
Proof.
  unfold any; simpl.
  pose proof (memoize_lookup (stores_any st) (key l) (length (functions st))) as Hm.
  by destruct (memoize _ _ _).
Qed.

Lemma none_cached (l : list string) (st : Stores) :
  stores_none (none l st).2 !! key l = Some (none l st).1.
Proof.
  unfold none; simpl.
  pose proof (memoize_lookup (stores_none st) (key l) (length (functions st))) as Hm.
  by destruct (memoize _ _ _).
Qed.

Lemma not_cached (p : Predicate) (st : Stores) :
  stores_not (not p st).2 !! p = Some (not p st).1.
Proof.
  unfold not; simpl.
  pose proof (memoize_lookup (stores_not st) p (length (functions st))) as Hm.
  by destruct (memoize _ _ _).
Qed.

Lemma all_hit (l : list string) (st : Stores) f :
  stores_all st !! key l = Some f → (all l st).1 = f.
Proof. intros Hk. unfold all; simpl. by rewrite (memoize_hit _ _ _ f). Qed.

Lemma any_hit (l : list string) (st : Stores) f :
  stores_any st !! key l = Some f → (any l st).1 = f.
Proof. intros Hk. unfold any; simpl. by rewrite (memoize_hit _ _ _ f). Qed.

Lemma none_hit (l : list string) (st : Stores) f :
  stores_none st !! key l = Some f → (none l st).1 = f.
Proof. intros Hk. unfold none; simpl. by rewrite (memoize_hit _ _ _ f). Qed.

Lemma not_hit (p : Predicate) (st : Stores) f :
  stores_not st !! p = Some f → (not p st).1 = f.
Proof. intros Hk. unfold not; simpl. by rewrite (memoize_hit _ _ _ f). Qed.

(** C7.  The constructors are memoized.  Two calls of [all] whose name lists
    agree once sorted, filtered of empty names and deduplicated return the
    same function object, whatever the module is asked in between; likewise
    [any] and [none]; and two calls of [not] on the same predicate return the
    same function object. *)
Theorem constructors_memoized (l1 l2 : list string) (p : Predicate)
    (st : Stores) (cs : list Call) :
  canonical l1 = canonical l2 →
  (all l2 (perform_all cs (all l1 st).2)).1 = (all l1 st).1
  ∧ (any l2 (perform_all cs (any l1 st).2)).1 = (any l1 st).1
  ∧ (none l2 (perform_all cs (none l1 st).2)).1 = (none l1 st).1
  ∧ (not p (perform_all cs (not p st).2)).1 = (not p st).1.
Proof.
  intros Hcanon.
  assert (key l2 = key l1) as Hkey by (unfold key; by rewrite Hcanon).
  repeat split.
  - apply all_hit. rewrite Hkey.
    apply (perform_all_keeps cs), all_cached.
  - apply any_hit. rewrite Hkey.
    apply (perform_all_keeps cs), any_cached.
  - apply none_hit. rewrite Hkey.
    apply (perform_all_keeps cs), none_cached.
  - apply not_hit. apply (perform_all_keeps cs), not_cached.
Qed.

Lemma constructors_memoized_witness :
  let l1 := ["velocity"; "position"; ""; "velocity"] in
  let l2 := ["position"; "velocity"] in
  let cs := [call_all ["health"]; call_not 0%nat; call_any l1] in
  canonical l1 = canonical l2
  ∧ (all l2 (perform_all cs (all l1 initial).2)).1 = (all l1 initial).1
  ∧ (not 0%nat (perform_all cs (not 0%nat (all l1 initial).2).2)).1
    = (not 0%nat (all l1 initial).2).1.
Proof.
  intros l1 l2 cs.
  assert (canonical l1 = canonical l2) as Hc by (vm_compute; reflexivity).
  split; [exact Hc|]. split.
  - exact (proj1 (constructors_memoized l1 l2 0%nat initial cs Hc)).
  - exact (proj2 (proj2 (proj2
      (constructors_memoized l1 l2 0%nat (all l1 initial).2 cs Hc)))).
Defined.

(** The canonical list is the name list sorted, deduplicated and filtered of
    empty names, in whichever order the last two are done. *)
Lemma canonical_dedup_then_filter (l : list string) :
  canonical l
  = List.filter (fun p => negb (String.eqb p "")) (JS.Set_values (JS.sort l)).
Proof.
  unfold canonical, JS.Set_values. rewrite Set_values_from_filter.
  apply filter_ext. intros p. unfold truthy. by destruct (String.eqb p "").
Qed.

Lemma elem_of_canonical (l : list string) (c : string) :
  c ∈ canonical l ↔ c ∈ l ∧ c ≠ "".
Proof.
  unfold canonical. rewrite elem_of_Set_values, list_elem_of_In, filter_In.
  rewrite <- list_elem_of_In, elem_of_sort. unfold truthy.
  destruct (String.eqb_spec c "") as [->|Hne]; simpl.
  - split; [intros [_ ?]; done | intros [_ ?]; done].
  - split; [intros [? _]; done | intros [? _]; done].
Qed.

(** Name lists without empty names that share a key list the same names. *)
Lemma key_same_names (l1 l2 : list string) (c : string) :
  no_empty_name l1 → no_empty_name l2 → key l1 = key l2 →
  c ∈ JS.sort l1 ↔ c ∈ l2.
Proof.
  intros H1 H2 Hkey. apply JSON_stringify_inj in Hkey.
  rewrite elem_of_sort.
  assert (∀ l, no_empty_name l → c ∈ l ↔ c ∈ canonical l) as Hc.
  { intros l Hl. rewrite elem_of_canonical. split; [|by intros [? _]].
    intros Hin. split; [done|]. intros ->. by apply Hl. }
  by rewrite (Hc l1 H1), (Hc l2 H2), Hkey.
Qed.

Lemma consistent_initial (names : list string → Prop) : consistent names initial.
Proof. split; simpl; intros ??; by rewrite lookup_empty. Qed.

Lemma consistent_mono (names names' : list string → Prop) (st : Stores) :
  (∀ l, names l → names' l) → consistent names st → consistent names' st.
Proof.
  intros Hsub [Hn Ha Hy Ho]. split; [done|..]; intros k f Hk.
  - destruct (Ha k f Hk) as (l & bf & ? & ?). exists l, bf. split; [auto|done].
  - destruct (Hy k f Hk) as (l & bf & ? & ?). exists l, bf. split; [auto|done].
  - destruct (Ho k f Hk) as (l & bf & ? & ?). exists l, bf. split; [auto|done].
Qed.

(** One more function object, and store entries that are either old or
    filed for the new function: the stores stay consistent. *)
Lemma consistent_extend (names : list string → Prop) (st st' : Stores) body :
  consistent names st →
  functions st' = functions st ++ [body] →
  (∀ p q, stores_not st' !! p = Some q →
     stores_not st !! p = Some q
     ∨ (q = length (functions st)
        ∧ ∃ bp, functions st !! p = Some bp ∧ ∀ e, body e = negb (bp e))) →
  (∀ k f, stores_all st' !! k = Some f →
     stores_all st !! k = Some f
     ∨ (f = length (functions st)
        ∧ ∃ l, names l ∧ k = key l
               ∧ ∀ e, body e = forallb (Ecs.defined e) (JS.sort l))) →
  (∀ k f, stores_any st' !! k = Some f →
     stores_any st !! k = Some f
     ∨ (f = length (functions st)
        ∧ ∃ l, names l ∧ k = key l
               ∧ ∀ e, body e = existsb (Ecs.defined e) (JS.sort l))) →
  (∀ k f, stores_none st' !! k = Some f →
     stores_none st !! k = Some f
     ∨ (f = length (functions st)
        ∧ ∃ l, names l ∧ k = key l
               ∧ ∀ e, body e = forallb (fun c => negb (Ecs.defined e c)) (JS.sort l))) →
  consistent names st'.
Proof.
  intros [Hn Ha Hy Ho] Hf Hn' Ha' Hy' Ho'.
  assert (∀ f b, functions st !! f = Some b → functions st' !! f = Some b) as Hold.
  { intros f b Hb. rewrite Hf. by apply lookup_app_l_Some. }
  assert (functions st' !! length (functions st) = Some body) as Hnew.
  { rewrite Hf. apply list_lookup_middle. done. }
  split.
  - intros p q Hq. destruct (Hn' p q Hq) as [Hq0|(-> & bp & Hbp & Hb)].
    + destruct (Hn p q Hq0) as (bp & bq & ? & ? & ?). exists bp, bq. auto.
    + exists bp, body. auto.
  - intros k f Hk. destruct (Ha' k f Hk) as [Hk0|(-> & l & ? & ? & ?)].
    + destruct (Ha k f Hk0) as (l & bf & ? & ? & ? & ?). exists l, bf. auto.
    + exists l, body. auto.
  - intros k f Hk. destruct (Hy' k f Hk) as [Hk0|(-> & l & ? & ? & ?)].
    + destruct (Hy k f Hk0) as (l & bf & ? & ? & ? & ?). exists l, bf. auto.
    + exists l, body. auto.
  - intros k f Hk. destruct (Ho' k f Hk) as [Hk0|(-> & l & ? & ? & ?)].
    + destruct (Ho k f Hk0) as (l & bf & ? & ? & ? & ?). exists l, bf. auto.
    + exists l, body. auto.
Qed.

Lemma consistent_perform (names : list string → Prop) (st : Stores) (c : Call) :
  consistent names st → possible names st c → consistent names (perform c st).2.
Proof.
  intros Hc Hp. destruct c as [body|p|l|l|l]; simpl in *.
  - eapply (consistent_extend names st _ body Hc); simpl; eauto.
  - apply lookup_lt_is_Some_2 in Hp as [bp Hbp].
    unfold not. rewrite Hbp. simpl.
    pose proof (memoize_inv (stores_not st) p) as Hm.
    destruct (memoize (stores_not st) p (length (functions st))) as [f store] eqn:E.
    eapply (consistent_extend names st _ (fun e => negb (bp e)) Hc); simpl; eauto.
    intros p' q Hq. specialize (Hm p' (length (functions st)) q).
    rewrite E in Hm. destruct (Hm Hq) as [?|[-> ->]]; [by left|right].
    split; [done|]. by exists bp.
  - unfold all; simpl.
    pose proof (memoize_inv (stores_all st) (key l)) as Hm.
    destruct (memoize (stores_all st) (key l) (length (functions st))) as [f store] eqn:E.
    eapply (consistent_extend names st _ _ Hc); simpl; eauto.
    intros k f' Hk. specialize (Hm k (length (functions st)) f').
    rewrite E in Hm. destruct (Hm Hk) as [?|[-> ->]]; [by left|right].
    split; [done|]. by exists l.
  - unfold any; simpl.
    pose proof (memoize_inv (stores_any st) (key l)) as Hm.
    destruct (memoize (stores_any st) (key l) (length (functions st))) as [f store] eqn:E.
    eapply (consistent_extend names st _ _ Hc); simpl; eauto.
    intros k f' Hk. specialize (Hm k (length (functions st)) f').
    rewrite E in Hm. destruct (Hm Hk) as [?|[-> ->]]; [by left|right].
    split; [done|]. by exists l.
  - unfold none; simpl.
    pose proof (memoize_inv (stores_none st) (key l)) as Hm.
    destruct (memoize (stores_none st) (key l) (length (functions st))) as [f store] eqn:E.
    eapply (consistent_extend names st _ _ Hc); simpl; eauto.
    intros k f' Hk. specialize (Hm k (length (functions st)) f').
    rewrite E in Hm. destruct (Hm Hk) as [?|[-> ->]]; [by left|right].
    split; [done|]. by exists l.
Qed.

Lemma reachable_consistent (names : list string → Prop) (st : Stores) :
  reachable names st → consistent names st.
Proof.
  induction 1 as [|st c _ IH Hp]; [apply consistent_initial|].
  by apply consistent_perform.
Qed.

(** C8, as amended.  In any state the module can reach, the freshly loaded
    module included, [not(p)] returns a predicate that negates the function
    [p].  When no call so far has listed an empty name and [names] lists
    none, the predicate [all(...names)] returns holds of an entity iff every
    listed component is defined on it, the one [any(...names)] returns iff at
    least one is, and the one [none(...names)] returns iff none is. *)
Theorem predicates_test_presence (ok : list string → Prop) (st : Stores)
    (names : list string) (e : Entity) :
  reachable ok st →
  (∀ p, (p < length (functions st))%nat →
     ∃ b, apply st p e = Some b
          ∧ apply (not p st).2 (not p st).1 e = Some (negb b))
  ∧ ((∀ l, ok l → no_empty_name l) → no_empty_name names →
     (∃ b, apply (all names st).2 (all names st).1 e = Some b
           ∧ (b = true ↔ ∀ c, c ∈ names → Ecs.defined e c = true))
     ∧ (∃ b, apply (any names st).2 (any names st).1 e = Some b
             ∧ (b = true ↔ ∃ c, c ∈ names ∧ Ecs.defined e c = true))
     ∧ (∃ b, apply (none names st).2 (none names st).1 e = Some b
             ∧ (b = true ↔ ∀ c, c ∈ names → Ecs.defined e c = false))).
Proof.
  intros Hreach. apply reachable_consistent in Hreach as Hc. split.
  - intros p Hp.
    pose proof (consistent_perform ok st (call_not p) Hc Hp) as Hc'.
    destruct (consistent_not _ _ Hc' p _ (not_cached p st))
      as (bp & bq & Hbp & Hbq & Hneg).
    apply lookup_lt_is_Some_2 in Hp as [bp0 Hbp0].
    pose proof (perform_keeps_function (call_not p) st p bp0 Hbp0) as Hbp1.
    rewrite Hbp in Hbp1. injection Hbp1 as ->.
    change (perform (call_not p) st) with (not p st) in Hbq.
    exists (bp0 e). unfold apply. rewrite Hbp0, Hbq. simpl. by rewrite Hneg.
  - intros Hok Hnames.
    pose proof (consistent_mono ok no_empty_name st Hok Hc) as Hc0.
    repeat split.
    + pose proof (consistent_perform _ st (call_all names) Hc0 Hnames) as Hc'.
      destruct (consistent_all _ _ Hc' _ _ (all_cached names st))
        as (l & bf & Hl & Hkey & Hbf & Hsem).
      change (perform (call_all names) st) with (all names st) in Hbf.
      exists (bf e). unfold apply. rewrite Hbf. split; [done|].
      rewrite Hsem, forallb_forall.
      split; intros H c Hin; apply H.
      * apply list_elem_of_In. by apply (key_same_names l names c Hl Hnames).
      * apply list_elem_of_In in Hin. by apply (key_same_names l names c Hl Hnames).
    + pose proof (consistent_perform _ st (call_any names) Hc0 Hnames) as Hc'.
      destruct (consistent_any _ _ Hc' _ _ (any_cached names st))
        as (l & bf & Hl & Hkey & Hbf & Hsem).
      change (perform (call_any names) st) with (any names st) in Hbf.
      exists (bf e). unfold apply. rewrite Hbf. split; [done|].
      rewrite Hsem, existsb_exists.
      split; intros (c & Hin & Hd); exists c; (split; [|done]).
      * apply list_elem_of_In in Hin. by apply (key_same_names l names c Hl Hnames).
      * apply list_elem_of_In. by apply (key_same_names l names c Hl Hnames).
    + pose proof (consistent_perform _ st (call_none names) Hc0 Hnames) as Hc'.
      destruct (consistent_none _ _ Hc' _ _ (none_cached names st))
        as (l & bf & Hl & Hkey & Hbf & Hsem).
      change (perform (call_none names) st) with (none names st) in Hbf.
      exists (bf e). unfold apply. rewrite Hbf. split; [done|].
      rewrite Hsem, forallb_forall.
      split; intros H c Hin.
      * apply negb_true_iff, H, list_elem_of_In.
        by apply (key_same_names l names c Hl Hnames).
      * apply negb_true_iff, H. apply list_elem_of_In in Hin.
        by apply (key_same_names l names c Hl Hnames).
Qed.

Lemma predicates_test_presence_witness :
  let names := ["velocity"; "position"] in
  let e : Entity := {[ "position" := Ecs.Data 7 ]} in
  let st := (perform (call_all ["position"]) initial).2 in
  ((∃ b, apply (all names initial).2 (all names initial).1 e = Some b
         ∧ (b = true ↔ ∀ c, c ∈ names → Ecs.defined e c = true))
   ∧ (∃ b, apply (any names initial).2 (any names initial).1 e = Some b
           ∧ (b = true ↔ ∃ c, c ∈ names ∧ Ecs.defined e c = true))
   ∧ (∃ b, apply (none names initial).2 (none names initial).1 e = Some b
           ∧ (b = true ↔ ∀ c, c ∈ names → Ecs.defined e c = false)))
  ∧ reachable no_empty_name st
  ∧ (0 < length (functions st))%nat
  ∧ (∃ b, apply st 0%nat e = Some b
          ∧ apply (not 0%nat st).2 (not 0%nat st).1 e = Some (negb b)).
Proof.
  intros names e st.
  assert (no_empty_name ["position"]) as H1.
  { unfold no_empty_name. rewrite !elem_of_cons, elem_of_nil.
    intros [?|[]]; discriminate. }
  assert (no_empty_name names) as H2.
  { unfold no_empty_name, names. rewrite !elem_of_cons, elem_of_nil.
    intros [?|[?|[]]]; discriminate. }
  assert (reachable no_empty_name st) as Hr.
  { apply (reachable_call no_empty_name initial (call_all ["position"]));
      [apply reachable_initial | exact H1]. }
  assert (0 < length (functions st))%nat as Hp by (vm_compute; lia).
  split.
  - exact (proj2 (predicates_test_presence no_empty_name initial names e
                    (reachable_initial no_empty_name)) (fun l H => H) H2).
  - split; [exact Hr|]. split; [exact Hp|].
    exact (proj1 (predicates_test_presence no_empty_name st names e Hr) 0%nat Hp).
Defined.

(** C8 as the specification words it fails when empty names are listed:
    [all("a")] is cached under the key of [["a"]], which is also the key of
    [["a", ""]], so the later [all("a", "")] returns the predicate that only
    tests "a". *)
Lemma all_forgets_empty_name :
  let st := (all ["a"] initial).2 in
  let names := ["a"; ""] in
  let e : Entity := {[ "a" := Ecs.Data 1 ]} in
  reachable (fun _ => True) st
  ∧ ¬ (apply (all names st).2 (all names st).1 e = Some true
       ↔ ∀ c, c ∈ names → Ecs.defined e c = true).
Proof.
  intros st names e. split.
  - apply (reachable_call _ initial (call_all ["a"])); [apply reachable_initial | done].
  - intros [H _].
    assert (apply (all names st).2 (all names st).1 e = Some true) as Ht
      by (vm_compute; reflexivity).
    specialize (H Ht "").
    assert ("" ∈ names) as Hin by (unfold names; rewrite !elem_of_cons; auto).
    specialize (H Hin). vm_compute in H. discriminate H.
Qed.

End PredicatesFacts.

(** ** The entity store *)

Section EcsFacts.

Import Ecs.

(** The end-to-end scenario of the specification, on the immediate API. *)
Example position_velocity_scenario :
  let e1 := 1%nat in
  let w0 := with_heap {[ e1 := {[ "position" := Data 0 ]} ]} createWorld in
  let w1 := after (call_immediately (AddEntity e1)) w0 in
  let w2 := after (call_immediately (AddComponent e1 "velocity" (Data 1)))
              (after (call_getWith ["position"; "velocity"]) w1) in
  let w3 := after (call_immediately (RemoveComponent e1 ["position"])) w2 in
  (∃ w, getWith ["position"; "velocity"] w1 = Return (Some []) w)
  ∧ (∃ w, getWith ["position"; "velocity"] w2 = Return (Some [e1]) w)
  ∧ (∃ w, getWith ["position"; "velocity"] w3 = Return (Some []) w)
  ∧ (∃ w, getWith ["velocity"] w3 = Return (Some [e1]) w).
Proof.
  intros e1 w0 w1 w2 w3.
  repeat split; eexists; vm_compute; reflexivity.
Qed.

(** *** Maps keyed by identity *)

Lemma same_spec (a b : Archetype) : same a b = true ↔ identity a = identity b.
Proof. unfold same. apply Nat.eqb_eq. Qed.

Lemma keys_cons {V} (k : Archetype) (v : V) (m : Map V) :
  keys ((k, v) :: m) = identity k :: keys m.
Proof. reflexivity. Qed.

Lemma Map_get_None {V} (m : Map V) (k : Archetype) :
  Map_get m k = None ↔ identity k ∉ keys m.
Proof.
  induction m as [|[k0 v0] m IH]; cbn [Map_get].
  - split; [intros _; apply not_elem_of_nil | done].
  - rewrite keys_cons, not_elem_of_cons.
    unfold same. destruct (Nat.eqb_spec (identity k0) (identity k)) as [E|E].
    + split; [done|]. intros [? _]. congruence.
    + rewrite IH. split; [|tauto]. intros ?. split; [congruence|done].
Qed.

Lemma Map_get_is_Some {V} (m : Map V) (k : Archetype) :
  is_Some (Map_get m k) ↔ identity k ∈ keys m.
Proof.
  rewrite <- not_eq_None_Some, Map_get_None.
  split; [apply dec_stable | tauto].
Qed.

Lemma Map_has_true {V} (m : Map V) (k : Archetype) :
  Map_has m k = true ↔ identity k ∈ keys m.
Proof.
  rewrite <- Map_get_is_Some. unfold Map_has.
  destruct (Map_get m k); split; try done; try (intros [? ?]; done); eauto.
Qed.

Lemma Map_has_false {V} (m : Map V) (k : Archetype) :
  Map_has m k = false ↔ identity k ∉ keys m.
Proof.
  rewrite <- Map_get_None. unfold Map_has. by destruct (Map_get m k).
Qed.

Lemma Map_get_set {V} (m : Map V) (k k' : Archetype) (v : V) :
  Map_get (Map_set m k v) k' = if same k k' then Some v else Map_get m k'.
Proof.
  induction m as [|[k0 v0] m IH]; simpl; [done|].
  unfold same in *.
  destruct (Nat.eqb_spec (identity k0) (identity k)) as [E|E]; simpl; unfold same.
  - rewrite E. by destruct (Nat.eqb_spec (identity k) (identity k')).
  - rewrite IH.
    destruct (Nat.eqb_spec (identity k0) (identity k')),
             (Nat.eqb_spec (identity k) (identity k')); congruence.
Qed.

Lemma keys_Map_set {V} (m : Map V) (k : Archetype) (v : V) :
  keys (Map_set m k v) = if Map_has m k then keys m else keys m ++ [identity k].
Proof.
  unfold Map_has. induction m as [|[k0 v0] m IH]; cbn [Map_get Map_set]; [done|].
  destruct (same k0 k); [done|].
  rewrite !keys_cons, IH. by destruct (Map_get m k).
Qed.

Lemma keys_Map_set_present {V} (m : Map V) (k : Archetype) (v : V) :
  identity k ∈ keys m → keys (Map_set m k v) = keys m.
Proof. intros Hk. rewrite keys_Map_set. by apply Map_has_true in Hk as ->. Qed.

(** *** The loops over the archetype indices *)

Lemma invoke_listeners_keys (ls ls' : Map ListenerRegistry) (a : Archetype) :
  invoke_listeners ls a = Some ls' → keys ls' = keys ls.
Proof.
  unfold invoke_listeners. destruct (Map_get ls a) eqn:E; [|done].
  intros [= <-]. apply keys_Map_set_present, Map_get_is_Some. by rewrite E.
Qed.

Lemma invoke_listeners_present (ls : Map ListenerRegistry) (a : Archetype) :
  identity a ∈ keys ls → is_Some (invoke_listeners ls a).
Proof.
  intros [r Hr]%Map_get_is_Some. unfold invoke_listeners. rewrite Hr. eauto.
Qed.

Lemma invoke_listeners_count (ls ls' : Map ListenerRegistry) (a a' : Archetype) :
  invoke_listeners ls a = Some ls' →
  invocations_of ls' a' =
    if same a a' then S (invocations_of ls a') else invocations_of ls a'.
Proof.
  unfold invoke_listeners, invocations_of.
  destruct (Map_get ls a) as [r|] eqn:E; [|done]. intros [= <-].
  rewrite Map_get_set. destruct (same a a') eqn:Es; [|done].
  assert (Map_get ls a' = Some r) as ->; [|done].
  apply same_spec in Es. clear -E Es.
  induction ls as [|[k0 v0] ls IH]; simpl in *; [done|].
  unfold same in *. rewrite <- Es. destruct (identity k0 =? identity a)%nat; auto.
Qed.

Lemma for_entries_keys body (entries : Map (list EntityRef)) (ls : Map ListenerRegistry) :
  keys (for_entries body entries ls).1.1 = keys entries
  ∧ keys (for_entries body entries ls).1.2 = keys ls.
Proof.
  revert ls. induction entries as [|[a index] rest IH]; intros ls; simpl; [done|].
  destruct (body a index) as [index'|].
  - destruct (invoke_listeners ls a) as [ls1|] eqn:Ei; simpl; [|done].
    specialize (IH ls1). destruct (for_entries body rest ls1) as [[rest' ls'] err].
    simpl in *. destruct IH as [-> ->].
    split; [done|]. by eapply invoke_listeners_keys.
  - specialize (IH ls). destruct (for_entries body rest ls) as [[rest' ls'] err].
    simpl in *. destruct IH as [-> ->]. done.
Qed.

Lemma for_entries_no_error body (entries : Map (list EntityRef))
    (ls : Map ListenerRegistry) :
  (∀ k, k ∈ keys entries → k ∈ keys ls) →
  (for_entries body entries ls).2 = None.
Proof.
  revert ls. induction entries as [|[a index] rest IH]; intros ls Hls;
    cbn [for_entries]; [done|].
  assert (∀ k, k ∈ keys rest → k ∈ keys ls) as Hrest.
  { intros k Hk. apply Hls. rewrite keys_cons, elem_of_cons. by right. }
  destruct (body a index) as [index'|].
  - destruct (invoke_listeners_present ls a) as [ls1 Hls1].
    { apply Hls. rewrite keys_cons, elem_of_cons. by left. }
    rewrite Hls1. specialize (IH ls1).
    destruct (for_entries body rest ls1) as [[rest' ls'] err]. simpl in *.
    apply IH. intros k Hk. rewrite (invoke_listeners_keys _ _ _ Hls1). auto.
  - specialize (IH ls Hrest).
    by destruct (for_entries body rest ls) as [[rest' ls'] err].
Qed.

(** A loop leaves alone the listeners of the archetypes it does not visit. *)
Lemma for_entries_other body (entries : Map (list EntityRef))
    (ls : Map ListenerRegistry) (a : Archetype) :
  identity a ∉ keys entries →
  invocations_of (for_entries body entries ls).1.2 a = invocations_of ls a.
Proof.
  revert ls. induction entries as [|[k index] rest IH]; intros ls Hk;
    cbn [for_entries]; [done|].
  rewrite keys_cons, not_elem_of_cons in Hk.
  destruct Hk as [Hne Hk].
  destruct (body k index) as [index'|].
  - destruct (invoke_listeners ls k) as [ls1|] eqn:Ei; simpl; [|done].
    specialize (IH ls1 Hk). destruct (for_entries body rest ls1) as [[rest' ls'] err].
    simpl in *. rewrite IH, (invoke_listeners_count _ _ _ a Ei).
    destruct (same k a) eqn:Es; [|done]. apply same_spec in Es. congruence.
  - specialize (IH ls Hk). by destruct (for_entries body rest ls) as [[rest' ls'] err].
Qed.

(** In a loop that ran to its end, an index that was rewritten had its
    listeners invoked exactly once. *)
Lemma for_entries_changed body (entries : Map (list EntityRef))
    (ls : Map ListenerRegistry) (a : Archetype) :
  NoDup (keys entries) →
  (for_entries body entries ls).2 = None →
  Map_get (for_entries body entries ls).1.1 a ≠ Map_get entries a →
  invocations_of (for_entries body entries ls).1.2 a = S (invocations_of ls a).
Proof.
  revert ls. induction entries as [|[k index] rest IH]; intros ls Hnd;
    cbn [for_entries]; [done|].
  rewrite keys_cons, NoDup_cons in Hnd.
  destruct Hnd as [Hk Hnd].
  destruct (body k index) as [index'|].
  - destruct (invoke_listeners ls k) as [ls1|] eqn:Ei; simpl; [|done].
    pose proof (for_entries_other body rest ls1 a) as Hother.
    specialize (IH ls1 Hnd). destruct (for_entries body rest ls1) as [[rest' ls'] err].
    simpl in *. intros Herr. rewrite (invoke_listeners_count _ _ _ a Ei) in *.
    destruct (same k a) eqn:Es.
    + intros _. apply Hother. apply same_spec in Es. by rewrite <- Es.
    + intros Hch. by rewrite IH.
  - specialize (IH ls Hnd). destruct (for_entries body rest ls) as [[rest' ls'] err].
    simpl in *. intros Herr. destruct (same k a); [done|]. auto.
Qed.

(** *** Calls on the world *)

Ltac run :=
  unfold mbind, mret, M_bind, M_ret, bind, ret, gets, modify, throw in *;
  cbn beta iota in *.

Lemma for_archetypes_entries_world body (w : World) :
  world_of (for_archetypes_entries body w) =
  with_archetypeChanged (for_entries body (archetypes w) (archetypeChanged w)).1.2
    (with_archetypes (for_entries body (archetypes w) (archetypeChanged w)).1.1 w).
Proof.
  unfold for_archetypes_entries.
  destruct (for_entries body (archetypes w) (archetypeChanged w)) as [[entries ls] err].
  by destruct err.
Qed.

Lemma for_archetypes_entries_returns body (w : World) :
  (∀ k, k ∈ keys (archetypes w) → k ∈ keys (archetypeChanged w)) →
  for_archetypes_entries body w =
  Return tt (world_of (for_archetypes_entries body w)).
Proof.
  intros Hls. pose proof (for_entries_no_error body _ _ Hls) as Herr.
  unfold for_archetypes_entries in *.
  destruct (for_entries body (archetypes w) (archetypeChanged w)) as [[entries ls] err].
  simpl in Herr. by rewrite Herr.
Qed.

Lemma well_formed_same_maps (w w' : World) :
  archetypes w' = archetypes w → archetypeChanged w' = archetypeChanged w →
  well_formed w → well_formed w'.
Proof. unfold well_formed. by intros -> ->. Qed.

Lemma well_formed_createWorld (h : gmap EntityRef Entity) :
  well_formed (with_heap h createWorld).
Proof.
  split; simpl; [apply NoDup_nil_2|]. by intros k ?%elem_of_nil.
Qed.

Lemma createArchetype_returns (l : list ComponentName) (w : World) :
  createArchetype l w = Return (createArchetype_result l w) (world_of (createArchetype l w)).
Proof.
  unfold createArchetype_result, createArchetype, rest_array, memoizedArchetypes_fetch. run.
  destruct (memoizedArchetypes _ !! _); simpl; by destruct (Map_has _ _).
Qed.

Lemma well_formed_register (a : Archetype) (index : list EntityRef) (w w' : World) :
  well_formed w → Map_has (archetypes w) a = false →
  archetypes w' = Map_set (archetypes w) a index →
  archetypeChanged w' = Map_set (archetypeChanged w) a new_ListenerRegistry →
  well_formed w'.
Proof.
  intros [Hnd Hls] Eh Ha Hl. pose proof Eh as Eh'. apply Map_has_false in Eh'.
  unfold well_formed. rewrite Ha, Hl. split.
  - rewrite keys_Map_set, Eh.
    apply NoDup_app. split; [done|]. split; [|apply NoDup_singleton].
    intros x Hx ->%list_elem_of_singleton. done.
  - intros k. rewrite !keys_Map_set, Eh.
    rewrite elem_of_app, list_elem_of_singleton.
    destruct (Map_has (archetypeChanged w) a) eqn:El.
    + apply Map_has_true in El. intros [?| ->]; auto.
    + rewrite elem_of_app, list_elem_of_singleton. intros [?|?]; auto.
Qed.

Lemma well_formed_createArchetype (l : list ComponentName) (w : World) :
  well_formed w → well_formed (world_of (createArchetype l w)).
Proof.
  intros Hwf.
  unfold createArchetype, rest_array, memoizedArchetypes_fetch. run. simpl.
  destruct (memoizedArchetypes w !! _) as [cached|] eqn:Em; simpl.
  - destruct (Map_has (archetypes w) cached) eqn:Eh; simpl.
    + by apply (well_formed_same_maps w).
    + by eapply (well_formed_register _ _ w).
  - destruct (Map_has (archetypes w) _) eqn:Eh; simpl.
    + by apply (well_formed_same_maps w).
    + by eapply (well_formed_register _ _ w).
Qed.

Ltac unfold_calls :=
  unfold call, defer, immediately_addEntity, immediately_removeEntity,
    immediately_addComponent, immediately_removeComponent,
    indexEntityWithNewComponents, indexEntityWithRemovedComponents,
    removeEntityFromAllIndices, addEntity, removeEntity, addComponent,
    removeComponent, queue_add, nextId_call, for_archetypes_entries in *;
  run; simpl in *.

(** What a queued command does to the indices and the listeners: nothing if
    it throws DuplicateIdentifier, and otherwise one pass of one of the three
    loops; it returns iff the loop ran to its end. *)
Lemma call_maps (c : Command) (w : World) :
  call c w = Throw DuplicateIdentifier w
  ∨ ∃ body,
      archetypes (world_of (call c w))
        = (for_entries body (archetypes w) (archetypeChanged w)).1.1
      ∧ archetypeChanged (world_of (call c w))
        = (for_entries body (archetypes w) (archetypeChanged w)).1.2
      ∧ ((for_entries body (archetypes w) (archetypeChanged w)).2 = None
         ↔ ∃ w', call c w = Return tt w').
Proof.
  destruct c as [e|e|e n d|e ns]; unfold_calls.
  - destruct (has_property (object w e) "id"); [by left|right]. simpl.
    match goal with |- context [for_entries ?b _ _] => exists b end.
    destruct (for_entries _ _ _) as [[entries ls] [err|]]; simpl;
      (split; [done|]); (split; [done|]); split; try done; eauto.
    by intros [? ?].
  - right.
    match goal with |- context [for_entries ?b _ _] => exists b end.
    destruct (for_entries _ _ _) as [[entries ls] [err|]]; simpl;
      (split; [done|]); (split; [done|]); split; try done; eauto.
    by intros [? ?].
  - right.
    match goal with |- context [for_entries ?b _ _] => exists b end.
    destruct (for_entries _ _ _) as [[entries ls] [err|]]; simpl;
      (split; [done|]); (split; [done|]); split; try done; eauto.
    by intros [? ?].
  - right.
    match goal with |- context [for_entries ?b _ _] => exists b end.
    destruct (for_entries _ _ _) as [[entries ls] [err|]]; simpl;
      (split; [done|]); (split; [done|]); split; try done; eauto.
    by intros [? ?].
Qed.

(** A queued command leaves the queue, the memoization cache and the
    archetype arrays alone. *)
Lemma call_frame (c : Command) (w : World) :
  queue (world_of (call c w)) = queue w
  ∧ memoizedArchetypes (world_of (call c w)) = memoizedArchetypes w
  ∧ allocated (world_of (call c w)) = allocated w.
Proof.
  destruct c as [e|e|e n d|e ns]; unfold_calls;
    try destruct (has_property (object w e) "id"); simpl; try done;
    destruct (for_entries _ _ _) as [[entries ls] [err|]]; done.
Qed.

Lemma well_formed_call (c : Command) (w : World) :
  well_formed w → well_formed (world_of (call c w)).
Proof.
  intros Hwf. destruct (call_maps c w) as [->|(body & Ha & Hl & _)]; [done|].
  destruct Hwf as [Hnd Hls].
  destruct (for_entries_keys body (archetypes w) (archetypeChanged w)) as [Ha' Hl'].
  unfold well_formed. by rewrite Ha, Hl, Ha', Hl'.
Qed.

(** On a well-formed world a queued command either throws
    DuplicateIdentifier, changing nothing, or returns. *)
Lemma call_returns (c : Command) (w : World) :
  well_formed w →
  call c w = Throw DuplicateIdentifier w ∨ ∃ w', call c w = Return tt w'.
Proof.
  intros [_ Hls]. destruct (call_maps c w) as [->|(body & _ & _ & Hr)]; [by left|].
  right. apply Hr. by apply for_entries_no_error.
Qed.

Lemma call_each_cons (c : Command) (cs : list Command) (w : World) :
  call_each (c :: cs) w =
  match call c w with
  | Return _ w' => call_each cs w'
  | Throw e w' => Throw e w'
  end.
Proof. reflexivity. Qed.

Lemma well_formed_call_each (cs : list Command) (w : World) :
  well_formed w → well_formed (world_of (call_each cs w)).
Proof.
  revert w. induction cs as [|c cs IH]; intros w Hwf; [done|].
  rewrite call_each_cons. pose proof (well_formed_call c w Hwf) as Hc.
  destruct (call c w); [by apply IH | done].
Qed.

Lemma call_each_frame (cs : list Command) (w : World) :
  queue (world_of (call_each cs w)) = queue w
  ∧ memoizedArchetypes (world_of (call_each cs w)) = memoizedArchetypes w
  ∧ allocated (world_of (call_each cs w)) = allocated w.
Proof.
  revert w. induction cs as [|c cs IH]; intros w; [done|].
  rewrite call_each_cons. pose proof (call_frame c w) as (Hq & Hm & Ha).
  destruct (call c w) as [[] w'|e w']; simpl in *; [|done].
  destruct (IH w') as (-> & -> & ->). done.
Qed.

Lemma flush_eq (w : World) :
  flush w =
  match call_each (queue w) w with
  | Return _ w' => Return tt (with_queue [] w')
  | Throw e w' => Throw e w'
  end.
Proof. unfold flush, queue_flush. run. by destruct (call_each (queue w) w). Qed.

Lemma defer_eq (c : Command) (w : World) :
  defer c w = Return tt (with_queue (queue w ++ [c]) w).
Proof. by destruct c. Qed.

Lemma clear_eq (w : World) :
  clear w =
  Return tt (with_queue [] (with_archetypeChanged [] (with_archetypes []
               (with_entities [] w)))).
Proof. reflexivity. Qed.

Lemma well_formed_after (c : Call) (w : World) :
  well_formed w → well_formed (after c w).
Proof.
  intros Hwf. unfold after. destruct c as [l|a|a|l|c|c| |]; simpl.
  - pose proof (well_formed_createArchetype l w Hwf) as H.
    run. by destruct (createArchetype l w).
  - done.
  - unfold getOne. run. by destruct (Map_get (archetypes w) a).
  - pose proof (well_formed_createArchetype l w Hwf) as H.
    unfold getWith, get. run. by destruct (createArchetype l w).
  - by apply well_formed_call.
  - rewrite defer_eq. by apply (well_formed_same_maps w).
  - rewrite flush_eq. pose proof (well_formed_call_each (queue w) w Hwf) as H.
    destruct (call_each (queue w) w); [|done]. by eapply well_formed_same_maps.
  - split; simpl; [apply NoDup_nil_2|]. by intros k ?%elem_of_nil.
Qed.

Lemma after_all_snoc (cs : list Call) (c : Call) (w : World) :
  after_all (cs ++ [c]) w = after c (after_all cs w).
Proof. unfold after_all. by rewrite foldl_app. Qed.

Lemma well_formed_after_all (cs : list Call) (w : World) :
  well_formed w → well_formed (after_all cs w).
Proof.
  intros Hwf. induction cs as [|c cs IH] using rev_ind; [done|].
  rewrite after_all_snoc. by apply well_formed_after.
Qed.

Lemma reachable_well_formed (w : World) : reachable w → well_formed w.
Proof.
  intros (h & cs & ->). apply well_formed_after_all, well_formed_createWorld.
Qed.

Lemma keys_archetypes_call (c : Command) (w : World) :
  keys (archetypes (world_of (call c w))) = keys (archetypes w).
Proof.
  destruct (call_maps c w) as [->|(body & -> & _ & _)]; [done|].
  apply for_entries_keys.
Qed.

Lemma keys_archetypes_call_each (cs : list Command) (w : World) :
  keys (archetypes (world_of (call_each cs w))) = keys (archetypes w).
Proof.
  revert w. induction cs as [|c cs IH]; intros w; [done|].
  rewrite call_each_cons. pose proof (keys_archetypes_call c w) as Hc.
  destruct (call c w) as [[] w'|e w']; simpl in *; [|done]. by rewrite IH.
Qed.

Ltac unfold_createArchetype :=
  unfold createArchetype_result, createArchetype, rest_array,
    memoizedArchetypes_fetch in *;
  run; simpl in *.

Lemma createArchetype_world (l : list ComponentName) (w : World) :
  let a := createArchetype_result l w in
  let w' := world_of (createArchetype l w) in
  memoizedArchetypes w' !! memoizedMap_key (JS.sort l) = Some a
  ∧ (∀ k v, memoizedArchetypes w !! k = Some v → memoizedArchetypes w' !! k = Some v)
  ∧ keys (archetypes w')
    = (if Map_has (archetypes w) a then keys (archetypes w)
       else keys (archetypes w) ++ [identity a])
  ∧ (Map_has (archetypes w) a = false →
     Map_get (archetypes w') a
     = Some (List.filter (fun entity => entityIsArchetype (object w entity) a)
               (entities w))).
Proof.
  unfold_createArchetype.
  destruct (memoizedArchetypes w !! _) as [cached|] eqn:Em; simpl.
  - destruct (Map_has (archetypes w) cached) eqn:Eh; simpl.
    + repeat split; done.
    + repeat split; try done.
      * by rewrite keys_Map_set, Eh.
      * intros _. rewrite Map_get_set. by rewrite (proj2 (same_spec cached cached)).
  - destruct (Map_has (archetypes w) _) eqn:Eh; simpl.
    + repeat split; try done.
      * apply lookup_insert_eq.
      * intros k v Hk. rewrite lookup_insert_ne; [done|]. intros <-. congruence.
    + repeat split; try done.
      * apply lookup_insert_eq.
      * intros k v Hk. rewrite lookup_insert_ne; [done|]. intros <-. congruence.
      * by rewrite keys_Map_set, Eh.
      * intros _. rewrite Map_get_set. by rewrite (proj2 (same_spec _ _)).
Qed.

(** A call for a cached archetype whose index exists only uses up the
    array it was handed. *)
Lemma createArchetype_hit (l : list ComponentName) (w : World) (a : Archetype) :
  memoizedArchetypes w !! memoizedMap_key (JS.sort l) = Some a →
  createArchetype_result l w = a
  ∧ (Map_has (archetypes w) a = true →
     createArchetype l w = Return a (with_allocated (S (allocated w)) w)).
Proof.
  intros Hm. unfold_createArchetype. rewrite Hm. simpl. split; [done|].
  by intros ->.
Qed.

Lemma createArchetype_registered (l : list ComponentName) (w : World) :
  Map_has (archetypes (world_of (createArchetype l w))) (createArchetype_result l w)
  = true.
Proof.
  apply Map_has_true. destruct (createArchetype_world l w) as (_ & _ & -> & _).
  destruct (Map_has (archetypes w) _) eqn:Eh.
  - by apply Map_has_true.
  - rewrite elem_of_app, list_elem_of_singleton. by right.
Qed.

Lemma createArchetype_frame (l : list ComponentName) (w : World) :
  entities (world_of (createArchetype l w)) = entities w
  ∧ heap (world_of (createArchetype l w)) = heap w.
Proof.
  unfold_createArchetype.
  destruct (memoizedArchetypes w !! _) as [cached|] eqn:Em; simpl;
    destruct (Map_has (archetypes w) _) eqn:Eh; done.
Qed.

Lemma createArchetype_queue (l : list ComponentName) (w : World) :
  queue (world_of (createArchetype l w)) = queue w.
Proof.
  unfold_createArchetype.
  destruct (memoizedArchetypes w !! _) as [cached|] eqn:Em; simpl;
    destruct (Map_has (archetypes w) _) eqn:Eh; done.
Qed.

Lemma memoizedArchetypes_after (c : Call) (w : World) k v :
  memoizedArchetypes w !! k = Some v → memoizedArchetypes (after c w) !! k = Some v.
Proof.
  intros Hk. unfold after. destruct c as [l|a|a|l|c|c| |]; simpl.
  - destruct (createArchetype_world l w) as (_ & Hkeep & _).
    run. rewrite (createArchetype_returns l w). simpl. by apply Hkeep.
  - done.
  - unfold getOne. run. by destruct (Map_get (archetypes w) a).
  - destruct (createArchetype_world l w) as (_ & Hkeep & _).
    unfold getWith, get. run. rewrite (createArchetype_returns l w).
    simpl. by apply Hkeep.
  - by destruct (call_frame c w) as (_ & -> & _).
  - by rewrite defer_eq.
  - rewrite flush_eq. destruct (call_each_frame (queue w) w) as (_ & Hm & _).
    destruct (call_each (queue w) w); simpl in *; by rewrite Hm.
  - done.
Qed.

Lemma memoizedArchetypes_after_all (cs : list Call) (w : World) k v :
  memoizedArchetypes w !! k = Some v →
  memoizedArchetypes (after_all cs w) !! k = Some v.
Proof.
  intros Hk. induction cs as [|c cs IH] using rev_ind; [done|].
  rewrite after_all_snoc. by apply memoizedArchetypes_after.
Qed.

(** An index stays in place through every call but [clear]. *)
Lemma index_persists (c : Call) (w : World) (k : nat) :
  c ≠ call_clear → k ∈ keys (archetypes w) → k ∈ keys (archetypes (after c w)).
Proof.
  intros Hc Hk. unfold after. destruct c as [l|a|a|l|c|c| |]; simpl.
  - destruct (createArchetype_world l w) as (_ & _ & Hkeys & _).
    run. rewrite (createArchetype_returns l w). simpl. rewrite Hkeys.
    destruct (Map_has (archetypes w) _); [done|]. apply elem_of_app. by left.
  - done.
  - unfold getOne. run. by destruct (Map_get (archetypes w) a).
  - destruct (createArchetype_world l w) as (_ & _ & Hkeys & _).
    unfold getWith, get. run. rewrite (createArchetype_returns l w). simpl.
    rewrite Hkeys.
    destruct (Map_has (archetypes w) _); [done|]. apply elem_of_app. by left.
  - by rewrite keys_archetypes_call.
  - by rewrite defer_eq.
  - rewrite flush_eq. pose proof (keys_archetypes_call_each (queue w) w) as Hq.
    destruct (call_each (queue w) w); simpl in *; by rewrite Hq.
  - done.
Qed.

Lemma index_persists_all (cs : list Call) (w : World) (k : nat) :
  call_clear ∉ cs → k ∈ keys (archetypes w) → k ∈ keys (archetypes (after_all cs w)).
Proof.
  intros Hc Hk. induction cs as [|c cs IH] using rev_ind; [done|].
  rewrite after_all_snoc. rewrite elem_of_app, list_elem_of_singleton in Hc.
  apply index_persists; [intros ->; apply Hc; by right|].
  apply IH. intros ?. apply Hc. by left.
Qed.

(** C3.  Two calls of [createArchetype] whose name lists are equal as sets
    (they may differ in the order of the names and in how often a name is
    repeated) return the same archetype object, whatever calls are made in
    between.  The first call leaves the archetype with an index; the index
    is still there at the later call unless the store was cleared in
    between, and a later call that finds it changes neither the indices nor
    the listener sets (nor anything else but the count of arrays
    allocated). *)
Theorem createArchetype_memoized (l1 l2 : list ComponentName) (w : World)
    (cs : list Call) :
  (∀ c, c ∈ l1 ↔ c ∈ l2) →
  ∃ a w1 w3,
    createArchetype l1 w = Return a w1
    ∧ Map_has (archetypes w1) a = true
    ∧ createArchetype l2 (after_all cs w1) = Return a w3
    ∧ (call_clear ∉ cs → Map_has (archetypes (after_all cs w1)) a = true)
    ∧ (Map_has (archetypes (after_all cs w1)) a = true →
       archetypes w3 = archetypes (after_all cs w1)
       ∧ archetypeChanged w3 = archetypeChanged (after_all cs w1)
       ∧ w3 = with_allocated (S (allocated (after_all cs w1))) (after_all cs w1)).
Proof.
  intros Hsame.
  exists (createArchetype_result l1 w), (world_of (createArchetype l1 w)),
         (world_of (createArchetype l2 (after_all cs (world_of (createArchetype l1 w))))).
  split; [apply createArchetype_returns|].
  split; [apply createArchetype_registered|].
  destruct (createArchetype_world l1 w) as (Hm & _).
  apply (memoizedArchetypes_after_all cs) in Hm.
  unfold memoizedMap_key in Hm.
  rewrite (Set_values_sort_same_names l1 l2 Hsame) in Hm.
  destruct (createArchetype_hit l2 _ _ Hm) as [Hres Hhit].
  split; [|split].
  - rewrite <- Hres at 1. apply createArchetype_returns.
  - intros Hc. apply Map_has_true, index_persists_all; [done|].
    apply Map_has_true, createArchetype_registered.
  - intros Hhas. rewrite (Hhit Hhas). done.
Qed.

Lemma createArchetype_memoized_witness :
  let l1 := ["velocity"; "position"; "velocity"] in
  let l2 := ["position"; "velocity"] in
  let w := with_heap {[ 1%nat := {[ "position" := Data 3 ]} ]} createWorld in
  let cs := [call_immediately (AddEntity 1%nat);
             call_immediately (AddComponent 1%nat "velocity" (Data 4))] in
  (∀ c, c ∈ l1 ↔ c ∈ l2)
  ∧ ∃ a w1 w3,
      createArchetype l1 w = Return a w1
      ∧ Map_has (archetypes w1) a = true
      ∧ createArchetype l2 (after_all cs w1) = Return a w3
      ∧ (call_clear ∉ cs → Map_has (archetypes (after_all cs w1)) a = true)
      ∧ (Map_has (archetypes (after_all cs w1)) a = true →
         archetypes w3 = archetypes (after_all cs w1)
         ∧ archetypeChanged w3 = archetypeChanged (after_all cs w1)
         ∧ w3 = with_allocated (S (allocated (after_all cs w1))) (after_all cs w1)).
Proof.
  intros l1 l2 w cs.
  assert (∀ c, c ∈ l1 ↔ c ∈ l2) as Hs.
  { intros c. unfold l1, l2. rewrite !elem_of_cons, !elem_of_nil. tauto. }
  split; [exact Hs|]. exact (createArchetype_memoized l1 l2 w cs Hs).
Defined.

(** *** Lookups *)

Lemma keys_archetypes_after (c : Call) (w : World) (k : nat) :
  k ∈ keys (archetypes (after c w)) →
  k ∈ keys (archetypes w)
  ∨ ∃ l, (c = call_createArchetype l ∨ c = call_getWith l)
         ∧ k = identity (createArchetype_result l w).
Proof.
  unfold after. destruct c as [l|a|a|l|c|c| |]; simpl.
  - destruct (createArchetype_world l w) as (_ & _ & Hk & _).
    run. rewrite (createArchetype_returns l w). simpl. rewrite Hk.
    destruct (Map_has _ _); [by left|].
    rewrite elem_of_app, list_elem_of_singleton. intros [?| ->]; [by left|right].
    exists l. auto.
  - by left.
  - unfold getOne. run. destruct (Map_get (archetypes w) a); by left.
  - destruct (createArchetype_world l w) as (_ & _ & Hk & _).
    unfold getWith, get. run. rewrite (createArchetype_returns l w). simpl.
    rewrite Hk. destruct (Map_has _ _); [by left|].
    rewrite elem_of_app, list_elem_of_singleton. intros [?| ->]; [by left|right].
    exists l. auto.
  - rewrite keys_archetypes_call. by left.
  - rewrite defer_eq. by left.
  - rewrite flush_eq. pose proof (keys_archetypes_call_each (queue w) w) as Hk.
    destruct (call_each (queue w) w); simpl in *; rewrite Hk; by left.
  - by intros ?%elem_of_nil.
Qed.

(** C10.  For an archetype object the store has no index for, [get] returns
    [undefined] and [getOne] throws, and neither changes the world.  The
    store has no index for any archetype when it is created or has just been
    cleared, and an archetype stays without one through every call that is
    not a [createArchetype] or [getWith] returning that very object. *)
Theorem get_unregistered (w : World) (a : Archetype) :
  Map_get (archetypes w) a = None →
  get a w = Return None w
  ∧ getOne a w = Throw TypeError w
  ∧ (∀ c, ¬ registers c w a → Map_get (archetypes (after c w)) a = None)
  ∧ (∀ h, Map_get (archetypes (with_heap h createWorld)) a = None)
  ∧ (∀ w0, Map_get (archetypes (after call_clear w0)) a = None).
Proof.
  intros Hnone. split; [|split; [|split; [|split]]].
  - unfold get. run. by rewrite Hnone.
  - unfold getOne. run. by rewrite Hnone.
  - intros c Hc. apply Map_get_None. intros Hk.
    apply keys_archetypes_after in Hk as [Hk|(l & Hl & Hk)].
    + by apply Map_get_None in Hnone.
    + apply Hc. by destruct Hl as [-> | ->].
  - done.
  - done.
Qed.

Lemma get_unregistered_witness :
  let a := {| identity := 0; components := ["position"] |} in
  let w := after call_clear (after (call_createArchetype ["position"]) createWorld) in
  Map_get (archetypes w) a = None
  ∧ get a w = Return None w
  ∧ getOne a w = Throw TypeError w.
Proof.
  intros a w.
  assert (Map_get (archetypes w) a = None) as H by reflexivity.
  split; [exact H|].
  destruct (get_unregistered w a H) as (Hg & Ho & _). split; [exact Hg | exact Ho].
Defined.

(** C9.  [clear()] returns with the master list, the indices, the listener
    registries and the queue empty; the queued commands have not run: the
    entity objects, the identifier generator and the cache are as they were.
    After it [get] finds no index for any archetype, until [createArchetype]
    is called again, which then builds an empty index. *)
Theorem clear_empties_store (w : World) (a : Archetype) (l : list ComponentName) :
  ∃ w',
    clear w = Return tt w'
    ∧ entities w' = [] ∧ archetypes w' = [] ∧ archetypeChanged w' = []
    ∧ queue w' = []
    ∧ heap w' = heap w ∧ nextId w' = nextId w
    ∧ memoizedArchetypes w' = memoizedArchetypes w
    ∧ get a w' = Return None w'
    ∧ ∃ a' w'', createArchetype l w' = Return a' w''
                ∧ get a' w'' = Return (Some []) w''.
Proof.
  eexists. split; [apply clear_eq|]. simpl. repeat (split; [done|]).
  set (w' := with_queue [] _).
  exists (createArchetype_result l w'), (world_of (createArchetype l w')).
  split; [apply createArchetype_returns|].
  destruct (createArchetype_world l w') as (_ & _ & _ & Hidx).
  unfold get. run. by rewrite Hidx.
Qed.

(** *** The queue *)

Lemma with_queue_queue (w : World) : with_queue (queue w) w = w.
Proof. by destruct w. Qed.

Lemma defer_all_eq (cs : list Command) (w : World) :
  defer_all cs w = with_queue (queue w ++ cs) w.
Proof.
  unfold defer_all. revert w. induction cs as [|c cs IH]; intros w; simpl.
  - by rewrite app_nil_r, with_queue_queue.
  - rewrite defer_eq, IH. simpl. by rewrite <- app_assoc.
Qed.

(** What a command does does not depend on what is queued. *)
Lemma call_with_queue (c : Command) (q : list Command) (w : World) :
  call c (with_queue q w) =
  match call c w with
  | Return a w' => Return a (with_queue q w')
  | Throw e w' => Throw e (with_queue q w')
  end.
Proof.
  destruct c as [e|e|e n d|e ns]; unfold_calls; unfold object; simpl;
    try destruct (has_property _ "id"); simpl; try done;
    destruct (for_entries _ _ _) as [[entries ls] [err|]]; done.
Qed.

Lemma call_each_with_queue (cs q : list Command) (w : World) :
  call_each cs (with_queue q w) =
  match call_each cs w with
  | Return a w' => Return a (with_queue q w')
  | Throw e w' => Throw e (with_queue q w')
  end.
Proof.
  revert w. induction cs as [|c cs IH]; intros w; [done|].
  rewrite !call_each_cons, call_with_queue. destruct (call c w); [apply IH | done].
Qed.

(** *** Adding entities *)

Lemma object_set_object (entity : EntityRef) (o : Entity) (w : World) :
  object (set_object entity o w) entity = o.
Proof. unfold object, set_object. simpl. by rewrite lookup_insert_eq. Qed.

Lemma for_archetypes_entries_frame body (w : World) :
  heap (world_of (for_archetypes_entries body w)) = heap w
  ∧ entities (world_of (for_archetypes_entries body w)) = entities w
  ∧ nextId (world_of (for_archetypes_entries body w)) = nextId w.
Proof. by rewrite for_archetypes_entries_world. Qed.

Lemma nextId_call_mono (c : Command) (w : World) :
  nextId w ≤ nextId (world_of (call c w)).
Proof.
  destruct c as [e|e|e n d|e ns]; unfold_calls;
    try destruct (has_property (object w e) "id"); simpl; try lia;
    destruct (for_entries _ _ _) as [[entries ls] [err|]]; simpl; lia.
Qed.

Lemma nextId_call_each_mono (cs : list Command) (w : World) :
  nextId w ≤ nextId (world_of (call_each cs w)).
Proof.
  revert w. induction cs as [|c cs IH]; intros w; [simpl; lia|].
  rewrite call_each_cons. pose proof (nextId_call_mono c w) as Hc.
  destruct (call c w) as [[] w'|e w']; simpl in *; [|done].
  specialize (IH w'). lia.
Qed.

Lemma nextId_after_mono (c : Call) (w : World) : nextId w ≤ nextId (after c w).
Proof.
  unfold after. destruct c as [l|a|a|l|c|c| |]; simpl; try lia.
  - run. rewrite (createArchetype_returns l w). simpl.
    unfold_createArchetype. destruct (memoizedArchetypes w !! _); simpl;
      destruct (Map_has _ _); simpl; lia.
  - unfold getOne. run. destruct (Map_get (archetypes w) a); simpl; lia.
  - unfold getWith, get. run. rewrite (createArchetype_returns l w). simpl.
    unfold_createArchetype. destruct (memoizedArchetypes w !! _); simpl;
      destruct (Map_has _ _); simpl; lia.
  - apply nextId_call_mono.
  - rewrite defer_eq. simpl. lia.
  - rewrite flush_eq. pose proof (nextId_call_each_mono (queue w) w) as H.
    destruct (call_each (queue w) w); simpl in *; lia.
Qed.

Lemma nextId_after_all_mono (cs : list Call) (w : World) :
  nextId w ≤ nextId (after_all cs w).
Proof.
  induction cs as [|c cs IH] using rev_ind; [simpl; lia|].
  rewrite after_all_snoc. pose proof (nextId_after_mono c (after_all cs w)). lia.
Qed.

Lemma not_deleted_is_kept (names : list ComponentName) (o : Entity) (c : ComponentName) :
  c ∉ names → foldl (fun o name => delete name o) o names !! c = o !! c.
Proof.
  revert o. induction names as [|n names IH]; intros o Hc; [done|].
  apply not_elem_of_cons in Hc as [Hne Hc]. simpl. rewrite IH by done.
  by apply lookup_delete_ne.
Qed.

(** What a command does to the entity objects: it leaves an object as it
    is (so does a command that throws before it gets to write it), or it
    writes to the object of its own entity. *)
Lemma call_object (c : Command) (w : World) (x : EntityRef) :
  object (world_of (call c w)) x = object w x
  ∨ object (world_of (call c w)) x =
    match c with
    | AddEntity e =>
        if decide (x = e) then <["id" := Data (nextId w)]> (object w e)
        else object w x
    | RemoveEntity e =>
        if decide (x = e) then delete "id" (object w e) else object w x
    | AddComponent e n d =>
        if decide (x = e) then <[n := d]> (object w e) else object w x
    | RemoveComponent e names =>
        if decide (x = e)
        then foldl (fun o name => delete name o) (object w e) names
        else object w x
    end.
Proof.
  destruct c as [e|e|e n d|e ns]; unfold_calls;
    try destruct (has_property (object w e) "id"); simpl; try (by left);
    destruct (for_entries _ _ _) as [[entries ls] [err|]]; simpl;
    unfold object; simpl;
    first [ by left
          | right; destruct (decide (x = e)) as [->|Hx];
            [by rewrite lookup_insert_eq | by rewrite lookup_insert_ne] ].
Qed.

Lemma call_keeps_id (entity : EntityRef) (c : Command) (w : World) :
  keeps_id entity c →
  has_property (object w entity) "id" = true →
  has_property (object (world_of (call c w)) entity) "id" = true.
Proof.
  intros Hc Hid. destruct (call_object c w entity) as [->| ->]; [done|].
  assert (∀ n d, has_property (<[n := d]> (object w entity)) "id" = true) as Hins.
  { intros n d. unfold has_property in *. apply bool_decide_eq_true.
    apply bool_decide_eq_true in Hid.
    destruct (decide (n = "id")) as [->|Hn].
    - rewrite lookup_insert_eq. eauto.
    - by rewrite lookup_insert_ne. }
  destruct c as [e|e|e n d|e ns]; simpl in Hc;
    (destruct (decide (entity = e)) as [<-|]; [|done]).
  - apply Hins.
  - done.
  - apply Hins.
  - destruct Hc as [?|Hc]; [done|].
    unfold has_property in *. by rewrite not_deleted_is_kept.
Qed.

Lemma call_each_keeps_id (entity : EntityRef) (cs : list Command) (w : World) :
  Forall (keeps_id entity) cs →
  has_property (object w entity) "id" = true →
  has_property (object (world_of (call_each cs w)) entity) "id" = true.
Proof.
  revert w. induction cs as [|c cs IH]; intros w Hcs Hid; [done|].
  apply Forall_cons in Hcs as [Hc Hcs].
  rewrite call_each_cons. pose proof (call_keeps_id entity c w Hc Hid) as H.
  destruct (call c w) as [[] w'|e w']; simpl in *; [by apply IH|done].
Qed.

(** As long as no [removeEntity] of the entity and no [removeComponent] of
    its [id] is issued or pending, the entity keeps its identifier. *)
Lemma after_keeps_id (entity : EntityRef) (c : Call) (w : World) :
  keeps_identifier entity c →
  Forall (keeps_id entity) (queue w) →
  has_property (object w entity) "id" = true →
  has_property (object (after c w) entity) "id" = true
  ∧ Forall (keeps_id entity) (queue (after c w)).
Proof.
  intros Hc Hq Hid. unfold after. destruct c as [l|a|a|l|c|c| |]; simpl in *.
  - destruct (createArchetype_frame l w) as [_ Hh].
    pose proof (createArchetype_queue l w) as Hqq.
    run. rewrite (createArchetype_returns l w). simpl.
    unfold object. by rewrite Hh, Hqq.
  - done.
  - unfold getOne. run. by destruct (Map_get (archetypes w) a).
  - destruct (createArchetype_frame l w) as [_ Hh].
    pose proof (createArchetype_queue l w) as Hqq.
    unfold getWith, get. run. rewrite (createArchetype_returns l w). simpl.
    unfold object. by rewrite Hh, Hqq.
  - split; [by apply call_keeps_id|].
    by destruct (call_frame c w) as (-> & _).
  - rewrite defer_eq. simpl. split; [done|].
    apply Forall_app. split; [done|]. by apply Forall_singleton.
  - rewrite flush_eq. pose proof (call_each_keeps_id entity (queue w) w Hq Hid) as H.
    destruct (call_each_frame (queue w) w) as (Hqq & _).
    destruct (call_each (queue w) w) as [[] w'|e w']; simpl in *.
    + split; [done|apply Forall_nil_2].
    + split; [done|]. by rewrite Hqq.
  - split; [done|apply Forall_nil_2].
Qed.

Lemma after_all_keeps_id (entity : EntityRef) (cs : list Call) (w : World) :
  Forall (keeps_identifier entity) cs →
  Forall (keeps_id entity) (queue w) →
  has_property (object w entity) "id" = true →
  has_property (object (after_all cs w) entity) "id" = true.
Proof.
  revert w. induction cs as [|c cs IH]; intros w Hcs Hq Hid; [done|].
  apply Forall_cons in Hcs as [Hc Hcs].
  destruct (after_keeps_id entity c w Hc Hq Hid) as [Hid' Hq'].
  simpl. by apply IH.
Qed.

(** C4, as amended.  [immediately.addEntity] throws DuplicateIdentifier on an
    entity that carries an [id], changing nothing, and throws again on every
    repetition made after any calls among which no [removeEntity] of the
    entity and no [removeComponent] naming its [id] is issued, at once or
    deferred, none being pending in the queue either.  On an entity without
    an [id] it returns the entity it was given; the entity now carries the
    next identifier of the generator, which the generator never yields
    again, it is on the master list, and every such repetition throws.  The
    deferred [addEntity] returns the entity it was given and queues this
    operation: flushing it throws or assigns the identifier in the same
    way. *)
Theorem addEntity_identifier (w : World) (entity : EntityRef) :
  reachable w →
  (has_property (object w entity) "id" = true →
   immediately_addEntity entity w = Throw DuplicateIdentifier w
   ∧ ∀ cs, Forall (keeps_id entity) (queue w) →
       Forall (keeps_identifier entity) cs →
       immediately_addEntity entity (after_all cs w)
       = Throw DuplicateIdentifier (after_all cs w))
  ∧ (has_property (object w entity) "id" = false →
     ∃ w', immediately_addEntity entity w = Return entity w'
           ∧ object w' entity = <["id" := Data (nextId w)]> (object w entity)
           ∧ (∀ cs, nextId w < nextId (after_all cs w'))
           ∧ entities w' = entities w ++ [entity]
           ∧ immediately_addEntity entity w' = Throw DuplicateIdentifier w'
           ∧ ∀ cs, Forall (keeps_id entity) (queue w) →
               Forall (keeps_identifier entity) cs →
               immediately_addEntity entity (after_all cs w')
               = Throw DuplicateIdentifier (after_all cs w'))
  ∧ addEntity entity w = Return entity (with_queue (queue w ++ [AddEntity entity]) w)
  ∧ (queue w = [] → has_property (object w entity) "id" = true →
     flush (world_of (addEntity entity w))
     = Throw DuplicateIdentifier (world_of (addEntity entity w)))
  ∧ (queue w = [] → has_property (object w entity) "id" = false →
     ∃ w', flush (world_of (addEntity entity w)) = Return tt w'
           ∧ object w' entity = <["id" := Data (nextId w)]> (object w entity)).
Proof.
  intros [_ Hls]%reachable_well_formed.
  assert (∀ w0, has_property (object w0 entity) "id" = true →
                immediately_addEntity entity w0 = Throw DuplicateIdentifier w0) as Hdup.
  { intros w0 Hid. unfold immediately_addEntity. run. by rewrite Hid. }
  assert (has_property (object w entity) "id" = false →
     ∃ w', immediately_addEntity entity w = Return entity w'
           ∧ object w' entity = <["id" := Data (nextId w)]> (object w entity)
           ∧ (∀ cs, nextId w < nextId (after_all cs w'))
           ∧ entities w' = entities w ++ [entity]
           ∧ has_property (object w' entity) "id" = true
           ∧ queue w' = queue w) as Hnew.
  { intros Hid. unfold immediately_addEntity, nextId_call, indexEntityWithNewComponents.
    run. rewrite Hid. simpl.
    set (w1 := with_entities _ _).
    set (body := fun (archetype : Archetype) (index : list EntityRef) => _).
    rewrite (for_archetypes_entries_returns body w1 Hls).
    destruct (for_archetypes_entries_frame body w1) as (Hh & He & Hn).
    assert (queue (world_of (for_archetypes_entries body w1)) = queue w) as Hq
      by (by rewrite for_archetypes_entries_world).
    set (w' := world_of (for_archetypes_entries body w1)) in *.
    assert (object w' entity = <["id" := Data (nextId w)]> (object w entity)) as Hobj.
    { unfold object at 1. rewrite Hh. unfold w1. simpl. by rewrite lookup_insert_eq. }
    exists w'. split; [done|]. split; [done|]. split.
    { intros cs. pose proof (nextId_after_all_mono cs w') as Hm.
      rewrite Hn in Hm. unfold w1 in Hm. simpl in Hm. lia. }
    split; [by rewrite He|]. split; [|done].
    rewrite Hobj. unfold has_property. by rewrite lookup_insert_eq. }
  split.
  { intros Hid. split; [by apply Hdup|]. intros cs Hq Hcs.
    by apply Hdup, after_all_keeps_id. }
  split.
  { intros Hid. destruct (Hnew Hid) as (w' & ? & ? & ? & ? & Hid' & Hq').
    exists w'. repeat (split; [done|]). split; [by apply Hdup|].
    intros cs Hq Hcs. apply Hdup, after_all_keeps_id; [done| |done].
    by rewrite Hq'. }
  split; [done|].
  assert (∀ q, call (AddEntity entity) (with_queue q w)
               = match immediately_addEntity entity w with
                 | Return _ w' => Return tt (with_queue q w')
                 | Throw e w' => Throw e (with_queue q w')
                 end) as Hcall.
  { intros q. rewrite call_with_queue. simpl. run.
    by destruct (immediately_addEntity entity w). }
  assert (world_of (addEntity entity w)
          = with_queue (queue w ++ [AddEntity entity]) w) as -> by done.
  split.
  - intros Hq Hid. rewrite flush_eq. simpl queue.
    rewrite Hq, app_nil_l, call_each_cons, Hcall, (Hdup w Hid). done.
  - intros Hq Hid. destruct (Hnew Hid) as (w' & Hret & Hobj & _).
    rewrite flush_eq. simpl queue. rewrite Hq, app_nil_l, call_each_cons, Hcall, Hret. simpl.
    eexists. split; [reflexivity|]. exact Hobj.
Qed.

Lemma addEntity_identifier_witness :
  let w := after (call_createArchetype ["position"])
             (with_heap {[ 1%nat := {[ "position" := Data 3 ]};
                           2%nat := {[ "position" := Data 4 ]} ]} createWorld) in
  let cs := [call_immediately (AddEntity 2%nat);
             call_immediately (RemoveComponent 1%nat ["position"]);
             call_deferred (RemoveEntity 2%nat);
             call_flush;
             call_clear] in
  reachable w
  ∧ has_property (object w 1%nat) "id" = false
  ∧ Forall (keeps_id 1%nat) (queue w)
  ∧ Forall (keeps_identifier 1%nat) cs
  ∧ ∃ w', immediately_addEntity 1%nat w = Return 1%nat w'
          ∧ object w' 1%nat = <["id" := Data (nextId w)]> (object w 1%nat)
          ∧ (∀ cs, nextId w < nextId (after_all cs w'))
          ∧ entities w' = entities w ++ [1%nat]
          ∧ immediately_addEntity 1%nat w' = Throw DuplicateIdentifier w'
          ∧ immediately_addEntity 1%nat (after_all cs w')
            = Throw DuplicateIdentifier (after_all cs w').
Proof.
  intros w cs.
  assert (reachable w) as Hr.
  { exists {[ 1%nat := {[ "position" := Data 3 ]}; 2%nat := {[ "position" := Data 4 ]} ]},
      [call_createArchetype ["position"]].
    reflexivity. }
  assert (has_property (object w 1%nat) "id" = false) as Hid by (vm_compute; reflexivity).
  assert (Forall (keeps_id 1%nat) (queue w)) as Hq by apply Forall_nil_2.
  assert (Forall (keeps_identifier 1%nat) cs) as Hcs.
  { repeat apply Forall_cons_2; try apply Forall_nil_2; try exact I.
    - right. rewrite !elem_of_cons, elem_of_nil. intros [?|[]]. discriminate.
    - discriminate. }
  split; [exact Hr|]. split; [exact Hid|]. split; [exact Hq|]. split; [exact Hcs|].
  destruct (proj1 (proj2 (addEntity_identifier w 1%nat Hr)) Hid)
    as (w' & H1 & H2 & H3 & H4 & H5 & H6).
  exists w'. repeat (split; [assumption|]). exact (H6 cs Hq Hcs).
Defined.

(** C4 as the specification words it fails: with no [removeEntity] in
    between, a [removeComponent] that names [id] takes the identifier off the
    entity, and the repeated [addEntity] returns; the entity is on the master
    list twice. *)
Lemma addEntity_after_id_removed :
  let w0 := with_heap {[ 1%nat := {[ "position" := Data 3 ]} ]} createWorld in
  ∃ w1 w2 w3,
    immediately_addEntity 1%nat w0 = Return 1%nat w1
    ∧ immediately_removeComponent 1%nat ["id"] w1 = Return tt w2
    ∧ immediately_addEntity 1%nat w2 = Return 1%nat w3
    ∧ entities w2 = [1%nat]
    ∧ entities w3 = [1%nat; 1%nat].
Proof.
  intros w0. eexists _, _, _.
  split; [vm_compute; reflexivity|]. split; [vm_compute; reflexivity|].
  split; [vm_compute; reflexivity|]. split; vm_compute; reflexivity.
Qed.

(** A flush can only fail on an [addEntity] of an entity that already has
    an identifier. *)
Lemma call_each_throws (cs : list Command) (w w' : World) (e : Error) :
  well_formed w → call_each cs w = Throw e w' → e = DuplicateIdentifier.
Proof.
  revert w. induction cs as [|c cs IH]; intros w Hwf; [done|].
  rewrite call_each_cons. pose proof (well_formed_call c w Hwf) as Hwf'.
  destruct (call_returns c w Hwf) as [->|[w1 Hr]]; [by intros [= <- _]|].
  rewrite Hr in *. by apply IH.
Qed.

(** What the deferred interface does in general.  A deferred call only
    appends its command to the queue: the master list, the entity objects, the indices and the listener registries (so
    also the notification counts) stay as they are.  [flush()] then runs the
    queued commands one after the other, oldest first, as the immediate
    operations would run on the world; it returns with the queue empty,
    unless one of the commands throws DuplicateIdentifier, which ends the
    flush.  Whenever one of the flushed commands changes the index of an
    archetype, the listeners of that archetype are invoked exactly once by
    that command. *)
Theorem deferred_until_flush (w : World) (cs : list Command) :
  reachable w →
  (∀ c w0, defer c w0 = Return tt (with_queue (queue w0 ++ [c]) w0))
  ∧ defer_all cs w = with_queue (queue w ++ cs) w
  ∧ entities (defer_all cs w) = entities w
  ∧ heap (defer_all cs w) = heap w
  ∧ archetypes (defer_all cs w) = archetypes w
  ∧ (∀ a, notifications (defer_all cs w) a = notifications w a)
  ∧ flush (defer_all cs w)
    = match call_each (queue w ++ cs) (with_queue [] w) with
      | Return _ w' => Return tt w'
      | Throw e w' => Throw e (with_queue (queue w ++ cs) w')
      end
  ∧ (∀ w', call_each (queue w ++ cs) (with_queue [] w) = Return tt w' →
       queue w' = [])
  ∧ (∀ e w', call_each (queue w ++ cs) (with_queue [] w) = Throw e w' →
       e = DuplicateIdentifier)
  ∧ (∀ pre c post w1 w2 a,
       queue w ++ cs = pre ++ c :: post →
       call_each pre (with_queue [] w) = Return tt w1 →
       call c w1 = Return tt w2 →
       Map_get (archetypes w2) a ≠ Map_get (archetypes w1) a →
       notifications w2 a = S (notifications w1 a)).
Proof.
  intros Hwf%reachable_well_formed.
  assert (well_formed (with_queue [] w)) as Hwf0 by (by apply (well_formed_same_maps w)).
  split; [intros; apply defer_eq|].
  rewrite defer_all_eq. repeat (split; [done|]).
  assert (∀ w', call_each (queue w ++ cs) (with_queue [] w) = Return tt w' →
                queue w' = []) as Hempty.
  { intros w' Hrun.
    pose proof (call_each_frame (queue w ++ cs) (with_queue [] w)) as (Hq & _).
    by rewrite Hrun in Hq. }
  split; [|split; [done|split]].
  - rewrite flush_eq. simpl queue.
    replace (with_queue (queue w ++ cs) w)
      with (with_queue (queue w ++ cs) (with_queue [] w)) by done.
    rewrite call_each_with_queue.
    destruct (call_each (queue w ++ cs) (with_queue [] w)) as [[] w'|e w'] eqn:Hrun;
      [|done].
    specialize (Hempty w' eq_refl). simpl. destruct w'. simpl in Hempty.
    by rewrite Hempty.
  - intros e w' Hthrow. by apply (call_each_throws _ _ _ _ Hwf0 Hthrow).
  - intros pre c post w1 w2 a _ Hpre Hc Hch.
    assert (well_formed w1) as [Hnd _].
    { pose proof (well_formed_call_each pre (with_queue [] w) Hwf0) as H.
      by rewrite Hpre in H. }
    destruct (call_maps c w1) as [Hthrow|(body & Ha & Hl & Hr)]; [congruence|].
    rewrite Hc in Ha, Hl. simpl in Ha, Hl. unfold notifications. rewrite Hl.
    apply for_entries_changed; [done| |by rewrite <- Ha].
    apply Hr. eauto.
Qed.

Lemma deferred_until_flush_witness :
  let w := after (call_createArchetype ["position"; "velocity"])
             (with_heap {[ 1%nat := {[ "position" := Data 3 ]} ]} createWorld) in
  let cs := [AddEntity 1%nat; AddComponent 1%nat "velocity" (Data 4)] in
  let a := {| identity := 0; components := ["position"; "velocity"] |} in
  reachable w
  ∧ get a (defer_all cs w) = Return (Some []) (defer_all cs w)
  ∧ notifications (defer_all cs w) a = 0%nat
  ∧ ∃ w', flush (defer_all cs w) = Return tt w'
          ∧ queue w' = []
          ∧ get a w' = Return (Some [1%nat]) w'
          ∧ notifications w' a = 1%nat.
Proof.
  intros w cs a.
  assert (reachable w) as Hr.
  { exists {[ 1%nat := {[ "position" := Data 3 ]} ]},
           [call_createArchetype ["position"; "velocity"]].
    reflexivity. }
  destruct (deferred_until_flush w cs Hr) as (_ & Hd & _ & _ & _ & _ & Hflush & _).
  split; [exact Hr|].
  split; [rewrite Hd; vm_compute; reflexivity|].
  split; [rewrite Hd; vm_compute; reflexivity|].
  eexists. split; [|split; [|split]].
  - rewrite Hflush. vm_compute. reflexivity.
  - reflexivity.
  - vm_compute. reflexivity.
  - vm_compute. reflexivity.
Defined.

(** *** What [immediately.removeComponent] does to an index *)

(** After a loop that ran to its end, each index is what the body made of
    it. *)
Lemma for_entries_lookup body (entries : Map (list EntityRef))
    (ls : Map ListenerRegistry) (k : Archetype) (index : list EntityRef) :
  NoDup (keys entries) → (k, index) ∈ entries →
  (for_entries body entries ls).2 = None →
  Map_get (for_entries body entries ls).1.1 k = Some (default index (body k index)).
Proof.
  revert ls. induction entries as [|[k0 idx0] rest IH]; intros ls Hnd Hin;
    [by apply elem_of_nil in Hin|].
  pose proof Hnd as Hnd0. rewrite keys_cons, NoDup_cons in Hnd. destruct Hnd as [Hk0 Hnd].
  assert (∀ rest' : Map (list EntityRef), keys rest' = keys rest → (k, index) ∈ rest →
            ∀ v, Map_get ((k0, v) :: rest') k = Map_get rest' k) as Hskip.
  { intros rest' Hkeys Hr v. cbn [Map_get]. destruct (same k0 k) eqn:Es; [|done].
    apply same_spec in Es. exfalso. apply Hk0. rewrite Es.
    unfold keys. apply list_elem_of_fmap. by exists (k, index). }
  cbn [for_entries]. apply elem_of_cons in Hin as [[= -> ->]|Hin].
  - destruct (body k0 idx0) as [index'|]; simpl.
    + destruct (invoke_listeners ls k0) as [ls1|]; simpl; [|done].
      destruct (for_entries body rest ls1) as [[rest' ls'] err]. simpl. intros _.
      by rewrite (proj2 (same_spec k0 k0)).
    + destruct (for_entries body rest ls) as [[rest' ls'] err]. simpl. intros _.
      by rewrite (proj2 (same_spec k0 k0)).
  - destruct (body k0 idx0) as [index'|].
    + destruct (invoke_listeners ls k0) as [ls1|]; simpl; [|done].
      specialize (IH ls1 Hnd Hin).
      destruct (for_entries_keys body rest ls1) as [Hkeys _].
      destruct (for_entries body rest ls1) as [[rest' ls'] err]. simpl in *.
      intros Herr. rewrite (Hskip rest' Hkeys Hin). by apply IH.
    + specialize (IH ls Hnd Hin).
      destruct (for_entries_keys body rest ls) as [Hkeys _].
      destruct (for_entries body rest ls) as [[rest' ls'] err]. simpl in *.
      intros Herr. rewrite (Hskip rest' Hkeys Hin). by apply IH.
Qed.

Lemma deleted_is_absent (names : list ComponentName) (o : Entity) (c : ComponentName) :
  c ∈ names → foldl (fun o name => delete name o) o names !! c = None.
Proof.
  assert (∀ ns (o' : Entity), o' !! c = None →
            foldl (fun o name => delete name o) o' ns !! c = None) as Hkeep.
  { induction ns as [|n ns IH]; intros o' Ho'; simpl; [done|].
    apply IH. rewrite lookup_delete_None. by right. }
  revert o. induction names as [|n names IH]; intros o Hin; [by apply elem_of_nil in Hin|].
  simpl. apply elem_of_cons in Hin as [->|Hin]; [|by apply IH].
  apply Hkeep. apply lookup_delete_eq.
Qed.

Lemma entityIsArchetype_missing (o : Entity) (k : Archetype) (c : ComponentName) :
  c ∈ components k → o !! c = None → entityIsArchetype o k = false.
Proof.
  intros Hin Hc. unfold entityIsArchetype.
  destruct (forallb (defined o) (components k)) eqn:E; [|done].
  rewrite forallb_forall in E. apply list_elem_of_In in Hin.
  specialize (E c Hin). unfold defined in E. by rewrite Hc in E.
Qed.

(** Removing a component that an archetype names splices the index of that
    archetype at [indexOf], whether or not the entity is in it. *)
Lemma removeComponent_index (w : World) (e : EntityRef) (names : list ComponentName)
    (k : Archetype) (index : list EntityRef) (c : ComponentName) :
  well_formed w → (k, index) ∈ archetypes w →
  c ∈ components k → c ∈ names →
  ∃ w', immediately_removeComponent e names w = Return tt w'
        ∧ Map_get (archetypes w') k = Some (JS.splice index (JS.indexOf index e) 1).
Proof.
  intros [Hnd Hls] Hin Hck Hcn.
  unfold immediately_removeComponent, indexEntityWithRemovedComponents. run.
  set (w1 := set_object e _ w).
  set (body := fun (archetype : Archetype) (index : list EntityRef) => _).
  rewrite (for_archetypes_entries_returns body w1 Hls).
  eexists. split; [reflexivity|].
  rewrite for_archetypes_entries_world. simpl.
  rewrite (for_entries_lookup body _ _ k index Hnd Hin);
    [|by apply for_entries_no_error].
  f_equal. unfold body.
  assert (existsb (fun indexedComponent => JS.includes names indexedComponent)
            (components k) = true) as ->.
  { apply existsb_exists. exists c. split; [by apply list_elem_of_In|].
    unfold JS.includes. by apply bool_decide_eq_true. }
  rewrite (entityIsArchetype_missing _ k c Hck); [done|].
  unfold w1. rewrite object_set_object. by apply deleted_is_absent.
Qed.

(** X15.  Removing from an entity a component that an archetype names: when
    the entity is in the index of that archetype it leaves it, and only it
    does. *)
Lemma removeComponent_member (w : World) (e : EntityRef) (names : list ComponentName)
    (k : Archetype) (l1 l2 : list EntityRef) (c : ComponentName) :
  well_formed w → (k, l1 ++ e :: l2) ∈ archetypes w → e ∉ l1 →
  c ∈ components k → c ∈ names →
  ∃ w', immediately_removeComponent e names w = Return tt w'
        ∧ Map_get (archetypes w') k = Some (l1 ++ l2).
Proof.
  intros Hwf Hin He Hck Hcn.
  destruct (removeComponent_index w e names k _ c Hwf Hin Hck Hcn) as (w' & Hr & Hg).
  exists w'. split; [done|]. by rewrite Hg, splice_at_indexOf.
Qed.

(** X16.  Removing from an entity a component that an archetype names: an
    entity that is not in the index costs the index its last entity, for the
    splice is not guarded by a test of [indexOf]. *)
Lemma removeComponent_bystander (w : World) (e y : EntityRef)
    (names : list ComponentName) (k : Archetype) (l : list EntityRef)
    (c : ComponentName) :
  well_formed w → (k, l ++ [y]) ∈ archetypes w → e ∉ l ++ [y] →
  c ∈ components k → c ∈ names →
  ∃ w', immediately_removeComponent e names w = Return tt w'
        ∧ Map_get (archetypes w') k = Some l.
Proof.
  intros Hwf Hin He Hck Hcn.
  destruct (removeComponent_index w e names k _ c Hwf Hin Hck Hcn) as (w' & Hr & Hg).
  exists w'. split; [done|]. by rewrite Hg, splice_absent_drops_last.
Qed.

(** *** The calls that keep the indices exact *)

Lemma for_entries_rewritten body (entries : Map (list EntityRef))
    (ls : Map ListenerRegistry) :
  (for_entries body entries ls).2 = None →
  (for_entries body entries ls).1.1 = rewritten body <$> entries.
Proof.
  revert ls. induction entries as [|[k idx] rest IH]; intros ls; [done|].
  cbn [for_entries]. rewrite fmap_cons. unfold rewritten at 1. simpl.
  destruct (body k idx) as [idx'|].
  - destruct (invoke_listeners ls k) as [ls1|]; simpl; [|done].
    specialize (IH ls1). destruct (for_entries body rest ls1) as [[rest' ls'] err].
    simpl in *. intros Herr. by rewrite IH.
  - specialize (IH ls). destruct (for_entries body rest ls) as [[rest' ls'] err].
    simpl in *. intros Herr. by rewrite IH.
Qed.

(** On a world whose indices all have their listeners a loop returns, with
    every index rewritten by its body and nothing else changed but the
    listener registries. *)
Lemma for_archetypes_entries_tidy body (w : World) :
  (∀ k, k ∈ keys (archetypes w) → k ∈ keys (archetypeChanged w)) →
  ∃ ls, for_archetypes_entries body w
        = Return tt (with_archetypeChanged ls
                       (with_archetypes (rewritten body <$> archetypes w) w))
        ∧ keys ls = keys (archetypeChanged w).
Proof.
  intros Hls. pose proof (for_entries_no_error body _ _ Hls) as Herr.
  pose proof (for_entries_rewritten body _ _ Herr) as Hmap.
  destruct (for_entries_keys body (archetypes w) (archetypeChanged w)) as [_ Hk].
  unfold for_archetypes_entries.
  destruct (for_entries body (archetypes w) (archetypeChanged w)) as [[entries ls] err].
  simpl in *. subst. by exists ls.
Qed.

Lemma keys_rewritten body (entries : Map (list EntityRef)) :
  keys (rewritten body <$> entries) = keys entries.
Proof. unfold keys. rewrite <- list_fmap_compose. done. Qed.

(** Exactness after a loop, index by index. *)
Lemma index_exact_rewritten body (w w' : World) :
  index_exact w →
  archetypes w' = rewritten body <$> archetypes w →
  (∀ k idx, (k, idx) ∈ archetypes w → NoDup idx →
     (∀ e, e ∈ idx ↔ e ∈ entities w ∧ entityIsArchetype (object w e) k = true) →
     NoDup (default idx (body k idx))
     ∧ ∀ e, e ∈ default idx (body k idx) ↔
         e ∈ entities w' ∧ entityIsArchetype (object w' e) k = true) →
  index_exact w'.
Proof.
  intros Hex Ha Hstep k idx'. rewrite Ha.
  intros ([k0 idx] & [= -> ->] & Hin)%list_elem_of_fmap. simpl.
  destruct (Hex k0 idx Hin) as [Hnd Hmem]. by apply Hstep.
Qed.

Lemma object_set_object_ne (e e' : EntityRef) (o : Entity) (w : World) :
  e ≠ e' → object (set_object e o w) e' = object w e'.
Proof. intros Hne. unfold object, set_object. simpl. by rewrite lookup_insert_ne. Qed.

Lemma elem_of_Object_keys (o : Entity) (c : ComponentName) :
  c ∈ Object_keys o ↔ is_Some (o !! c).
Proof.
  unfold Object_keys. rewrite list_elem_of_fmap. split.
  - intros ([c' v] & -> & Hin). apply elem_of_map_to_list in Hin. by exists v.
  - intros [v Hv]. exists (c, v). split; [done|]. by apply elem_of_map_to_list.
Qed.

Lemma entityIsArchetype_true (o : Entity) (k : Archetype) :
  entityIsArchetype o k = true ↔ ∀ c, c ∈ components k → defined o c = true.
Proof.
  unfold entityIsArchetype. rewrite forallb_forall.
  split; intros H c Hc; apply H; by apply list_elem_of_In.
Qed.

Lemma entityIsArchetype_same (o o' : Entity) (k : Archetype) :
  (∀ c, c ∈ components k → o' !! c = o !! c) →
  entityIsArchetype o' k = entityIsArchetype o k.
Proof.
  unfold entityIsArchetype. induction (components k) as [|c cs IH]; intros Hsame;
    [done|].
  simpl. rewrite IH.
  - unfold defined. rewrite (Hsame c); [done|]. apply elem_of_cons. by left.
  - intros c' Hc'. apply Hsame. apply elem_of_cons. by right.
Qed.

Lemma entityIsArchetype_insert (o : Entity) (k : Archetype) (n : ComponentName) d :
  entityIsArchetype o k = true → entityIsArchetype (<[n := Data d]> o) k = true.
Proof.
  rewrite !entityIsArchetype_true. intros H c Hc. specialize (H c Hc).
  unfold defined in *. destruct (decide (n = c)) as [->|Hne].
  - by rewrite lookup_insert_eq.
  - by rewrite lookup_insert_ne.
Qed.

Lemma indexOf_nonneg `{EqDecision A} (l : list A) (x : A) :
  (0 <=? JS.indexOf l x) = true ↔ x ∈ l.
Proof.
  split.
  - intros Hpos. destruct (decide (x ∈ l)) as [|Hx]; [done|].
    rewrite (indexOf_absent_minus_one l x Hx) in Hpos. done.
  - intros (l1 & l2 & -> & Hx)%list_elem_of_split_l.
    unfold JS.indexOf. rewrite indexOf_from_first by done. apply Z.leb_le. lia.
Qed.

(** Splicing a present element out of a list without repetitions removes
    exactly that element. *)
Lemma splice_member `{EqDecision A} (l : list A) (x : A) :
  x ∈ l → NoDup l →
  NoDup (JS.splice l (JS.indexOf l x) 1)
  ∧ ∀ y, y ∈ JS.splice l (JS.indexOf l x) 1 ↔ y ∈ l ∧ y ≠ x.
Proof.
  intros (l1 & l2 & -> & Hx)%list_elem_of_split_l Hnd.
  rewrite splice_at_indexOf by done.
  apply NoDup_app in Hnd as (Hnd1 & Hdis & Hnd2).
  apply NoDup_cons in Hnd2 as [Hx2 Hnd2]. split.
  - apply NoDup_app. split; [done|]. split; [|done].
    intros y Hy1 Hy2. apply (Hdis y Hy1). by right.
  - intros y. rewrite !elem_of_app, elem_of_cons. split.
    + intros [Hy|Hy]; (split; [auto|]); intros ->; done.
    + intros [[Hy|[->|Hy]] Hne]; auto. done.
Qed.

Lemma Map_set_absent {V} (m : Map V) (k : Archetype) (v : V) :
  Map_has m k = false → Map_set m k v = m ++ [(k, v)].
Proof.
  unfold Map_has. induction m as [|[k0 v0] m IH]; cbn [Map_get Map_set]; [done|].
  destruct (same k0 k); [done|]. intros Hm. by rewrite IH.
Qed.

(** What it takes for a world that differs from a tidy one by a loop over
    the indices to be tidy. *)
Lemma tidy_rewritten body (w w' : World) :
  tidy w →
  archetypes w' = rewritten body <$> archetypes w →
  keys (archetypeChanged w') = keys (archetypeChanged w) →
  memoizedArchetypes w' = memoizedArchetypes w →
  NoDup (entities w') →
  (∀ e, e ∈ entities w' → has_property (object w' e) "id" = true) →
  (∀ k idx, (k, idx) ∈ archetypes w → NoDup idx →
     (∀ e, e ∈ idx ↔ e ∈ entities w ∧ entityIsArchetype (object w e) k = true) →
     NoDup (default idx (body k idx))
     ∧ ∀ e, e ∈ default idx (body k idx) ↔
         e ∈ entities w' ∧ entityIsArchetype (object w' e) k = true) →
  tidy w'.
Proof.
  intros [Hex Hnd Hids Hne Hcache Hls] Ha Hl Hm Hnd' Hids' Hstep. split.
  - by apply (index_exact_rewritten body w).
  - done.
  - done.
  - intros k idx'. rewrite Ha.
    intros ([k0 idx] & [= -> ->] & Hin)%list_elem_of_fmap. by apply (Hne k0 idx).
  - by rewrite Hm.
  - rewrite Ha, keys_rewritten, Hl. done.
Qed.

Lemma object_after_loop (ls : Map ListenerRegistry) (m : Map (list EntityRef))
    (w : World) (e : EntityRef) :
  object (with_archetypeChanged ls (with_archetypes m w)) e = object w e.
Proof. reflexivity. Qed.

Lemma tidy_addComponent (w : World) (e : EntityRef) (n : ComponentName) (d : Z) :
  tidy w → e ∈ entities w →
  tidy (world_of (immediately_addComponent e n (Data d) w)).
Proof.
  intros Ht He. pose proof Ht as [Hex Hnd Hids Hne Hcache Hls].
  unfold immediately_addComponent, indexEntityWithNewComponents. run.
  set (w1 := set_object e _ w).
  set (body := fun (archetype : Archetype) (index : list EntityRef) => _).
  destruct (for_archetypes_entries_tidy body w1 Hls) as (ls & -> & Hk).
  assert (object w1 e = <[n := Data d]> (object w e)) as Hobj
    by (unfold w1; apply object_set_object).
  assert (∀ x, x ≠ e → object w1 x = object w x) as Hother.
  { intros x Hx. unfold w1. by rewrite object_set_object_ne. }
  cbn [world_of]. apply (tidy_rewritten body w); try done.
  - intros x Hx. rewrite object_after_loop. destruct (decide (x = e)) as [->|Hxe].
    + rewrite Hobj. unfold has_property.
      specialize (Hids e He). unfold has_property in Hids.
      apply bool_decide_eq_true in Hids. apply bool_decide_eq_true.
      destruct (decide (n = "id")) as [->|?];
        [rewrite lookup_insert_eq | rewrite lookup_insert_ne]; eauto.
    + rewrite Hother by done. by apply Hids.
  - intros k idx Hin Hndi Hmem.
    assert (∀ x, x ≠ e →
              (x ∈ idx ↔ x ∈ entities w ∧ entityIsArchetype (object w1 x) k = true))
      as Hrest.
    { intros x Hx. rewrite Hother by done. apply Hmem. }
    unfold body. destruct (existsb _ (components k)) eqn:EA.
    + destruct (entityIsArchetype (object w1 e) k) eqn:EB; simpl.
      * unfold JS.includes. case_bool_decide as Hei; simpl.
        -- split; [done|]. intros x. rewrite object_after_loop.
           destruct (decide (x = e)) as [->|Hx]; [|by apply Hrest].
           by rewrite EB.
        -- split.
           ++ apply NoDup_app. split; [done|]. split; [|apply NoDup_singleton].
              intros x Hx ->%list_elem_of_singleton. done.
           ++ intros x. rewrite object_after_loop, elem_of_app, list_elem_of_singleton.
              destruct (decide (x = e)) as [->|Hx].
              ** rewrite EB. split; [by intros _|by right].
              ** rewrite (Hrest x Hx). split; [|tauto]. intros [?|?]; [done|congruence].
      * split; [done|]. intros x. rewrite object_after_loop.
        destruct (decide (x = e)) as [->|Hx]; [|by apply Hrest].
        rewrite EB. split; [|by intros [_ ?]]. intros Hei. exfalso.
        apply Hmem in Hei as [_ Hold].
        rewrite Hobj, (entityIsArchetype_insert _ k n d Hold) in EB. done.
    + split; [done|]. intros x. rewrite object_after_loop.
      destruct (decide (x = e)) as [->|Hx]; [|by apply Hrest].
      rewrite Hobj, (entityIsArchetype_same (object w e)); [apply Hmem|].
      intros c Hc. apply lookup_insert_ne. intros ->.
      rewrite <- not_true_iff_false in EA. apply EA.
      apply existsb_exists. exists c. split; [by apply list_elem_of_In|].
      unfold JS.includes. apply bool_decide_eq_true. by apply list_elem_of_singleton.
Qed.

Lemma tidy_addEntity (w : World) (e : EntityRef) :
  tidy w → tidy (world_of (immediately_addEntity e w)).
Proof.
  intros Ht. pose proof Ht as [Hex Hnd Hids Hne Hcache Hls].
  unfold immediately_addEntity, nextId_call, indexEntityWithNewComponents. run.
  destruct (has_property (object w e) "id") eqn:Hid; [done|]. simpl.
  set (w1 := with_entities _ _).
  set (body := fun (archetype : Archetype) (index : list EntityRef) => _).
  destruct (for_archetypes_entries_tidy body w1 Hls) as (ls & -> & Hk).
  assert (e ∉ entities w) as He.
  { intros He. apply Hids in He. congruence. }
  assert (object w1 e = <["id" := Data (nextId w)]> (object w e)) as Hobj.
  { unfold object, w1. simpl. by rewrite lookup_insert_eq. }
  assert (∀ x, x ≠ e → object w1 x = object w x) as Hother.
  { intros x Hx. unfold object, w1. simpl. by rewrite lookup_insert_ne. }
  assert (entities w1 = entities w ++ [e]) as Hent by done.
  cbn [world_of]. apply (tidy_rewritten body w); try done.
  - change (NoDup (entities w1)). rewrite Hent.
    apply NoDup_app. split; [done|]. split; [|apply NoDup_singleton].
    intros x Hx ->%list_elem_of_singleton. done.
  - intros x. change (x ∈ entities w1 → has_property (object w1 x) "id" = true).
    rewrite Hent, elem_of_app, list_elem_of_singleton.
    destruct (decide (x = e)) as [->|Hx].
    + intros _. rewrite Hobj. unfold has_property. apply bool_decide_eq_true.
      rewrite lookup_insert_eq. eauto.
    + rewrite Hother by done. intros [?|?]; [by apply Hids | done].
  - intros k idx Hin Hndi Hmem.
    assert (e ∉ idx) as Hei by (intros [? _]%Hmem; done).
    assert (∀ x, x ≠ e →
              (x ∈ idx ↔ x ∈ entities w1 ∧ entityIsArchetype (object w1 x) k = true))
      as Hrest.
    { intros x Hx. rewrite Hother, Hent, elem_of_app, list_elem_of_singleton by done.
      rewrite Hmem. split; [tauto|]. intros [[?|?] ?]; [done|congruence]. }
    assert (e ∈ entities w1) as He1.
    { rewrite Hent, elem_of_app, list_elem_of_singleton. by right. }
    change (NoDup (default idx (body k idx))
            ∧ ∀ x, x ∈ default idx (body k idx) ↔
                x ∈ entities w1 ∧ entityIsArchetype (object w1 x) k = true).
    unfold body. destruct (existsb _ (components k)) eqn:EA.
    + destruct (entityIsArchetype (object w1 e) k) eqn:EB; simpl.
      * unfold JS.includes. rewrite bool_decide_eq_false_2 by done. simpl. split.
        -- apply NoDup_app. split; [done|]. split; [|apply NoDup_singleton].
           intros x Hx ->%list_elem_of_singleton. done.
        -- intros x. rewrite elem_of_app, list_elem_of_singleton.
           destruct (decide (x = e)) as [->|Hx].
           ++ rewrite EB. split; [by intros _|by right].
           ++ rewrite (Hrest x Hx). split; [|tauto]. intros [?|?]; [done|congruence].
      * split; [done|]. intros x.
        destruct (decide (x = e)) as [->|Hx]; [|by apply Hrest].
        rewrite EB. split; [done|by intros [_ ?]].
    + split; [done|]. intros x.
      destruct (decide (x = e)) as [->|Hx]; [|by apply Hrest].
      split; [done|]. intros [_ Hm]. exfalso.
      destruct (components k) as [|c cs] eqn:Ek; [by apply (Hne k idx Hin)|].
      rewrite entityIsArchetype_true in Hm. specialize (Hm c).
      rewrite Ek in Hm. specialize (Hm ltac:(apply elem_of_cons; by left)).
      simpl in EA. apply orb_false_iff in EA as [EA _].
      unfold JS.includes in EA. apply bool_decide_eq_false in EA.
      apply EA. apply elem_of_Object_keys. unfold defined in Hm.
      destruct (object w1 e !! c); [eauto|done].
Qed.

Lemma tidy_removeEntity (w : World) (e : EntityRef) :
  tidy w → e ∈ entities w → tidy (world_of (immediately_removeEntity e w)).
Proof.
  intros Ht He. pose proof Ht as [Hex Hnd Hids Hne Hcache Hls].
  unfold immediately_removeEntity, removeEntityFromAllIndices. run.
  set (body := fun (archetype : Archetype) (index : list EntityRef) => _).
  destruct (for_archetypes_entries_tidy body w Hls) as (ls & -> & Hk).
  cbn [world_of].
  set (w' := with_entities _ _).
  assert (entities w' = JS.splice (entities w) (JS.indexOf (entities w) e) 1) as Hent
    by done.
  assert (∀ x, x ≠ e → object w' x = object w x) as Hother.
  { intros x Hx. unfold object, w'. simpl. by rewrite lookup_insert_ne. }
  destruct (splice_member (entities w) e He Hnd) as [Hnd' Hmem'].
  rewrite <- Hent in Hnd', Hmem'.
  apply (tidy_rewritten body w); try done.
  - intros x [Hx Hxe]%Hmem'. rewrite Hother by done. by apply Hids.
  - intros k idx Hin Hndi Hmem. unfold body.
    destruct (0 <=? JS.indexOf idx e) eqn:Epos; simpl.
    + apply indexOf_nonneg in Epos.
      destruct (splice_member idx e Epos Hndi) as [Hnds Hmems]. split; [done|].
      intros x. rewrite <- ?Hent. rewrite Hmems, Hmem', Hmem.
      destruct (decide (x = e)) as [->|Hx].
      * split; [intros [_ ?]; done | intros [[_ ?] _]; done].
      * rewrite Hother by done. tauto.
    + split; [done|]. intros x. rewrite <- ?Hent. rewrite Hmem', Hmem.
      destruct (decide (x = e)) as [->|Hx].
      * split; [|intros [[_ ?] _]; done]. intros Hei%Hmem.
        apply indexOf_nonneg in Hei. congruence.
      * rewrite Hother by done. tauto.
Qed.

Lemma tidy_removeComponent (w : World) (e : EntityRef) (names : list ComponentName) :
  tidy w → "id" ∉ names →
  (∀ k idx, (k, idx) ∈ archetypes w →
     (∃ c, c ∈ components k ∧ c ∈ names) → e ∈ idx) →
  tidy (world_of (immediately_removeComponent e names w)).
Proof.
  intros Ht Hid Hguard. pose proof Ht as [Hex Hnd Hids Hne Hcache Hls].
  unfold immediately_removeComponent, indexEntityWithRemovedComponents. run.
  set (w1 := set_object e _ w).
  set (body := fun (archetype : Archetype) (index : list EntityRef) => _).
  destruct (for_archetypes_entries_tidy body w1 Hls) as (ls & -> & Hk).
  assert (object w1 e = foldl (fun o name => delete name o) (object w e) names) as Hobj
    by (unfold w1; apply object_set_object).
  assert (∀ x, x ≠ e → object w1 x = object w x) as Hother.
  { intros x Hx. unfold w1. by rewrite object_set_object_ne. }
  cbn [world_of]. apply (tidy_rewritten body w); try done.
  - intros x Hx. rewrite object_after_loop. destruct (decide (x = e)) as [->|Hxe].
    + rewrite Hobj. specialize (Hids e Hx). unfold has_property in *.
      apply bool_decide_eq_true. apply bool_decide_eq_true in Hids.
      by rewrite not_deleted_is_kept.
    + rewrite Hother by done. by apply Hids.
  - intros k idx Hin Hndi Hmem.
    assert (∀ x, x ≠ e →
              (x ∈ idx ↔ x ∈ entities w ∧ entityIsArchetype (object w1 x) k = true))
      as Hrest.
    { intros x Hx. rewrite Hother by done. apply Hmem. }
    unfold body. destruct (existsb _ (components k)) eqn:EA.
    + apply existsb_exists in EA as (c & Hck%list_elem_of_In & Hcn).
      unfold JS.includes in Hcn. apply bool_decide_eq_true in Hcn.
      assert (entityIsArchetype (object w1 e) k = false) as EB.
      { apply (entityIsArchetype_missing _ k c Hck). rewrite Hobj.
        by apply deleted_is_absent. }
      rewrite EB. simpl.
      assert (e ∈ idx) as Hei by (apply (Hguard k idx Hin); eauto).
      destruct (splice_member idx e Hei Hndi) as [Hnds Hmems]. split; [done|].
      intros x. rewrite object_after_loop, Hmems.
      destruct (decide (x = e)) as [->|Hx].
      * rewrite EB. split; [intros [_ ?]; done | intros [_ ?]; done].
      * rewrite (Hrest x Hx). tauto.
    + split; [done|]. intros x. rewrite object_after_loop.
      destruct (decide (x = e)) as [->|Hx]; [|by apply Hrest].
      rewrite Hobj, (entityIsArchetype_same (object w e)); [apply Hmem|].
      intros c Hc. apply not_deleted_is_kept. intros Hcn.
      rewrite <- not_true_iff_false in EA. apply EA.
      apply existsb_exists. exists c. split; [by apply list_elem_of_In|].
      unfold JS.includes. by apply bool_decide_eq_true.
Qed.

Lemma sort_nonempty (l : list ComponentName) : l ≠ [] → JS.sort l ≠ [].
Proof.
  intros Hl Hs. apply Hl. apply Permutation_nil_r. rewrite <- Hs.
  symmetry. apply sort_Permutation.
Qed.

Lemma tidy_createArchetype (w : World) (l : list ComponentName) :
  tidy w → l ≠ [] → tidy (world_of (createArchetype l w)).
Proof.
  intros Ht Hl. pose proof Ht as [Hex Hnd Hids Hne Hcache Hls].
  pose proof (sort_nonempty l Hl) as Hsort.
  assert (∀ (w' : World) (a : Archetype),
    components a ≠ [] →
    entities w' = entities w → heap w' = heap w →
    (∀ key b, memoizedArchetypes w' !! key = Some b → components b ≠ []) →
    (Map_has (archetypes w) a = true ∧ archetypes w' = archetypes w
       ∧ archetypeChanged w' = archetypeChanged w
     ∨ Map_has (archetypes w) a = false
       ∧ archetypes w'
         = Map_set (archetypes w) a
             (List.filter (fun entity => entityIsArchetype (object w entity) a)
                (entities w))
       ∧ archetypeChanged w' = Map_set (archetypeChanged w) a new_ListenerRegistry) →
    tidy w') as Hshape.
  { intros w' a Ha He Hh Hm Hcase.
    assert (∀ x, object w' x = object w x) as Hobj
      by (intros x; unfold object; by rewrite Hh).
    destruct Hcase as [(Hhas & Harch & Hlis)|(Hhas & Harch & Hlis)].
    - split; try done.
      + intros k idx. rewrite Harch. intros Hin. destruct (Hex k idx Hin) as [? Hmem].
        split; [done|]. intros x. by rewrite He, Hobj.
      + by rewrite He.
      + intros x. rewrite He, Hobj. apply Hids.
      + intros k idx. rewrite Harch. apply Hne.
      + by rewrite Harch, Hlis.
    - rewrite Map_set_absent in Harch by done. split.
      + intros k idx. rewrite Harch, elem_of_app, list_elem_of_singleton.
        intros [Hin|[= -> ->]].
        * destruct (Hex k idx Hin) as [? Hmem].
          split; [done|]. intros x. by rewrite He, Hobj.
        * split; [by apply NoDup_ListNoDup, List.NoDup_filter, NoDup_ListNoDup|].
          intros x. rewrite He, Hobj, list_elem_of_In, filter_In, <- list_elem_of_In.
          done.
      + by rewrite He.
      + intros x. rewrite He, Hobj. apply Hids.
      + intros k idx. rewrite Harch, elem_of_app, list_elem_of_singleton.
        intros [Hin|[= -> ->]]; [by apply (Hne k idx)|done].
      + done.
      + intros k. rewrite Harch, Hlis. unfold keys at 1. rewrite fmap_app.
        rewrite keys_Map_set, elem_of_app. simpl. rewrite list_elem_of_singleton.
        destruct (Map_has (archetypeChanged w) a) eqn:El.
        * apply Map_has_true in El. intros [?| ->]; [by apply Hls|done].
        * rewrite elem_of_app, list_elem_of_singleton. intros [?| ->]; [left|right];
            [by apply Hls|done]. }
  unfold_createArchetype.
  destruct (memoizedArchetypes w !! _) as [cached|] eqn:Em; simpl.
  - destruct (Map_has (archetypes w) cached) eqn:Eh; simpl;
      apply (Hshape _ cached); try done; eauto.
  - destruct (Map_has (archetypes w) _) eqn:Eh; simpl.
    + apply (Hshape _ {| identity := allocated w; components := JS.sort l |} Hsort);
        try done.
      * simpl. intros key b. destruct (decide (memoizedMap_key (JS.sort l) = key)) as [<-|].
        -- rewrite lookup_insert_eq. by intros [= <-].
        -- rewrite lookup_insert_ne by done. apply Hcache.
      * left. done.
    + apply (Hshape _ {| identity := allocated w; components := JS.sort l |} Hsort);
        try done.
      * simpl. intros key b. destruct (decide (memoizedMap_key (JS.sort l) = key)) as [<-|].
        -- rewrite lookup_insert_eq. by intros [= <-].
        -- rewrite lookup_insert_ne by done. apply Hcache.
      * right. done.
Qed.

Lemma tidy_same (w w' : World) :
  tidy w →
  heap w' = heap w → entities w' = entities w → archetypes w' = archetypes w →
  archetypeChanged w' = archetypeChanged w →
  memoizedArchetypes w' = memoizedArchetypes w →
  tidy w'.
Proof.
  intros [Hex Hnd Hids Hne Hcache Hls] Hh He Ha Hl Hm.
  assert (∀ x, object w' x = object w x) as Hobj
    by (intros x; unfold object; by rewrite Hh).
  split.
  - intros k idx. rewrite Ha. intros Hin. destruct (Hex k idx Hin) as [? Hmem].
    split; [done|]. intros x. by rewrite He, Hobj.
  - by rewrite He.
  - intros x. rewrite He, Hobj. apply Hids.
  - intros k idx. rewrite Ha. apply Hne.
  - by rewrite Hm.
  - by rewrite Ha, Hl.
Qed.

Lemma tidy_createWorld (h : gmap EntityRef Entity) : tidy (with_heap h createWorld).
Proof.
  split; simpl.
  - by intros k idx ?%elem_of_nil.
  - apply NoDup_nil_2.
  - by intros x ?%elem_of_nil.
  - by intros k idx ?%elem_of_nil.
  - intros key a. by rewrite lookup_empty.
  - by intros k ?%elem_of_nil.
Qed.

(** A proper call leaves the store in order. *)
Lemma tidy_after (w : World) (c : Call) : tidy w → proper w c → tidy (after c w).
Proof.
  intros Ht Hp. unfold after. destruct c as [l|a|a|l|c|c| |]; simpl in *.
  - pose proof (tidy_createArchetype w l Ht Hp) as H.
    run. by destruct (createArchetype l w).
  - done.
  - unfold getOne. run. by destruct (Map_get (archetypes w) a).
  - pose proof (tidy_createArchetype w l Ht Hp) as H.
    unfold getWith, get. run. by destruct (createArchetype l w).
  - destruct c as [e|e|e n d|e names].
    + pose proof (tidy_addEntity w e Ht) as H.
      simpl. run. by destruct (immediately_addEntity e w).
    + by apply tidy_removeEntity.
    + destruct Hp as [He Hd]. destruct d as [|d]; [done|]. by apply tidy_addComponent.
    + destruct Hp as [Hid Hguard]. by apply tidy_removeComponent.
  - rewrite defer_eq. by apply (tidy_same w).
  - rewrite flush_eq, Hp. simpl. by apply (tidy_same w).
  - destruct Ht as [Hex Hnd Hids Hne Hcache Hls]. split; simpl; try done;
      try apply NoDup_nil_2; try (by intros k idx ?%elem_of_nil);
      by intros x ?%elem_of_nil.
Qed.

(** X14.  The indices stay exact through every program of proper calls: the
    store does maintain its indices, as long as no component is removed from
    an entity that is missing from an index concerned and no entity is
    removed that is not in the store. *)
Lemma index_exact_maintained (h : gmap EntityRef Entity) (cs : list Call) :
  proper_all (with_heap h createWorld) cs →
  index_exact (after_all cs (with_heap h createWorld)).
Proof.
  intros Hp. apply tidy_exact.
  pose proof (tidy_createWorld h) as Ht. revert Ht Hp.
  generalize (with_heap h createWorld) as w.
  induction cs as [|c cs IH]; intros w Ht Hp; [done|].
  destruct Hp as [Hc Hp]. simpl. apply IH; [by apply tidy_after | done].
Qed.

(** X17.  Removing an entity that is not on the master list costs the list
    its last entity: this splice is not guarded either. *)
Lemma removeEntity_stranger (w : World) (e y : EntityRef) (l : list EntityRef) :
  well_formed w → entities w = l ++ [y] → e ∉ l ++ [y] →
  ∃ w', immediately_removeEntity e w = Return tt w' ∧ entities w' = l.
Proof.
  intros [_ Hls] Hent He.
  unfold immediately_removeEntity, removeEntityFromAllIndices. run.
  set (body := fun (archetype : Archetype) (index : list EntityRef) => _).
  destruct (for_archetypes_entries_tidy body w Hls) as (ls & -> & _).
  eexists. split; [reflexivity|]. simpl. rewrite Hent.
  by apply splice_absent_drops_last.
Qed.

(** *** Where the code departs from the specification *)

(** C1 (code bug).  Two entities are in the store, [1] with component "a"
    and [2] with "a" and "b", and the archetype ("a", "b") is registered: its
    index is [[2]] and the indices are exact.  [immediately.removeComponent(1,
    "a")] finds that [1] does not match ("a", "b"), takes [indexOf], which is
    -1, and splices at -1: the last entry of the index goes.  Entity [2] is
    still on the master list and still has both components, but the index is
    empty. *)
Theorem removeComponent_breaks_exactness :
  let ab := {| identity := 0; components := ["a"; "b"] |} in
  let w0 := with_heap {[ 1%nat := {[ "a" := Data 1 ]};
                         2%nat := {[ "a" := Data 1; "b" := Data 2 ]} ]} createWorld in
  let w1 := after_all [call_createArchetype ["a"; "b"];
                       call_immediately (AddEntity 1%nat);
                       call_immediately (AddEntity 2%nat)] w0 in
  let w2 := after (call_immediately (RemoveComponent 1%nat ["a"])) w1 in
  archetypes w1 = [(ab, [2%nat])] ∧ entities w1 = [1%nat; 2%nat]
  ∧ archetypes w2 = [(ab, [])] ∧ entities w2 = [1%nat; 2%nat]
  ∧ entityIsArchetype (object w2 2%nat) ab = true
  ∧ ¬ index_exact w2.
Proof.
  intros ab w0 w1 w2.
  assert (archetypes w2 = [(ab, [])]) as Ha by (vm_compute; reflexivity).
  assert (entities w2 = [1%nat; 2%nat]) as He by (vm_compute; reflexivity).
  assert (entityIsArchetype (object w2 2%nat) ab = true) as Hm by (vm_compute; reflexivity).
  split; [vm_compute; reflexivity|]. split; [vm_compute; reflexivity|].
  split; [exact Ha|]. split; [exact He|]. split; [exact Hm|].
  intros Hex. destruct (Hex ab []) as [_ Hin].
  { rewrite Ha. apply list_elem_of_singleton. done. }
  assert (2%nat ∈ @nil EntityRef) as Hbad.
  { apply Hin. split; [|exact Hm]. rewrite He, !elem_of_cons. auto. }
  by apply elem_of_nil in Hbad.
Qed.

(** C2 (code bug).  With the archetypes ("a") and ("a", "b") registered,
    [immediately.removeComponent(1, "a")] takes entity [1] out of the index
    of ("a"), where it was, and takes entity [2] out of the index of
    ("a", "b"), where [1] never was; the listeners of both are invoked. *)
Theorem removeComponent_removes_other_entity :
  let a := {| identity := 0; components := ["a"] |} in
  let ab := {| identity := 1; components := ["a"; "b"] |} in
  let w0 := with_heap {[ 1%nat := {[ "a" := Data 1 ]};
                         2%nat := {[ "a" := Data 1; "b" := Data 2 ]} ]} createWorld in
  let w1 := after_all [call_createArchetype ["a"];
                       call_createArchetype ["b"; "a"];
                       call_immediately (AddEntity 1%nat);
                       call_immediately (AddEntity 2%nat)] w0 in
  archetypes w1 = [(a, [1%nat; 2%nat]); (ab, [2%nat])]
  ∧ ∃ w2, immediately_removeComponent 1%nat ["a"] w1 = Return tt w2
          ∧ archetypes w2 = [(a, [2%nat]); (ab, [])]
          ∧ notifications w2 a = S (notifications w1 a)
          ∧ notifications w2 ab = S (notifications w1 ab).
Proof.
  intros a ab w0 w1. split; [vm_compute; reflexivity|].
  eexists. split; [vm_compute; reflexivity|].
  repeat split; vm_compute; reflexivity.
Qed.

(** C5 (code bug).  Entity [1] has "position", entity [2] has "health" and
    sits in the index of ("health"); entity [3] was never added.  Removing
    "health" from [1], which does not have it, empties the index of
    ("health").  Removing [3], which is not in the store, drops [2], the last
    entity, from the master list.  Neither call throws.  (Asking for the
    index of an archetype nothing matches does return the empty list.) *)
Theorem removing_what_is_absent_is_no_noop :
  let health := {| identity := 0; components := ["health"] |} in
  let w0 := with_heap {[ 1%nat := {[ "position" := Data 1 ]};
                         2%nat := {[ "health" := Data 9 ]} ]} createWorld in
  let w1 := after_all [call_createArchetype ["health"];
                       call_immediately (AddEntity 1%nat);
                       call_immediately (AddEntity 2%nat)] w0 in
  archetypes w1 = [(health, [2%nat])] ∧ entities w1 = [1%nat; 2%nat]
  ∧ defined (object w1 1%nat) "health" = false
  ∧ (∃ w2, immediately_removeComponent 1%nat ["health"] w1 = Return tt w2
           ∧ archetypes w2 = [(health, [])] ∧ entities w2 = [1%nat; 2%nat])
  ∧ (∃ w3, immediately_removeEntity 3%nat w1 = Return tt w3
           ∧ entities w3 = [1%nat] ∧ archetypes w3 = [(health, [2%nat])])
  ∧ (∃ arch w4, createArchetype ["mana"] w1 = Return arch w4
                ∧ get arch w4 = Return (Some []) w4).
Proof.
  intros health w0 w1.
  split; [vm_compute; reflexivity|]. split; [vm_compute; reflexivity|].
  split; [vm_compute; reflexivity|]. split; [|split].
  - eexists. split; [vm_compute; reflexivity|]. split; vm_compute; reflexivity.
  - eexists. split; [vm_compute; reflexivity|]. split; vm_compute; reflexivity.
  - eexists _, _. split; vm_compute; reflexivity.
Qed.

(** C6 (code bug).  The archetype ("a", "b") is registered; [addEntity(1)],
    [addEntity(2)] and [removeComponent(1, "a")] are deferred, where [1] has
    "a" and [2] has "a" and "b".  Until the flush nothing has changed: the
    master list and the index are empty and no listener has been invoked.
    [flush()] runs the three commands in this order and empties the queue.
    The flushed [removeComponent] finds that [1] does not match ("a", "b"),
    where it never was, and splices the index at -1: entity [2] leaves the
    index although it is on the master list and holds both components.  A
    second deferred [removeComponent(1, "a")], flushed, leaves every index as
    it is, and still the listeners of ("a", "b") are invoked: a notification
    without a membership change. *)
Theorem flushed_removeComponent_misnotifies :
  let ab := {| identity := 0; components := ["a"; "b"] |} in
  let w0 := with_heap {[ 1%nat := {[ "a" := Data 1 ]};
                         2%nat := {[ "a" := Data 1; "b" := Data 2 ]} ]} createWorld in
  let w1 := after (call_createArchetype ["a"; "b"]) w0 in
  let w2 := defer_all [AddEntity 1%nat; AddEntity 2%nat;
                       RemoveComponent 1%nat ["a"]] w1 in
  entities w2 = [] ∧ archetypes w2 = [(ab, [])] ∧ notifications w2 ab = 0%nat
  ∧ heap w2 = heap w1
  ∧ (∃ w, call_each [AddEntity 1%nat; AddEntity 2%nat] (with_queue [] w1)
          = Return tt w
          ∧ archetypes w = [(ab, [2%nat])] ∧ notifications w ab = 1%nat)
  ∧ ∃ w3, flush w2 = Return tt w3
          ∧ queue w3 = []
          ∧ entities w3 = [1%nat; 2%nat]
          ∧ entityIsArchetype (object w3 2%nat) ab = true
          ∧ archetypes w3 = [(ab, [])]
          ∧ notifications w3 ab = 2%nat
          ∧ ∃ w4, flush (defer_all [RemoveComponent 1%nat ["a"]] w3) = Return tt w4
                  ∧ entities w4 = entities w3
                  ∧ archetypes w4 = archetypes w3
                  ∧ notifications w4 ab = 3%nat.
Proof.
  intros ab w0 w1 w2.
  split; [vm_compute; reflexivity|]. split; [vm_compute; reflexivity|].
  split; [vm_compute; reflexivity|]. split; [vm_compute; reflexivity|].
  split.
  { eexists. split; [vm_compute; reflexivity|]. split; vm_compute; reflexivity. }
  eexists. split; [vm_compute; reflexivity|].
  repeat (split; [vm_compute; reflexivity|]).
  eexists. split; [vm_compute; reflexivity|].
  repeat split; vm_compute; reflexivity.
Qed.

End EcsFacts.

(** * Further properties *)

(** ** The cache key of the predicate constructors *)

Section KeyFacts.

Import Predicates.

Lemma canonical_StronglySorted (l : list string) :
  StronglySorted String.le (canonical l).
Proof.
  unfold canonical, JS.Set_values.
  eapply StronglySorted_sublist; [apply Set_values_from_sublist|].
  eapply StronglySorted_sublist; [apply filter_sublist|].
  apply Sorted_StronglySorted; [apply _|]. apply sort_Sorted.
Qed.

Lemma canonical_NoDup (l : list string) : NoDup (canonical l).
Proof. apply Set_values_from_NoDup. Qed.

(** X1.  Two name lists get the same cache key exactly when they list the
    same non-empty names: order, repetitions and empty names do not matter,
    and nothing else is forgotten. *)
Theorem key_same_iff_same_names (l1 l2 : list string) :
  key l1 = key l2 ↔ ∀ c, c ≠ "" → (c ∈ l1 ↔ c ∈ l2).
Proof.
  split.
  - intros Hkey%JSON_stringify_inj c Hc.
    assert (∀ l, c ∈ l ↔ c ∈ canonical l) as Hcan.
    { intros l. rewrite elem_of_canonical. split; [by intros ?|by intros [? _]]. }
    by rewrite (Hcan l1), (Hcan l2), Hkey.
  - intros Hsame. unfold key. f_equal.
    apply (StronglySorted_unique String.le); [apply canonical_StronglySorted..|].
    apply NoDup_Permutation; [apply canonical_NoDup..|].
    intros c. rewrite !elem_of_canonical. split; intros [Hin Hc]; (split; [|done]);
      by apply (Hsame c Hc).
Qed.

End KeyFacts.

(** ** Sharing of predicate functions *)

Section SharingFacts.

Import Predicates.

Lemma filed_result (c : Call) (st : Stores) (s : Slot) :
  slot_of c = Some s → filed (perform c st).2 s = Some (perform c st).1.
Proof.
  destruct c; intros [= <-]; simpl;
    [apply not_cached | apply all_cached | apply any_cached | apply none_cached].
Qed.

Lemma filed_hit (c : Call) (st : Stores) (s : Slot) (f : Predicate) :
  slot_of c = Some s → filed st s = Some f → (perform c st).1 = f.
Proof.
  destruct c; intros [= <-]; simpl;
    [apply not_hit | apply all_hit | apply any_hit | apply none_hit].
Qed.

Lemma filed_keeps (c : Call) (st : Stores) (s : Slot) (f : Predicate) :
  filed st s = Some f → filed (perform c st).2 s = Some f.
Proof.
  destruct s; simpl;
    [apply perform_keeps_not | apply perform_keeps_all
     | apply perform_keeps_any | apply perform_keeps_none].
Qed.

Lemma filed_keeps_all (cs : list Call) (st : Stores) (s : Slot) (f : Predicate) :
  filed st s = Some f → filed (perform_all cs st) s = Some f.
Proof.
  destruct (perform_all_keeps cs st) as (Ha & Hy & Hn & Ht).
  destruct s; simpl; auto.
Qed.

(** What a call files is filed under its slot and is the function object the
    call has just created. *)
Lemma filed_new (c : Call) (st : Stores) (s : Slot) (f : Predicate) :
  filed (perform c st).2 s = Some f →
  filed st s = Some f ∨ (f = length (functions st) ∧ slot_of c = Some s).
Proof.
  destruct c as [body|p|l|l|l]; simpl.
  - destruct s; by left.
  - unfold not. simpl.
    pose proof (memoize_inv (stores_not st) p) as Hm.
    destruct (memoize (stores_not st) p (length (functions st))) as [g store] eqn:E.
    destruct s as [q|k|k|k]; simpl; try by left.
    intros Hq. specialize (Hm q (length (functions st)) f). rewrite E in Hm.
    destruct (Hm Hq) as [?|[-> ->]]; [by left|by right].
  - unfold all. simpl.
    pose proof (memoize_inv (stores_all st) (key l)) as Hm.
    destruct (memoize (stores_all st) (key l) (length (functions st))) as [g store] eqn:E.
    destruct s as [q|k|k|k]; simpl; try by left.
    intros Hq. specialize (Hm k (length (functions st)) f). rewrite E in Hm.
    destruct (Hm Hq) as [?|[-> ->]]; [by left|by right].
  - unfold any. simpl.
    pose proof (memoize_inv (stores_any st) (key l)) as Hm.
    destruct (memoize (stores_any st) (key l) (length (functions st))) as [g store] eqn:E.
    destruct s as [q|k|k|k]; simpl; try by left.
    intros Hq. specialize (Hm k (length (functions st)) f). rewrite E in Hm.
    destruct (Hm Hq) as [?|[-> ->]]; [by left|by right].
  - unfold none. simpl.
    pose proof (memoize_inv (stores_none st) (key l)) as Hm.
    destruct (memoize (stores_none st) (key l) (length (functions st))) as [g store] eqn:E.
    destruct s as [q|k|k|k]; simpl; try by left.
    intros Hq. specialize (Hm k (length (functions st)) f). rewrite E in Hm.
    destruct (Hm Hq) as [?|[-> ->]]; [by left|by right].
Qed.

Lemma unshared_initial : unshared initial.
Proof.
  split.
  - intros [p|k|k|k] f; simpl; by rewrite lookup_empty.
  - intros [p|k|k|k] s2 f; simpl; by rewrite lookup_empty.
Qed.

Lemma unshared_perform (c : Call) (st : Stores) :
  unshared st → unshared (perform c st).2.
Proof.
  intros [Hlt Hinj]. destruct (perform_functions c st) as [body Hf]. split.
  - intros s f Hs. rewrite Hf, length_app. simpl.
    destruct (filed_new c st s f Hs) as [Hold|[-> _]]; [|lia].
    specialize (Hlt s f Hold). lia.
  - intros s1 s2 f H1 H2.
    destruct (filed_new c st s1 f H1) as [Ho1|[Hf1 Hc1]];
      destruct (filed_new c st s2 f H2) as [Ho2|[Hf2 Hc2]].
    + by apply (Hinj s1 s2 f).
    + specialize (Hlt s1 f Ho1). lia.
    + specialize (Hlt s2 f Ho2). lia.
    + congruence.
Qed.

Lemma unshared_perform_all (cs : list Call) (st : Stores) :
  unshared st → unshared (perform_all cs st).
Proof.
  intros Hu. induction cs as [|c cs IH] using rev_ind; [done|].
  rewrite perform_all_snoc. by apply unshared_perform.
Qed.

(** X2.  In any program, two constructor calls return the same function
    object exactly when they file under the same slot: the same constructor
    with the same key (for [not], the same predicate).  Different
    constructors never share a function, nor do different keys. *)
Theorem constructors_share_by_slot (cs0 cs : list Call) (c1 c2 : Call) (s1 s2 : Slot) :
  slot_of c1 = Some s1 → slot_of c2 = Some s2 →
  (perform c2 (perform_all cs (perform c1 (perform_all cs0 initial)).2)).1
  = (perform c1 (perform_all cs0 initial)).1
  ↔ s1 = s2.
Proof.
  intros H1 H2.
  set (st := perform_all cs0 initial).
  set (st' := perform_all cs (perform c1 st).2).
  assert (filed st' s1 = Some (perform c1 st).1) as Hf1
    by (by apply filed_keeps_all, filed_result).
  split.
  - intros Heq.
    assert (unshared (perform c2 st').2) as [_ Hinj].
    { apply unshared_perform, unshared_perform_all, unshared_perform,
        unshared_perform_all, unshared_initial. }
    apply (Hinj s1 s2 (perform c1 st).1).
    + by apply filed_keeps.
    + rewrite <- Heq. by apply filed_result.
  - intros <-. by apply (filed_hit c2 st' s1).
Qed.

Lemma constructors_share_by_slot_witness :
  let cs0 := [call_any ["a"]] in
  let cs := [call_none ["b"]; call_not 0%nat] in
  ((perform (call_all ["b"; "a"; "a"])
      (perform_all cs (perform (call_all ["a"; "b"]) (perform_all cs0 initial)).2)).1
   = (perform (call_all ["a"; "b"]) (perform_all cs0 initial)).1
   ↔ slot_all (key ["a"; "b"]) = slot_all (key ["b"; "a"; "a"]))
  ∧ ((perform (call_any ["a"; "b"])
        (perform_all cs (perform (call_all ["a"; "b"]) (perform_all cs0 initial)).2)).1
     = (perform (call_all ["a"; "b"]) (perform_all cs0 initial)).1
     ↔ slot_all (key ["a"; "b"]) = slot_any (key ["a"; "b"])).
Proof.
  intros cs0 cs. split.
  - exact (constructors_share_by_slot cs0 cs (call_all ["a"; "b"])
             (call_all ["b"; "a"; "a"]) _ _ eq_refl eq_refl).
  - exact (constructors_share_by_slot cs0 cs (call_all ["a"; "b"])
             (call_any ["a"; "b"]) _ _ eq_refl eq_refl).
Defined.

End SharingFacts.

(** ** What the predicates compute, whatever was cached before *)

Section PresenceFacts.

Import Predicates.

Lemma key_names (l1 l2 : list string) (c : string) :
  key l1 = key l2 → c ≠ "" → c ∈ l1 → c ∈ l2.
Proof.
  intros Hk Hne Hin. apply JSON_stringify_inj in Hk.
  apply (elem_of_canonical l2 c). rewrite <- Hk. by apply elem_of_canonical.
Qed.

Lemma any_tests (st : Stores) (names : list string) :
  reachable (fun _ => True) st →
  ∃ l bf, key names = key l
          ∧ functions (any names st).2 !! (any names st).1 = Some bf
          ∧ ∀ e, bf e = existsb (Ecs.defined e) (JS.sort l).
Proof.
  intros Hr. apply reachable_consistent in Hr.
  pose proof (consistent_perform _ st (call_any names) Hr I) as Hc'.
  destruct (consistent_any _ _ Hc' _ _ (any_cached names st))
    as (l & bf & _ & Hk & Hbf & Hsem).
  by exists l, bf.
Qed.

Lemma none_tests (st : Stores) (names : list string) :
  reachable (fun _ => True) st →
  ∃ l bf, key names = key l
          ∧ functions (none names st).2 !! (none names st).1 = Some bf
          ∧ ∀ e, bf e = forallb (fun c => negb (Ecs.defined e c)) (JS.sort l).
Proof.
  intros Hr. apply reachable_consistent in Hr.
  pose proof (consistent_perform _ st (call_none names) Hr I) as Hc'.
  destruct (consistent_none _ _ Hc' _ _ (none_cached names st))
    as (l & bf & _ & Hk & Hbf & Hsem).
  by exists l, bf.
Qed.

Lemma all_tests (st : Stores) (names : list string) :
  reachable (fun _ => True) st →
  ∃ l bf, key names = key l
          ∧ functions (all names st).2 !! (all names st).1 = Some bf
          ∧ ∀ e, bf e = forallb (Ecs.defined e) (JS.sort l).
Proof.
  intros Hr. apply reachable_consistent in Hr.
  pose proof (consistent_perform _ st (call_all names) Hr I) as Hc'.
  destruct (consistent_all _ _ Hc' _ _ (all_cached names st))
    as (l & bf & _ & Hk & Hbf & Hsem).
  by exists l, bf.
Qed.

Lemma not_tests (st : Stores) (p : Predicate) (bp : Entity → bool) :
  reachable (fun _ => True) st → functions st !! p = Some bp →
  ∃ bq, functions (not p st).2 !! (not p st).1 = Some bq ∧ ∀ e, bq e = negb (bp e).
Proof.
  intros Hr Hbp. apply reachable_consistent in Hr.
  assert (p < length (functions st))%nat as Hp by (by eapply lookup_lt_Some).
  pose proof (consistent_perform _ st (call_not p) Hr Hp) as Hc'.
  destruct (consistent_not _ _ Hc' p _ (not_cached p st))
    as (bp' & bq & Hbp' & Hbq & Hneg).
  pose proof (perform_keeps_function (call_not p) st p bp Hbp) as Hbp1.
  rewrite Hbp' in Hbp1. injection Hbp1 as ->.
  by exists bq.
Qed.

Lemma existsb_names (l names : list string) (e : Entity) :
  key names = key l → Ecs.defined e "" = false →
  existsb (Ecs.defined e) (JS.sort l) = true
  ↔ ∃ c, c ∈ names ∧ Ecs.defined e c = true.
Proof.
  intros Hk He. rewrite existsb_exists. pose proof (eq_sym Hk) as Hk'.
  assert (∀ c, Ecs.defined e c = true → c ≠ "") as Hne
    by (intros c Hc ->; congruence).
  split; intros (c & Hin & Hc); exists c; (split; [|done]).
  - apply list_elem_of_In in Hin. rewrite elem_of_sort in Hin.
    apply (key_names l names c); auto.
  - apply list_elem_of_In, elem_of_sort. apply (key_names names l c); auto.
Qed.

Lemma forallb_negb_names (l names : list string) (e : Entity) :
  key names = key l → Ecs.defined e "" = false →
  forallb (fun c => negb (Ecs.defined e c)) (JS.sort l) = true
  ↔ ∀ c, c ∈ names → Ecs.defined e c = false.
Proof.
  intros Hk He. rewrite forallb_forall. pose proof (eq_sym Hk) as Hk'. split.
  - intros H c Hin. destruct (decide (c = "")) as [->|Hne]; [done|].
    apply negb_true_iff, H, list_elem_of_In, elem_of_sort.
    by apply (key_names names l c).
  - intros H c Hin. apply list_elem_of_In in Hin. rewrite elem_of_sort in Hin.
    destruct (decide (c = "")) as [->|Hne]; [by rewrite He|].
    apply negb_true_iff, H. by apply (key_names l names c).
Qed.

Lemma reachable_unshared (ok : list string → Prop) (st : Stores) :
  reachable ok st → unshared st.
Proof.
  induction 1 as [|st c _ IH _]; [apply unshared_initial|].
  by apply unshared_perform.
Qed.

(** A cached negation was created after the function it negates. *)
Lemma not_above (ok : list string → Prop) (st : Stores) (p q : Predicate) :
  reachable ok st → stores_not st !! p = Some q → (p < q)%nat.
Proof.
  intros Hr. revert p q. induction Hr as [|st c Hr IH Hp]; intros p q Hq.
  - simpl in Hq. by rewrite lookup_empty in Hq.
  - destruct (filed_new c st (slot_not p) q Hq) as [Hold|[-> Hc]]; [by apply IH|].
    destruct c; try discriminate. injection Hc as ->. exact Hp.
Qed.

(** X3.  Whatever has been cached by earlier calls, empty names included:
    on an entity that has no component named by the empty string, the
    predicate [any(...names)] returns is true iff some listed component is
    defined, the one [none(...names)] returns is true iff no listed component
    is defined, and the one [all(...names)] returns is true only if every
    listed component with a non-empty name is defined. *)
Theorem presence_without_empty_component (st : Stores) (names : list string)
    (e : Entity) :
  reachable (fun _ => True) st →
  Ecs.defined e "" = false →
  (∃ b, apply (any names st).2 (any names st).1 e = Some b
        ∧ (b = true ↔ ∃ c, c ∈ names ∧ Ecs.defined e c = true))
  ∧ (∃ b, apply (none names st).2 (none names st).1 e = Some b
          ∧ (b = true ↔ ∀ c, c ∈ names → Ecs.defined e c = false))
  ∧ (∃ b, apply (all names st).2 (all names st).1 e = Some b
          ∧ (b = true → ∀ c, c ∈ names → c ≠ "" → Ecs.defined e c = true)).
Proof.
  intros Hr He. repeat split.
  - destruct (any_tests st names Hr) as (l & bf & Hk & Hbf & Hsem).
    exists (bf e). unfold apply. rewrite Hbf. split; [done|].
    rewrite Hsem. by apply existsb_names.
  - destruct (none_tests st names Hr) as (l & bf & Hk & Hbf & Hsem).
    exists (bf e). unfold apply. rewrite Hbf. split; [done|].
    rewrite Hsem. by apply forallb_negb_names.
  - destruct (all_tests st names Hr) as (l & bf & Hk & Hbf & Hsem).
    exists (bf e). unfold apply. rewrite Hbf. split; [done|].
    rewrite Hsem, forallb_forall. intros H c Hin Hne.
    apply H, list_elem_of_In, elem_of_sort. by apply (key_names names l c).
Qed.

Lemma presence_without_empty_component_witness :
  let st := (all ["a"; ""] (any [""; "b"] initial).2).2 in
  let names := ["b"; "a"] in
  let e : Entity := {[ "a" := Ecs.Data 1 ]} in
  (∃ b, apply (any names st).2 (any names st).1 e = Some b
        ∧ (b = true ↔ ∃ c, c ∈ names ∧ Ecs.defined e c = true))
  ∧ (∃ b, apply (none names st).2 (none names st).1 e = Some b
          ∧ (b = true ↔ ∀ c, c ∈ names → Ecs.defined e c = false))
  ∧ (∃ b, apply (all names st).2 (all names st).1 e = Some b
          ∧ (b = true → ∀ c, c ∈ names → c ≠ "" → Ecs.defined e c = true)).
Proof.
  intros st names e.
  apply (presence_without_empty_component st names e).
  - apply (reachable_call _ _ (call_all ["a"; ""])); [|exact I].
    apply (reachable_call _ initial (call_any [""; "b"])); [|exact I].
    apply reachable_initial.
  - reflexivity.
Defined.

(** X4.  Negating twice gives a function that computes what the original
    computes, but the module never hands the original back: [not(p)] and
    [not(not(p))] are function objects different from [p] and from each
    other. *)
Theorem double_negation (st : Stores) (p : Predicate) (e : Entity) :
  reachable (fun _ => True) st →
  (p < length (functions st))%nat →
  let r1 := not p st in
  let r2 := not r1.1 r1.2 in
  (∃ b, apply st p e = Some b ∧ apply r2.2 r2.1 e = Some b)
  ∧ r1.1 ≠ p ∧ r2.1 ≠ p ∧ r2.1 ≠ r1.1.
Proof.
  intros Hr Hp r1 r2.
  apply lookup_lt_is_Some_2 in Hp as Hbp. destruct Hbp as [bp Hbp].
  destruct (not_tests st p bp Hr Hbp) as (bq & Hbq & Hq).
  assert (reachable (fun _ => True) r1.2) as Hr1.
  { apply (reachable_call _ st (call_not p)); [done|exact Hp]. }
  destruct (not_tests r1.2 r1.1 bq Hr1 Hbq) as (br & Hbr & Hrr).
  assert (reachable (fun _ => True) r2.2) as Hr2.
  { apply (reachable_call _ r1.2 (call_not r1.1)); [done|].
    by eapply lookup_lt_Some. }
  assert (p < r1.1)%nat as H1.
  { apply (not_above _ r1.2 p r1.1 Hr1), not_cached. }
  assert (r1.1 < r2.1)%nat as H2.
  { apply (not_above _ r2.2 r1.1 r2.1 Hr2), not_cached. }
  split; [|lia].
  exists (bp e). unfold apply. rewrite Hbp. split; [done|].
  fold r1 in Hbr. fold r2 in Hbr. rewrite Hbr. simpl.
  by rewrite Hrr, Hq, negb_involutive.
Qed.

Lemma double_negation_witness :
  let st := (all ["a"] initial).2 in
  let e : Entity := {[ "a" := Ecs.Data 1 ]} in
  let r1 := not 0%nat st in
  let r2 := not r1.1 r1.2 in
  (∃ b, apply st 0%nat e = Some b ∧ apply r2.2 r2.1 e = Some b)
  ∧ r1.1 ≠ 0%nat ∧ r2.1 ≠ 0%nat ∧ r2.1 ≠ r1.1.
Proof.
  intros st e.
  apply (double_negation st 0%nat e).
  - apply (reachable_call _ initial (call_all ["a"])); [|exact I].
    apply reachable_initial.
  - vm_compute. lia.
Defined.

(** X5.  [none(...names)] and [not(any(...names))] agree on every entity that
    has no component named by the empty string, whatever was cached before,
    yet they are two different function objects. *)
Theorem none_agrees_with_not_any (st : Stores) (names : list string) (e : Entity) :
  reachable (fun _ => True) st →
  Ecs.defined e "" = false →
  let r1 := any names st in
  let r2 := not r1.1 r1.2 in
  let r3 := none names r2.2 in
  (∃ b, apply r3.2 r3.1 e = Some b ∧ apply r3.2 r2.1 e = Some b)
  ∧ r3.1 ≠ r2.1.
Proof.
  intros Hr He r1 r2 r3.
  destruct (any_tests st names Hr) as (l1 & b1 & Hk1 & Hb1 & Hs1).
  assert (reachable (fun _ => True) r1.2) as Hr1.
  { apply (reachable_call _ st (call_any names)); [done|exact I]. }
  destruct (not_tests r1.2 r1.1 b1 Hr1 Hb1) as (b2 & Hb2 & Hs2).
  assert (reachable (fun _ => True) r2.2) as Hr2.
  { apply (reachable_call _ r1.2 (call_not r1.1)); [done|].
    by eapply lookup_lt_Some. }
  destruct (none_tests r2.2 names Hr2) as (l3 & b3 & Hk3 & Hb3 & Hs3).
  assert (reachable (fun _ => True) r3.2) as Hr3.
  { apply (reachable_call _ r2.2 (call_none names)); [done|exact I]. }
  split.
  - exists (b3 e). unfold apply. fold r1 r2 r3 in Hb3. rewrite Hb3.
    split; [done|].
    pose proof (perform_keeps_function (call_none names) r2.2 r2.1 b2 Hb2) as Hb2'.
    change (perform (call_none names) r2.2) with r3 in Hb2'.
    rewrite Hb2'. simpl. f_equal.
    rewrite Hs2, Hs1, Hs3.
    pose proof (existsb_names l1 names e Hk1 He) as Hy.
    pose proof (forallb_negb_names l3 names e Hk3 He) as Hn.
    destruct (existsb _ _) eqn:Ey, (forallb _ _) eqn:En; simpl; try done.
    + destruct (proj1 Hy eq_refl) as (c & Hin & Hc).
      rewrite (proj1 Hn eq_refl c Hin) in Hc. discriminate.
    + assert (false = true) as Habs; [|discriminate].
      apply Hn. intros c Hin.
      destruct (Ecs.defined e c) eqn:Hc; [|done].
      symmetry. apply Hy. by exists c.
  - intros Heq.
    destruct (reachable_unshared _ r3.2 Hr3) as [_ Hinj].
    assert (slot_none (key names) = slot_not r1.1) as Habs; [|discriminate].
    apply (Hinj _ _ r3.1).
    + apply none_cached.
    + rewrite Heq. apply (filed_keeps (call_none names) r2.2 (slot_not r1.1)).
      apply not_cached.
Qed.

Lemma none_agrees_with_not_any_witness :
  let st := (none ["a"; ""] (any ["b"; "a"] initial).2).2 in
  let names := ["a"; "b"] in
  let e : Entity := {[ "b" := Ecs.Data 1 ]} in
  let r1 := any names st in
  let r2 := not r1.1 r1.2 in
  let r3 := none names r2.2 in
  (∃ b, apply r3.2 r3.1 e = Some b ∧ apply r3.2 r2.1 e = Some b)
  ∧ r3.1 ≠ r2.1.
Proof.
  intros st names e.
  apply (none_agrees_with_not_any st names e).
  - apply (reachable_call _ _ (call_none ["a"; ""])); [|exact I].
    apply (reachable_call _ initial (call_any ["b"; "a"])); [|exact I].
    apply reachable_initial.
  - reflexivity.
Defined.

End PresenceFacts.

(** ** The store in programs of proper calls *)

Section StoreFacts.

Import Ecs.

Ltac run :=
  unfold mbind, mret, M_bind, M_ret, bind, ret, gets, modify, throw in *;
  cbn beta iota in *.

Ltac unfold_calls :=
  unfold call, defer, immediately_addEntity, immediately_removeEntity,
    immediately_addComponent, immediately_removeComponent,
    indexEntityWithNewComponents, indexEntityWithRemovedComponents,
    removeEntityFromAllIndices, addEntity, removeEntity, addComponent,
    removeComponent, queue_add, nextId_call, for_archetypes_entries in *;
  run; simpl in *.

Ltac unfold_createArchetype :=
  unfold createArchetype_result, createArchetype, rest_array,
    memoizedArchetypes_fetch in *;
  run; simpl in *.

(** The conditions of a concrete program, call by call; membership in the
    master list is decided by running the program. *)
Ltac proper_program :=
  cbn [proper_all proper]; repeat split;
  try exact I; try discriminate;
  try (vm_compute; repeat constructor; fail).

(** *** Queries *)

Lemma for_entries_fst body (entries : Map (list EntityRef)) (ls : Map ListenerRegistry) :
  (for_entries body entries ls).1.1.*1 = entries.*1.
Proof.
  revert ls. induction entries as [|[k idx] rest IH]; intros ls; [done|].
  cbn [for_entries]. destruct (body k idx) as [idx'|].
  - destruct (invoke_listeners ls k) as [ls1|]; [|done].
    specialize (IH ls1). destruct (for_entries body rest ls1) as [[rest' ls'] err].
    simpl in *. f_equal. exact IH.
  - specialize (IH ls). destruct (for_entries body rest ls) as [[rest' ls'] err].
    simpl in *. f_equal. exact IH.
Qed.

Lemma call_fst (c : Command) (w : World) :
  (archetypes (world_of (call c w))).*1 = (archetypes w).*1.
Proof.
  destruct (call_maps c w) as [->|(body & Ha & _)]; [done|].
  by rewrite Ha, for_entries_fst.
Qed.

Lemma fst_Map_set {V} (m : Map V) (k b : Archetype) (v : V) :
  b ∈ (Map_set m k v).*1 → b = k ∨ b ∈ m.*1.
Proof.
  induction m as [|[k' v'] m IH]; simpl.
  - rewrite list_elem_of_singleton. by left.
  - destruct (same k' k); simpl; rewrite !elem_of_cons; [by right|].
    intros [->|Hb]; [right; by left|].
    destruct (IH Hb); [by left|right; by right].
Qed.

Lemma Map_get_elem {V} (m : Map V) (k : Archetype) (v : V) :
  Map_get m k = Some v → ∃ k', (k', v) ∈ m ∧ identity k' = identity k.
Proof.
  induction m as [|[k' v'] m IH]; simpl; [done|].
  destruct (same k' k) eqn:Es.
  - intros [= ->]. exists k'. split; [apply elem_of_cons; by left|].
    by apply same_spec.
  - intros Hg. destruct (IH Hg) as (k0 & Hin & Hid).
    exists k0. split; [apply elem_of_cons; by right|done].
Qed.

Lemma coherent_frame (w w' : World) :
  coherent w →
  memoizedArchetypes w' = memoizedArchetypes w →
  (allocated w ≤ allocated w')%nat →
  (∀ a, a ∈ (archetypes w').*1 → a ∈ (archetypes w).*1) →
  coherent w'.
Proof.
  intros [Hk Ha Hi Hr] Hm Hal Harch. split; rewrite ?Hm.
  - done.
  - intros k a Hka. specialize (Ha k a Hka). lia.
  - done.
  - intros a Hin. by apply Hr, Harch.
Qed.

Lemma coherent_createWorld (h : gmap EntityRef Entity) :
  coherent (with_heap h createWorld).
Proof.
  split; simpl.
  - intros k a. by rewrite lookup_empty.
  - intros k a. by rewrite lookup_empty.
  - intros k1 k2 a1 a2. by rewrite lookup_empty.
  - by intros a ?%elem_of_nil.
Qed.

Lemma coherent_call (c : Command) (w : World) :
  coherent w → coherent (world_of (call c w)).
Proof.
  intros Hc. destruct (call_frame c w) as (_ & Hm & Ha).
  apply (coherent_frame w); [done|done|lia|]. by rewrite call_fst.
Qed.

Lemma coherent_call_each (cs : list Command) (w : World) :
  coherent w → coherent (world_of (call_each cs w)).
Proof.
  revert w. induction cs as [|c cs IH]; intros w Hc; [done|].
  rewrite call_each_cons. pose proof (coherent_call c w Hc) as H.
  destruct (call c w) as [[] w'|e w']; simpl in *; [by apply IH|done].
Qed.

Lemma coherent_createArchetype (l : list ComponentName) (w : World) :
  coherent w → coherent (world_of (createArchetype l w)).
Proof.
  intros Hc. pose proof Hc as [Hk Ha Hi Hr].
  assert (∀ (w' : World) (a : Archetype),
    allocated w' = S (allocated w) →
    (memoizedArchetypes w' = memoizedArchetypes w
       ∧ (∃ k, memoizedArchetypes w !! k = Some a)
     ∨ memoizedArchetypes w !! memoizedMap_key (components a) = None
       ∧ identity a = allocated w
       ∧ memoizedArchetypes w'
         = <[memoizedMap_key (components a) := a]> (memoizedArchetypes w)) →
    (∀ b, b ∈ (archetypes w').*1 → b = a ∨ b ∈ (archetypes w).*1) →
    coherent w') as Hshape.
  { intros w' a Hal Hcase Harch.
    destruct Hcase as [(Hm & k0 & Hk0)|(Hnone & Hida & Hm)].
    - split; rewrite ?Hm; try done.
      + intros k b Hb. specialize (Ha k b Hb). lia.
      + intros b Hb. destruct (Harch b Hb) as [->|Hold]; [by exists k0|by apply Hr].
    - assert (∀ k b, memoizedArchetypes w' !! k = Some b →
                (k = memoizedMap_key (components a) ∧ b = a)
                ∨ memoizedArchetypes w !! k = Some b) as Hinv.
      { intros k b. rewrite Hm.
        destruct (decide (memoizedMap_key (components a) = k)) as [<-|Hne].
        - rewrite lookup_insert_eq. intros [= <-]. by left.
        - rewrite lookup_insert_ne by done. by right. }
      split.
      + intros k b Hb. destruct (Hinv k b Hb) as [[-> ->]|Hold]; [done|by apply Hk].
      + intros k b Hb. rewrite Hal.
        destruct (Hinv k b Hb) as [[-> ->]|Hold]; [lia|].
        specialize (Ha k b Hold). lia.
      + intros k1 k2 a1 a2 H1 H2 Hid.
        destruct (Hinv k1 a1 H1) as [[-> ->]|Ho1], (Hinv k2 a2 H2) as [[-> ->]|Ho2].
        * done.
        * specialize (Ha k2 a2 Ho2). lia.
        * specialize (Ha k1 a1 Ho1). lia.
        * by apply (Hi k1 k2).
      + intros b Hb. destruct (Harch b Hb) as [->|Hold].
        * exists (memoizedMap_key (components a)). rewrite Hm. apply lookup_insert_eq.
        * destruct (Hr b Hold) as [k Hkb]. exists k. rewrite Hm.
          rewrite lookup_insert_ne; [done|]. intros <-. congruence. }
  unfold_createArchetype.
  destruct (memoizedArchetypes w !! _) as [cached|] eqn:Em; simpl.
  - destruct (Map_has (archetypes w) cached) eqn:Eh; simpl;
      apply (Hshape _ cached); try done; eauto.
    simpl. intros b. apply fst_Map_set.
  - destruct (Map_has (archetypes w) _) eqn:Eh; simpl.
    + apply (Hshape _ {| identity := allocated w; components := JS.sort l |});
        try done; eauto.
    + apply (Hshape _ {| identity := allocated w; components := JS.sort l |});
        try done; eauto.
      simpl. intros b. apply fst_Map_set.
Qed.

Lemma coherent_after (c : Call) (w : World) : coherent w → coherent (after c w).
Proof.
  intros Hc. unfold after. destruct c as [l|a|a|l|c|c| |]; simpl.
  - pose proof (coherent_createArchetype l w Hc) as H.
    run. by destruct (createArchetype l w).
  - done.
  - unfold getOne. run. by destruct (Map_get (archetypes w) a).
  - pose proof (coherent_createArchetype l w Hc) as H.
    unfold getWith, get. run. by destruct (createArchetype l w).
  - by apply coherent_call.
  - rewrite defer_eq. by apply (coherent_frame w).
  - rewrite flush_eq. pose proof (coherent_call_each (queue w) w Hc) as H.
    destruct (call_each (queue w) w); [|done]. by apply (coherent_frame w0).
  - apply (coherent_frame w); try done. simpl. by intros a ?%elem_of_nil.
Qed.

Lemma coherent_after_all (cs : list Call) (w : World) :
  coherent w → coherent (after_all cs w).
Proof.
  intros Hc. induction cs as [|c cs IH] using rev_ind; [done|].
  rewrite after_all_snoc. by apply coherent_after.
Qed.

Lemma tidy_after_all (cs : list Call) (w : World) :
  tidy w → proper_all w cs → tidy (after_all cs w).
Proof.
  revert w. induction cs as [|c cs IH]; intros w Ht Hp; [done|].
  destruct Hp as [Hc Hp]. simpl. apply IH; [by apply tidy_after | done].
Qed.

(** A cached archetype holds the names of the list it is filed under. *)
Lemma cached_names (w : World) (l : list ComponentName) (a : Archetype) :
  coherent w → memoizedArchetypes w !! memoizedMap_key l = Some a →
  ∀ c, c ∈ components a ↔ c ∈ l.
Proof.
  intros Hc Hm c. pose proof (coherent_key _ Hc _ _ Hm) as Hk.
  unfold memoizedMap_key in Hk. apply JSON_stringify_inj in Hk.
  by rewrite <- (elem_of_Set_values (components a)), <- Hk, elem_of_Set_values.
Qed.

(** In a store that is in order, the archetype [createArchetype] returns has
    an index, and the index lists exactly the entities of the store on which
    every name of the call is defined. *)
Lemma createArchetype_index (l : list ComponentName) (w : World) :
  tidy w → coherent w → l ≠ [] →
  ∃ index,
    Map_get (archetypes (world_of (createArchetype l w))) (createArchetype_result l w)
    = Some index
    ∧ NoDup index
    ∧ ∀ e, e ∈ index ↔
        e ∈ entities w ∧ ∀ c, c ∈ l → defined (object w e) c = true.
Proof.
  intros Ht Hc Hl.
  set (a := createArchetype_result l w). set (w' := world_of (createArchetype l w)).
  pose proof (tidy_createArchetype w l Ht Hl) as Ht'.
  pose proof (coherent_createArchetype l w Hc) as Hc'.
  destruct (createArchetype_world l w) as (Hcached & _).
  destruct (createArchetype_frame l w) as [He Hh].
  fold a w' in Ht', Hc', Hcached, He, Hh.
  pose proof (createArchetype_registered l w) as Hreg. fold a w' in Hreg.
  unfold Map_has in Hreg.
  destruct (Map_get (archetypes w') a) as [index|] eqn:Eg; [|done].
  destruct (Map_get_elem _ _ _ Eg) as (a' & Hin & Hid).
  assert (a' = a) as ->.
  { destruct (coherent_registered _ Hc' a') as [k Hk].
    - apply list_elem_of_fmap. by exists (a', index).
    - by apply (coherent_identity _ Hc' k _ a' a Hk Hcached). }
  pose proof (cached_names w' (JS.sort l) a Hc' Hcached) as Hcomp.
  destruct (tidy_exact _ Ht' a index Hin) as [Hnd Hmem].
  exists index. split; [done|]. split; [done|].
  intros e. rewrite Hmem, He, entityIsArchetype_true.
  assert (object w' e = object w e) as -> by (unfold object; by rewrite Hh).
  split; intros [? H]; (split; [done|]); intros c Hin'; apply H.
  - by rewrite Hcomp, elem_of_sort.
  - by rewrite Hcomp, elem_of_sort in Hin'.
Qed.

(** X18.  In every program, proper or not, [createArchetype(...names)]
    returns, and the archetype it returns, cached or new, holds exactly the
    names of the call: every listed name and no other.  It is an array
    allocated by now, and it has an index when the call returns. *)
Theorem createArchetype_names (h : gmap EntityRef Entity) (cs : list Call)
    (names : list ComponentName) :
  let w := after_all cs (with_heap h createWorld) in
  ∃ a w',
    createArchetype names w = Return a w'
    ∧ (∀ c, c ∈ components a ↔ c ∈ names)
    ∧ (identity a < allocated w')%nat
    ∧ Map_has (archetypes w') a = true.
Proof.
  intros w.
  assert (coherent w) as Hc by apply coherent_after_all, coherent_createWorld.
  pose proof (coherent_createArchetype names w Hc) as Hc'.
  destruct (createArchetype_world names w) as (Hcached & _).
  exists (createArchetype_result names w), (world_of (createArchetype names w)).
  split; [apply createArchetype_returns|].
  split.
  { intros c. rewrite (cached_names _ _ _ Hc' Hcached c). apply elem_of_sort. }
  split; [by apply (coherent_allocated _ Hc' _ _ Hcached)|].
  apply createArchetype_registered.
Qed.

(** X6.  In every program of proper calls, [getWith(...names)] with at least
    one name returns exactly the entities of the store that hold a defined
    value for every listed name, each once, and changes neither the master
    list nor any entity. *)
Theorem getWith_exact (h : gmap EntityRef Entity) (cs : list Call)
    (names : list ComponentName) :
  proper_all (with_heap h createWorld) cs →
  names ≠ [] →
  let w := after_all cs (with_heap h createWorld) in
  ∃ index w',
    getWith names w = Return (Some index) w'
    ∧ NoDup index
    ∧ (∀ e, e ∈ index ↔
         e ∈ entities w ∧ ∀ c, c ∈ names → defined (object w e) c = true)
    ∧ entities w' = entities w ∧ heap w' = heap w.
Proof.
  intros Hp Hl w.
  assert (tidy w) as Ht by (apply tidy_after_all; [apply tidy_createWorld|done]).
  assert (coherent w) as Hc by apply coherent_after_all, coherent_createWorld.
  destruct (createArchetype_index names w Ht Hc Hl) as (index & Hg & Hnd & Hmem).
  destruct (createArchetype_frame names w) as [He Hh].
  exists index, (world_of (createArchetype names w)).
  split; [|done].
  unfold getWith, get. run. rewrite createArchetype_returns. simpl. by rewrite Hg.
Qed.

Lemma getWith_exact_witness :
  let h : gmap EntityRef Entity :=
    {[ 1%nat := {[ "position" := Data 3 ]};
       2%nat := {[ "position" := Data 5; "velocity" := Data 1 ]} ]} in
  let cs := [call_immediately (AddEntity 1%nat);
             call_createArchetype ["velocity"];
             call_immediately (AddEntity 2%nat);
             call_immediately (AddComponent 1%nat "velocity" (Data 4))] in
  let w := after_all cs (with_heap h createWorld) in
  ∃ index w',
    getWith ["velocity"; "position"] w = Return (Some index) w'
    ∧ NoDup index
    ∧ (∀ e, e ∈ index ↔
         e ∈ entities w
         ∧ ∀ c, c ∈ ["velocity"; "position"] → defined (object w e) c = true)
    ∧ entities w' = entities w ∧ heap w' = heap w.
Proof.
  intros h cs.
  apply (getWith_exact h cs ["velocity"; "position"]); [|discriminate].
  proper_program.
Defined.

(** X12.  In every program of proper calls, [getOne] on the archetype that
    [createArchetype(...names)] returns does not throw: it returns an entity
    of the store on which every listed name is defined, and returns
    [undefined] exactly when the store has no such entity. *)
Theorem getOne_matching (h : gmap EntityRef Entity) (cs : list Call)
    (names : list ComponentName) :
  proper_all (with_heap h createWorld) cs →
  names ≠ [] →
  let w := after_all cs (with_heap h createWorld) in
  ∃ a w' r,
    createArchetype names w = Return a w'
    ∧ getOne a w' = Return r w'
    ∧ (∀ e, r = Some e →
         e ∈ entities w ∧ ∀ c, c ∈ names → defined (object w e) c = true)
    ∧ (r = None ↔
       ∀ e, e ∈ entities w → ¬ ∀ c, c ∈ names → defined (object w e) c = true).
Proof.
  intros Hp Hl w.
  assert (tidy w) as Ht by (apply tidy_after_all; [apply tidy_createWorld|done]).
  assert (coherent w) as Hc by apply coherent_after_all, coherent_createWorld.
  destruct (createArchetype_index names w Ht Hc Hl) as (index & Hg & Hnd & Hmem).
  exists (createArchetype_result names w), (world_of (createArchetype names w)),
    (head index).
  split; [apply createArchetype_returns|].
  split; [unfold getOne; run; by rewrite Hg|].
  split.
  - intros e He. apply Hmem. destruct index as [|x index]; [done|].
    injection He as ->. apply elem_of_cons. by left.
  - destruct index as [|x index]; simpl.
    + split; [|done]. intros _ e He Hall.
      assert (e ∈ []) as Habs by (apply Hmem; done). by apply elem_of_nil in Habs.
    + split; [done|]. intros Hnone. exfalso.
      assert (x ∈ x :: index) as Hx by (apply elem_of_cons; by left).
      apply Hmem in Hx as [Hx Hall]. by apply (Hnone x).
Qed.

Lemma getOne_matching_witness :
  let h : gmap EntityRef Entity :=
    {[ 1%nat := {[ "position" := Data 3 ]};
       2%nat := {[ "position" := Data 5; "velocity" := Data 1 ]} ]} in
  let cs := [call_immediately (AddEntity 1%nat);
             call_immediately (AddEntity 2%nat)] in
  let w := after_all cs (with_heap h createWorld) in
  ∃ a w' r,
    createArchetype ["velocity"] w = Return a w'
    ∧ getOne a w' = Return r w'
    ∧ (∀ e, r = Some e →
         e ∈ entities w ∧ ∀ c, c ∈ ["velocity"] → defined (object w e) c = true)
    ∧ (r = None ↔
       ∀ e, e ∈ entities w →
         ¬ ∀ c, c ∈ ["velocity"] → defined (object w e) c = true).
Proof.
  intros h cs.
  apply (getOne_matching h cs ["velocity"]); [|discriminate].
  proper_program.
Defined.

(** X13.  In every program of proper calls the master list holds no entity
    twice, and every entity on it carries an identifier. *)
Theorem store_entities_identified (h : gmap EntityRef Entity) (cs : list Call) :
  proper_all (with_heap h createWorld) cs →
  let w := after_all cs (with_heap h createWorld) in
  NoDup (entities w)
  ∧ ∀ e, e ∈ entities w → has_property (object w e) "id" = true.
Proof.
  intros Hp w.
  assert (tidy w) as Ht by (apply tidy_after_all; [apply tidy_createWorld|done]).
  split; [apply (tidy_entities _ Ht)|apply (tidy_ids _ Ht)].
Qed.

Lemma store_entities_identified_witness :
  let h : gmap EntityRef Entity :=
    {[ 1%nat := {[ "position" := Data 3 ]}; 2%nat := {[ "id" := Data 9 ]} ]} in
  let cs := [call_immediately (AddEntity 1%nat);
             call_immediately (AddEntity 2%nat);
             call_immediately (AddEntity 1%nat);
             call_immediately (AddEntity 3%nat);
             call_immediately (RemoveEntity 1%nat);
             call_immediately (AddEntity 1%nat)] in
  let w := after_all cs (with_heap h createWorld) in
  NoDup (entities w)
  ∧ ∀ e, e ∈ entities w → has_property (object w e) "id" = true.
Proof.
  intros h cs.
  apply (store_entities_identified h cs).
  proper_program.
Defined.

(** *** Adding twice, and adding and removing *)

Lemma for_entries_fixed body (entries : Map (list EntityRef))
    (ls : Map ListenerRegistry) :
  (∀ k idx, (k, idx) ∈ entries → body k idx = None) →
  for_entries body entries ls = (entries, ls, None).
Proof.
  induction entries as [|[k idx] rest IH]; intros Hb; [done|].
  cbn [for_entries]. rewrite (Hb k idx) by (apply elem_of_cons; by left).
  rewrite IH; [done|]. intros k' idx' Hin. apply Hb, elem_of_cons. by right.
Qed.


Lemma elem_of_rewritten body (entries : Map (list EntityRef)) (k : Archetype)
    (idx' : list EntityRef) :
  (k, idx') ∈ rewritten body <$> entries →
  ∃ idx, (k, idx) ∈ entries ∧ idx' = default idx (body k idx).
Proof.
  intros ([k0 idx] & Heq & Hin)%list_elem_of_fmap. unfold rewritten in Heq.
  simpl in Heq. injection Heq as -> ->. by exists idx.
Qed.

(** X7.  Adding a component is idempotent: a second
    [immediately.addComponent] with the same entity, name and value returns
    and leaves the whole world as the first call left it, so no index grows
    twice and no listener is invoked again. *)
Theorem addComponent_idempotent (w : World) (e : EntityRef) (n : ComponentName)
    (d : ComponentData) :
  well_formed w →
  ∃ w1, immediately_addComponent e n d w = Return tt w1
        ∧ immediately_addComponent e n d w1 = Return tt w1.
Proof.
  intros [_ Hls].
  unfold immediately_addComponent, indexEntityWithNewComponents. run.
  set (w0 := set_object e (<[n := d]> (object w e)) w).
  set (body := fun (archetype : Archetype) (index : list EntityRef) => _).
  destruct (for_archetypes_entries_tidy body w0 Hls) as (ls & -> & Hk).
  set (w1 := with_archetypeChanged ls _).
  exists w1. split; [done|].
  assert (object w0 e = <[n := d]> (object w e)) as Ho0 by apply object_set_object.
  assert (object w1 e = object w0 e) as Ho by apply object_after_loop.
  assert (set_object e (<[n := d]> (object w1 e)) w1 = w1) as Hs.
  { rewrite Ho, Ho0, insert_insert_eq. unfold set_object, w1, w0, set_object. simpl.
    unfold with_heap. simpl. by rewrite insert_insert_eq. }
  rewrite Hs, Ho. fold body.
  unfold for_archetypes_entries. rewrite for_entries_fixed; [done|].
  intros k idx' (idx & Hin & ->)%elem_of_rewritten.
  unfold body. destruct (existsb _ (components k)); [|done].
  destruct (entityIsArchetype (object w0 e) k); [|done]. simpl.
  unfold JS.includes. destruct (bool_decide (e ∈ idx)) eqn:Ei; simpl.
  - by rewrite Ei.
  - rewrite bool_decide_eq_true_2; [done|]. apply elem_of_app. right.
    by apply list_elem_of_singleton.
Qed.

Lemma addComponent_idempotent_witness :
  let w := after_all [call_createArchetype ["position"; "velocity"];
                      call_immediately (AddEntity 1%nat)]
             (with_heap {[ 1%nat := {[ "position" := Data 3 ]} ]} createWorld) in
  ∃ w1, immediately_addComponent 1%nat "velocity" (Data 4) w = Return tt w1
        ∧ immediately_addComponent 1%nat "velocity" (Data 4) w1 = Return tt w1.
Proof.
  intros w. apply (addComponent_idempotent w 1%nat "velocity" (Data 4)).
  apply well_formed_after_all, well_formed_createWorld.
Defined.



(** *** The archetype with no names *)



(** *** Identifiers after removing and after clearing *)

(** X10.  [removeEntity] takes the identifier off the entity, so the entity
    can be added again and gets the next identifier; [clear] empties the
    store but leaves the identifiers on the entity objects, so an entity of
    the cleared store cannot be added again. *)
Theorem readding_an_entity (w : World) (e : EntityRef) :
  tidy w →
  e ∈ entities w →
  (∃ w1 w2, immediately_removeEntity e w = Return tt w1
            ∧ has_property (object w1 e) "id" = false
            ∧ immediately_addEntity e w1 = Return e w2
            ∧ e ∈ entities w2
            ∧ object w2 e !! "id" = Some (Data (nextId w)))
  ∧ (∃ wc, clear w = Return tt wc
           ∧ entities wc = []
           ∧ immediately_addEntity e wc = Throw DuplicateIdentifier wc).
Proof.
  intros Ht He. pose proof Ht as [Hex Hnd Hids Hne Hcache Hls]. split.
  - unfold immediately_removeEntity, removeEntityFromAllIndices. run.
    set (body := fun (archetype : Archetype) (index : list EntityRef) => _).
    destruct (for_archetypes_entries_tidy body w Hls) as (ls & -> & Hk).
    set (w1 := with_entities _ _).
    exists w1.
    assert (object w1 e = delete "id" (object w e)) as Ho.
    { unfold w1, object. simpl. by rewrite lookup_insert_eq. }
    assert (has_property (object w1 e) "id" = false) as Hid.
    { rewrite Ho. unfold has_property. apply bool_decide_eq_false.
      rewrite lookup_delete_eq. by intros [? ?]. }
    assert (∀ k, k ∈ keys (archetypes w1) → k ∈ keys (archetypeChanged w1)) as Hls'.
    { intros k. unfold w1. simpl. rewrite keys_rewritten, Hk. apply Hls. }
    unfold immediately_addEntity, nextId_call, indexEntityWithNewComponents. run.
    rewrite Hid. simpl.
    set (w0 := with_entities _ _).
    set (body' := fun (archetype : Archetype) (index : list EntityRef) => _).
    destruct (for_archetypes_entries_tidy body' w0 Hls') as (ls' & -> & Hk').
    eexists. split; [done|]. split; [done|]. split; [done|]. simpl.
    split; [apply elem_of_app; right; by apply list_elem_of_singleton|].
    unfold object. simpl. rewrite lookup_insert_eq. simpl. apply lookup_insert_eq.
  - rewrite clear_eq. eexists. split; [done|]. split; [done|].
    unfold immediately_addEntity. run.
    set (wc := with_queue _ _).
    change (object wc e) with (object w e). by rewrite (Hids e He).
Qed.

Lemma readding_an_entity_witness :
  let w := after_all [call_createArchetype ["position"];
                      call_immediately (AddEntity 1%nat)]
             (with_heap {[ 1%nat := {[ "position" := Data 3 ]} ]} createWorld) in
  (∃ w1 w2, immediately_removeEntity 1%nat w = Return tt w1
            ∧ has_property (object w1 1%nat) "id" = false
            ∧ immediately_addEntity 1%nat w1 = Return 1%nat w2
            ∧ 1%nat ∈ entities w2
            ∧ object w2 1%nat !! "id" = Some (Data (nextId w)))
  ∧ (∃ wc, clear w = Return tt wc
           ∧ entities wc = []
           ∧ immediately_addEntity 1%nat wc = Throw DuplicateIdentifier wc).
Proof.
  intros w. apply (readding_an_entity w 1%nat).
  - apply tidy_after_all; [apply tidy_createWorld|]. proper_program.
  - vm_compute. apply elem_of_cons. by left.
Defined.

(** *** Listeners *)

(** In a loop that ran to its end and whose body never rewrites an index to
    what it was, an index that is as before had no listener invoked. *)
Lemma for_entries_silent body (entries : Map (list EntityRef))
    (ls : Map ListenerRegistry) (a : Archetype) :
  NoDup (keys entries) →
  (∀ k idx idx', body k idx = Some idx' → idx' ≠ idx) →
  (for_entries body entries ls).2 = None →
  Map_get (for_entries body entries ls).1.1 a = Map_get entries a →
  invocations_of (for_entries body entries ls).1.2 a = invocations_of ls a.
Proof.
  intros Hnd Hbody. revert ls Hnd.
  induction entries as [|[k index] rest IH]; intros ls Hnd;
    cbn [for_entries]; [done|].
  rewrite keys_cons, NoDup_cons in Hnd.
  destruct Hnd as [Hk Hnd].
  destruct (body k index) as [index'|] eqn:Eb.
  - destruct (invoke_listeners ls k) as [ls1|] eqn:Ei; simpl; [|done].
    specialize (IH ls1 Hnd). destruct (for_entries body rest ls1) as [[rest' ls'] err].
    simpl in *. intros Herr. rewrite <- (Nat.add_0_r (invocations_of ls a)).
    destruct (same k a) eqn:Es.
    + intros [= ->]. by destruct (Hbody k index index Eb).
    + intros Hsame. rewrite (IH Herr Hsame), (invoke_listeners_count _ _ _ a Ei), Es.
      lia.
  - pose proof (for_entries_other body rest ls a) as Hother.
    specialize (IH ls Hnd). destruct (for_entries body rest ls) as [[rest' ls'] err].
    simpl in *. intros Herr. destruct (same k a) eqn:Es; [|auto].
    intros _. apply Hother. apply same_spec in Es. by rewrite <- Es.
Qed.

Lemma for_archetypes_entries_listeners body (w w' : World) (a : Archetype) :
  NoDup (keys (archetypes w)) →
  (∀ k idx idx', body k idx = Some idx' → idx' ≠ idx) →
  for_archetypes_entries body w = Return tt w' →
  (Map_get (archetypes w') a ≠ Map_get (archetypes w) a →
   notifications w' a = S (notifications w a))
  ∧ (Map_get (archetypes w') a = Map_get (archetypes w) a →
     notifications w' a = notifications w a).
Proof.
  intros Hnd Hbody. unfold for_archetypes_entries, notifications.
  pose proof (for_entries_changed body (archetypes w) (archetypeChanged w) a Hnd) as Hc.
  pose proof (for_entries_silent body (archetypes w) (archetypeChanged w) a Hnd Hbody)
    as Hs.
  destruct (for_entries body (archetypes w) (archetypeChanged w)) as [[entries ls] err].
  simpl in *. destruct err; [done|]. intros [= <-]. simpl. auto.
Qed.

Lemma push_changes (idx : list EntityRef) (e : EntityRef) : idx ++ [e] ≠ idx.
Proof.
  intros Heq. apply (f_equal length) in Heq. rewrite length_app in Heq.
  simpl in Heq. lia.
Qed.

Lemma splice_member_changes (idx : list EntityRef) (e : EntityRef) :
  e ∈ idx → JS.splice idx (JS.indexOf idx e) 1 ≠ idx.
Proof.
  intros (l1 & l2 & -> & Hl1)%list_elem_of_split_l.
  rewrite splice_at_indexOf by done. intros Heq.
  apply (f_equal length) in Heq. rewrite !length_app in Heq. simpl in Heq. lia.
Qed.

(** X11.  When [immediately.addEntity], [immediately.addComponent] or
    [immediately.removeEntity] returns, the listeners of an archetype have
    been invoked once if its index has changed, and not at all if it has
    not. *)
Theorem listeners_follow_the_index (w w' : World) (c : Command) (a : Archetype) :
  well_formed w →
  (∀ e names, c ≠ RemoveComponent e names) →
  call c w = Return tt w' →
  (Map_get (archetypes w') a ≠ Map_get (archetypes w) a →
   notifications w' a = S (notifications w a))
  ∧ (Map_get (archetypes w') a = Map_get (archetypes w) a →
     notifications w' a = notifications w a).
Proof.
  intros [Hnd _] Hc. destruct c as [e|e|e n d|e names]; [| | |by destruct (Hc e names)].
  - unfold call, immediately_addEntity, nextId_call, indexEntityWithNewComponents. run.
    destruct (has_property (object w e) "id"); [done|]. simpl.
    set (w0 := with_entities _ _).
    set (body := fun (archetype : Archetype) (index : list EntityRef) => _).
    destruct (for_archetypes_entries body w0) as [[] w1|err w1] eqn:Ef; [|done].
    intros [= <-].
    apply (for_archetypes_entries_listeners body w0 w1 a Hnd); [|done].
    intros k idx idx'. unfold body.
    destruct (existsb _ _); [|done]. destruct (_ && _); [|done].
    intros [= <-]. apply push_changes.
  - unfold call, immediately_removeEntity, removeEntityFromAllIndices. run.
    set (body := fun (archetype : Archetype) (index : list EntityRef) => _).
    destruct (for_archetypes_entries body w) as [[] w1|err w1] eqn:Ef; [|done].
    intros [= <-].
    apply (for_archetypes_entries_listeners body w w1 a Hnd); [|done].
    intros k idx idx'. unfold body.
    destruct (0 <=? JS.indexOf idx e) eqn:Ep; [|done].
    intros [= <-]. apply splice_member_changes. by apply indexOf_nonneg.
  - unfold call, immediately_addComponent, indexEntityWithNewComponents. run.
    set (w0 := set_object _ _ _).
    set (body := fun (archetype : Archetype) (index : list EntityRef) => _).
    intros Ef.
    apply (for_archetypes_entries_listeners body w0 w' a Hnd); [|done].
    intros k idx idx'. unfold body.
    destruct (existsb _ _); [|done]. destruct (_ && _); [|done].
    intros [= <-]. apply push_changes.
Qed.

Lemma listeners_follow_the_index_witness :
  let w := after_all [call_createArchetype ["position"];
                      call_createArchetype ["velocity"]]
             (with_heap {[ 1%nat := {[ "position" := Data 3 ]} ]} createWorld) in
  let w' := after (call_immediately (AddEntity 1%nat)) w in
  let position := {| identity := 0; components := ["position"] |} in
  let velocity := {| identity := 1; components := ["velocity"] |} in
  notifications w' position = S (notifications w position)
  ∧ notifications w' velocity = notifications w velocity.
Proof.
  intros w w' position velocity.
  assert (well_formed w) as Hwf
    by apply well_formed_after_all, well_formed_createWorld.
  assert (∀ e names, AddEntity 1%nat ≠ RemoveComponent e names) as Hc by done.
  assert (call (AddEntity 1%nat) w = Return tt w') as Hr
    by (vm_compute; reflexivity).
  split.
  - apply (listeners_follow_the_index w w' _ position Hwf Hc Hr).
    vm_compute. discriminate.
  - apply (listeners_follow_the_index w w' _ velocity Hwf Hc Hr).
    vm_compute. reflexivity.
Defined.

(** *** The general statements at work *)

Lemma index_exact_maintained_witness :
  let h : gmap EntityRef Entity :=
    {[ 1%nat := {[ "position" := Data 3 ]}; 2%nat := {[ "velocity" := Data 5 ]} ]} in
  let cs := [call_createArchetype ["position"];
             call_immediately (AddEntity 1%nat);
             call_immediately (AddEntity 2%nat);
             call_immediately (AddComponent 2%nat "position" (Data 7));
             call_immediately (RemoveComponent 1%nat ["position"]);
             call_immediately (RemoveEntity 2%nat);
             call_deferred (AddEntity 2%nat);
             call_getWith ["velocity"; "position"]] in
  proper_all (with_heap h createWorld) cs
  ∧ index_exact (after_all cs (with_heap h createWorld)).
Proof.
  intros h cs.
  assert (proper_all (with_heap h createWorld) cs) as Hp.
  { proper_program.
    - rewrite !elem_of_cons, elem_of_nil. intros [?|[]]. discriminate.
    - intros k idx Hin _. vm_compute in Hin.
      apply list_elem_of_singleton in Hin. injection Hin as -> ->.
      rewrite !elem_of_cons. auto. }
  split; [exact Hp|]. exact (index_exact_maintained h cs Hp).
Defined.

Lemma removeComponent_member_witness :
  let h : gmap EntityRef Entity :=
    {[ 1%nat := {[ "a" := Data 1 ]}; 2%nat := {[ "a" := Data 1; "b" := Data 2 ]} ]} in
  let w := after_all [call_createArchetype ["a"];
                      call_immediately (AddEntity 1%nat);
                      call_immediately (AddEntity 2%nat)] (with_heap h createWorld) in
  let a := {| identity := 0; components := ["a"] |} in
  ∃ w', immediately_removeComponent 1%nat ["a"] w = Return tt w'
        ∧ Map_get (archetypes w') a = Some ([] ++ [2%nat]).
Proof.
  intros h w a.
  apply (removeComponent_member w 1%nat ["a"] a [] [2%nat] "a").
  - apply well_formed_after_all, well_formed_createWorld.
  - vm_compute. apply elem_of_cons. by left.
  - apply not_elem_of_nil.
  - apply elem_of_cons. by left.
  - apply elem_of_cons. by left.
Defined.

Lemma removeComponent_bystander_witness :
  let h : gmap EntityRef Entity :=
    {[ 1%nat := {[ "a" := Data 1 ]}; 2%nat := {[ "a" := Data 1; "b" := Data 2 ]} ]} in
  let w := after_all [call_createArchetype ["b"; "a"];
                      call_immediately (AddEntity 1%nat);
                      call_immediately (AddEntity 2%nat)] (with_heap h createWorld) in
  let ab := {| identity := 0; components := ["a"; "b"] |} in
  ∃ w', immediately_removeComponent 1%nat ["a"] w = Return tt w'
        ∧ Map_get (archetypes w') ab = Some [].
Proof.
  intros h w ab.
  apply (removeComponent_bystander w 1%nat 2%nat ["a"] ab [] "a").
  - apply well_formed_after_all, well_formed_createWorld.
  - vm_compute. apply elem_of_cons. by left.
  - simpl. rewrite !elem_of_cons, elem_of_nil. intros [?|[]]. discriminate.
  - apply elem_of_cons. by left.
  - apply elem_of_cons. by left.
Defined.

Lemma removeEntity_stranger_witness :
  let h : gmap EntityRef Entity :=
    {[ 1%nat := {[ "a" := Data 1 ]}; 2%nat := {[ "a" := Data 1 ]} ]} in
  let w := after_all [call_createArchetype ["a"];
                      call_immediately (AddEntity 1%nat);
                      call_immediately (AddEntity 2%nat)] (with_heap h createWorld) in
  ∃ w', immediately_removeEntity 3%nat w = Return tt w' ∧ entities w' = [1%nat].
Proof.
  intros h w.
  apply (removeEntity_stranger w 3%nat 2%nat [1%nat]).
  - apply well_formed_after_all, well_formed_createWorld.
  - reflexivity.
  - simpl. rewrite !elem_of_cons, elem_of_nil. intros [?|[?|[]]]; discriminate.
Defined.

End StoreFacts.
